(** * urVision object tracker: a shallow embedding of [ObjectTracker.cpp]

    The tracker keeps four maps keyed by [ObjectID] (the tracked object, the
    "uprooted" flag, the disappeared counter and the frame counter), a vector
    of ids kept in rank order and the next id to hand out.  The C++ methods
    are embedded as computations in a state-and-error monad over that record.
    A computation has no result where C++ gives the program no meaning: at an
    out-of-range access to a [std::vector], and at the use of a [std::map]
    iterator whose element has been erased. *)

From Stdlib Require Import List Arith Bool Lia ZArith Permutation Sorted.
Import ListNotations.

Set Implicit Arguments.

(** ** [std::map] with integer keys

    An ordered map is a list of entries kept in ascending key order, so that
    iterating the map is iterating the list.  *)

Module OMap.

Section Def.
Variable V : Type.

Definition t := list (nat * V).

Definition empty : t := [].

Definition keys (m : t) : list nat := map fst m.

Definition size (m : t) : nat := length m.

Fixpoint find (k : nat) (m : t) : option V :=
  match m with
  | [] => None
  | (k', v) :: r => if k =? k' then Some v else find k r
  end.

(** [m[k] = v]: overwrite the entry of [k], or add it at its place. *)
Fixpoint insert (k : nat) (v : V) (m : t) : t :=
  match m with
  | [] => [(k, v)]
  | (k', v') :: r =>
      if k <? k' then (k, v) :: m
      else if k =? k' then (k, v) :: r
      else (k', v') :: insert k v r
  end.

(** [m.erase(k)]; keys are unique, so at most one entry goes. *)
Definition erase (k : nat) (m : t) : t :=
  filter (fun e => negb (fst e =? k)) m.

(** [m.count(k)] *)
Definition count (k : nat) (m : t) : nat :=
  match find k m with Some _ => 1 | None => 0 end.
End Def.

(** [insert] on the key list alone. *)
Fixpoint kinsert (k : nat) (ks : list nat) : list nat :=
  match ks with
  | [] => [k]
  | k' :: r =>
      if k <? k' then k :: ks
      else if k =? k' then k :: r
      else k' :: kinsert k r
  end.

Definition ordered (ks : list nat) : Prop := StronglySorted lt ks.

End OMap.

(** ** Numbers, objects and the ranking relation

    [urVision/ObjectTracker.h] is not among the sources.  The field type of
    [Object], the type [Distance] with its arithmetic, and [operator>] on
    objects are parameters of the development. *)

(** Modelled from the spec: [ObjectID] is declared in the header; the spec
    describes a monotonically assigned integer that is never reused.  Ids
    are natural numbers here, and so are the two counters. *)
Definition ObjectID := nat.

(** The arithmetic of [euclidean_distance]: the cast [(Distance)a.x], the
    operations on [Distance] and its comparison; [coord_zero] is a
    value-initialised field. *)
Class DistanceArith (Coord Distance : Type) := {
  coord_zero : Coord;
  to_Distance : Coord -> Distance;
  dist_zero : Distance;
  dist_sub : Distance -> Distance -> Distance;
  dist_add : Distance -> Distance -> Distance;
  dist_mul : Distance -> Distance -> Distance;
  dist_sqrt : Distance -> Distance;
  dist_lt : Distance -> Distance -> bool
}.

(** What [std::sort] asks of its comparator. *)
Definition strict_weak_order (A : Type) (comp : A -> A -> bool) : Prop :=
  (forall a, comp a a = false) /\
  (forall a b c, comp a b = true -> comp b c = true -> comp a c = true) /\
  (forall a b c, comp a b = false -> comp b c = false -> comp a c = false).

(** Distances are compared like real numbers (no NaN). *)
Class DistanceOrder (Coord Distance : Type) `{DistanceArith Coord Distance} := {
  dist_lt_swo : strict_weak_order dist_lt
}.

(** Modelled from the spec: [Object] is declared in the header; the source
    reads its fields [x], [y], [z] and [size], the spec gives a detection a
    position [(x, y, z)] and a scalar [size]. *)
Record Object (Coord : Type) := mkObject {
  x : Coord;
  y : Coord;
  z : Coord;
  size : Coord
}.

(** [operator>] on objects, the ranking relation of the id vector. *)
Class ObjectRanking (Coord : Type) := {
  Object_gt : Object Coord -> Object Coord -> bool
}.

(** No element comes before one that the comparator puts in front of it. *)
Definition sorted_by (A : Type) (comp : A -> A -> bool) (l : list A) : Prop :=
  StronglySorted (fun a b => comp b a = false) l.

(** [std::sort(first, last, comp)]: the result is a permutation of the range
    in non-descending order; the order of equivalent elements is not
    specified. *)
Class StdSort := {
  std_sort : (nat -> nat -> bool) -> list nat -> list nat;
  std_sort_perm : forall comp l,
      strict_weak_order comp -> Permutation l (std_sort comp l);
  std_sort_sorted : forall comp l,
      strict_weak_order comp -> sorted_by comp (std_sort comp l)
}.

(** ** The tracker *)

Section Tracker.
Context {Coord Distance : Type}.
Context `{DO : DistanceOrder Coord Distance}.
Context {OR : ObjectRanking Coord}.
Context {SS : StdSort}.

Abbreviation Obj := (Object Coord).

(** Modelled from the spec: the members are declared in the header.  The
    spec has a mapping from [ObjectID] to the tracked object and its
    bookkeeping, and an ordered identity list; the source keeps four maps
    ([m_active_objects], [m_uprooted], [m_disappeared], [m_framecount]), which
    it walks with [begin()], [end()] and [itr->first] like the [std::map] of
    [update], a vector [m_id_list] and the counter [m_next_id]. *)
Record ObjectTracker := mkTracker {
  m_dist_tol : Distance;
  m_max_dissapeared_frms : nat;
  m_min_framecount : nat;
  m_active_objects : OMap.t Obj;
  m_uprooted : OMap.t bool;
  m_disappeared : OMap.t nat;
  m_framecount : OMap.t nat;
  m_id_list : list ObjectID;
  m_next_id : ObjectID
}.

Definition set_active_objects (f : OMap.t Obj -> OMap.t Obj) (s : ObjectTracker) :=
  mkTracker (m_dist_tol s) (m_max_dissapeared_frms s) (m_min_framecount s)
    (f (m_active_objects s)) (m_uprooted s) (m_disappeared s)
    (m_framecount s) (m_id_list s) (m_next_id s).

Definition set_uprooted (f : OMap.t bool -> OMap.t bool) (s : ObjectTracker) :=
  mkTracker (m_dist_tol s) (m_max_dissapeared_frms s) (m_min_framecount s)
    (m_active_objects s) (f (m_uprooted s)) (m_disappeared s)
    (m_framecount s) (m_id_list s) (m_next_id s).

Definition set_disappeared (f : OMap.t nat -> OMap.t nat) (s : ObjectTracker) :=
  mkTracker (m_dist_tol s) (m_max_dissapeared_frms s) (m_min_framecount s)
    (m_active_objects s) (m_uprooted s) (f (m_disappeared s))
    (m_framecount s) (m_id_list s) (m_next_id s).

Definition set_framecount (f : OMap.t nat -> OMap.t nat) (s : ObjectTracker) :=
  mkTracker (m_dist_tol s) (m_max_dissapeared_frms s) (m_min_framecount s)
    (m_active_objects s) (m_uprooted s) (m_disappeared s)
    (f (m_framecount s)) (m_id_list s) (m_next_id s).

Definition set_id_list (f : list ObjectID -> list ObjectID) (s : ObjectTracker) :=
  mkTracker (m_dist_tol s) (m_max_dissapeared_frms s) (m_min_framecount s)
    (m_active_objects s) (m_uprooted s) (m_disappeared s)
    (m_framecount s) (f (m_id_list s)) (m_next_id s).

Definition set_next_id (f : ObjectID -> ObjectID) (s : ObjectTracker) :=
  mkTracker (m_dist_tol s) (m_max_dissapeared_frms s) (m_min_framecount s)
    (m_active_objects s) (m_uprooted s) (m_disappeared s)
    (m_framecount s) (m_id_list s) (f (m_next_id s)).

(** The constructor: every container empty.  The first id is declared in
    the header; it is left open here. *)
Definition ObjectTracker_new (distTol : Distance)
    (max_dissapeared_frms min_valid_framecount : nat) (first_id : ObjectID) :=
  mkTracker distTol max_dissapeared_frms min_valid_framecount
    (OMap.empty Obj) (OMap.empty bool) (OMap.empty nat) (OMap.empty nat)
    [] first_id.

(** *** The monad: state, and no result on undefined behaviour *)

Definition M (A : Type) := ObjectTracker -> option (A * ObjectTracker).

Definition ret {A} (a : A) : M A := fun s => Some (a, s).

Definition bind {A B} (c : M A) (k : A -> M B) : M B :=
  fun s => match c s with
           | Some (a, s') => k a s'
           | None => None
           end.

Definition gets {A} (f : ObjectTracker -> A) : M A := fun s => Some (f s, s).

Definition modify (f : ObjectTracker -> ObjectTracker) : M unit :=
  fun s => Some (tt, f s).

(** [v[i]] on a vector *)
Definition vec_at {A} (v : list A) (i : nat) : M A :=
  fun s => match nth_error v i with
           | Some a => Some (a, s)
           | None => None
           end.

Notation "v <- c1 ;; c2" := (bind c1 (fun v => c2))
  (at level 61, c1 at next level, right associativity).
Notation "c1 ;; c2" := (bind c1 (fun _ => c2))
  (at level 61, right associativity).

Fixpoint for_each {A} (l : list A) (body : A -> M unit) : M unit :=
  match l with
  | [] => ret tt
  | a :: r => body a ;; for_each r body
  end.

Fixpoint map_loop {A B} (l : list A) (body : A -> M B) : M (list B) :=
  match l with
  | [] => ret []
  | a :: r => b <- body a ;; bs <- map_loop r body ;; ret (b :: bs)
  end.

Fixpoint fold_loop {A B} (l : list A) (body : B -> A -> M B) (b : B) : M B :=
  match l with
  | [] => ret b
  | a :: r => b' <- body b a ;; fold_loop r body b'
  end.

(** *** [operator[]] on the four maps

    Reading an absent key adds a value-initialised entry. *)

Definition default_Object : Obj :=
  mkObject coord_zero coord_zero coord_zero coord_zero.

Definition read_active (id : ObjectID) : M Obj :=
  fun s => match OMap.find id (m_active_objects s) with
           | Some o => Some (o, s)
           | None => Some (default_Object,
                           set_active_objects (OMap.insert id default_Object) s)
           end.

Definition read_uprooted (id : ObjectID) : M bool :=
  fun s => match OMap.find id (m_uprooted s) with
           | Some b => Some (b, s)
           | None => Some (false, set_uprooted (OMap.insert id false) s)
           end.

Definition read_disappeared (id : ObjectID) : M nat :=
  fun s => match OMap.find id (m_disappeared s) with
           | Some c => Some (c, s)
           | None => Some (0, set_disappeared (OMap.insert id 0) s)
           end.

Definition read_framecount (id : ObjectID) : M nat :=
  fun s => match OMap.find id (m_framecount s) with
           | Some c => Some (c, s)
           | None => Some (0, set_framecount (OMap.insert id 0) s)
           end.

Definition write_active (id : ObjectID) (o : Obj) : M unit :=
  modify (set_active_objects (OMap.insert id o)).

Definition write_uprooted (id : ObjectID) (b : bool) : M unit :=
  modify (set_uprooted (OMap.insert id b)).

Definition write_disappeared (id : ObjectID) (c : nat) : M unit :=
  modify (set_disappeared (OMap.insert id c)).

Definition write_framecount (id : ObjectID) (c : nat) : M unit :=
  modify (set_framecount (OMap.insert id c)).

(** [m_disappeared[id]++] and [m_framecount[id]++] *)
Definition incr_disappeared (id : ObjectID) : M unit :=
  c <- read_disappeared id ;; write_disappeared id (S c).

Definition incr_framecount (id : ObjectID) : M unit :=
  c <- read_framecount id ;; write_framecount id (S c).

(** *** euclidean_distance *)

Definition euclidean_distance (a b : Obj) : Distance :=
  let delt_x := dist_sub (to_Distance (x a)) (to_Distance (x b)) in
  let delt_y := dist_sub (to_Distance (y a)) (to_Distance (y b)) in
  let delt_z := dist_sub (to_Distance (z a)) (to_Distance (z b)) in
  dist_sqrt (dist_add (dist_add (dist_mul delt_x delt_x)
                                (dist_mul delt_y delt_y))
                      (dist_mul delt_z delt_z)).

(** *** active_objects, object_count, topValid, top *)

Definition active_objects : M (list Obj) :=
  ids <- gets m_id_list ;;
  map_loop ids read_active.

Definition object_count : M nat :=
  gets (fun s => OMap.size (m_active_objects s)).

(** The scan of [topValid] over the entries of [m_active_objects]; the id
    of the entry it stops at is kept next to the object. *)
Fixpoint topValid_scan (entries : list (ObjectID * Obj))
    : M (option (ObjectID * Obj)) :=
  match entries with
  | [] => ret None
  | (id, o) :: r =>
      fc <- read_framecount id ;;
      min_fc <- gets m_min_framecount ;;
      if min_fc <=? fc then
        up <- read_uprooted id ;;
        if negb up then
          write_uprooted id true ;;
          ret (Some (id, o))
        else topValid_scan r
      else topValid_scan r
  end.

Definition topValid_entry : M (option (ObjectID * Obj)) :=
  c <- object_count ;;
  if c =? 0 then ret None
  else
    entries <- gets m_active_objects ;;
    topValid_scan entries.

Definition topValid : M (option Obj) :=
  r <- topValid_entry ;;
  ret (option_map snd r).

Definition top : M (option Obj) :=
  c <- object_count ;;
  if c =? 0 then ret None
  else
    ids <- gets m_id_list ;;
    id <- vec_at ids 0 ;;
    o <- read_active id ;;
    ret (Some o).

(** *** register_object, deregister_object, cleanup_dissapeared

    The [ROS_INFO] and [ROS_DEBUG] lines write to the log only and are left
    out. *)

(** The [while] loop of the insertion: how far [id_itr] advances. *)
Fixpoint rank_position (ids : list ObjectID) (obj : Obj) : M nat :=
  match ids with
  | [] => ret 0
  | id :: r =>
      o <- read_active id ;;
      if Object_gt o obj then
        p <- rank_position r obj ;;
        ret (S p)
      else ret 0
  end.

Definition vec_insert {A} (p : nat) (a : A) (v : list A) : list A :=
  firstn p v ++ a :: skipn p v.

Definition register_object (obj : Obj) : M ObjectID :=
  ids <- gets m_id_list ;;
  p <- rank_position ids obj ;;
  next <- gets m_next_id ;;
  modify (set_id_list (vec_insert p next)) ;;
  write_active next obj ;;
  write_uprooted next false ;;
  write_disappeared next 0 ;;
  write_framecount next 1 ;;
  modify (set_next_id S) ;;
  ret next.

(** Erase the first occurrence of [id] in the vector. *)
Fixpoint vec_erase_first (id : ObjectID) (v : list ObjectID) : list ObjectID :=
  match v with
  | [] => []
  | id' :: r => if id' =? id then r else id' :: vec_erase_first id r
  end.

Definition deregister_object (id : ObjectID) : M unit :=
  modify (set_active_objects (OMap.erase id)) ;;
  modify (set_uprooted (OMap.erase id)) ;;
  modify (set_disappeared (OMap.erase id)) ;;
  modify (set_framecount (OMap.erase id)) ;;
  modify (set_id_list (vec_erase_first id)).

(** [itr++] when the element under [itr] has just been erased.
    [std::map::erase] invalidates the iterators to the erased element, and
    what incrementing one does is not defined. *)
Definition advance_erased {A} : M A := fun _ => None.

(** The loop of [cleanup_dissapeared] from the entry under [itr] on.
    [deregister_object] erases that very entry from [m_disappeared], and
    the loop then increments [itr]. *)
Fixpoint cleanup_loop (entries : list (ObjectID * nat)) : M unit :=
  match entries with
  | [] => ret tt
  | e :: r =>
      max_frms <- gets m_max_dissapeared_frms ;;
      if max_frms <? snd e then
        deregister_object (fst e) ;;
        advance_erased
      else cleanup_loop r
  end.

Definition cleanup_dissapeared : M unit :=
  entries <- gets m_disappeared ;;
  cleanup_loop entries.

(** *** update *)

Definition mat_at (D : list (list Distance)) (i j : nat) : Distance :=
  nth j (nth i D []) dist_zero.

Definition ids_at (S : list (list nat)) (i j : nat) : nat :=
  nth j (nth i S []) 0.

(** 1. the distance matrix *)
Definition dist_matrix (m : nat) (new_objs : list Obj)
    : M (list (list Distance)) :=
  map_loop (seq 0 m) (fun i =>
    map_loop new_objs (fun new_obj =>
      ids <- gets m_id_list ;;
      id <- vec_at ids i ;;
      crnt_obj <- read_active id ;;
      ret (euclidean_distance crnt_obj new_obj))).

(** 2. the columns of each row sorted by distance, then the rows sorted by
    their smallest distance *)
Definition sorted_ids (D : list (list Distance)) (m n : nat) : list (list nat) :=
  map (fun i =>
         std_sort (fun a b => dist_lt (mat_at D i a) (mat_at D i b)) (seq 0 n))
      (seq 0 m).

Definition active_obj_ids (D : list (list Distance)) (S : list (list nat))
    (m : nat) : list nat :=
  std_sort (fun a b => dist_lt (mat_at D a (ids_at S a 0))
                               (mat_at D b (ids_at S b 0)))
           (seq 0 m).

(** 3. the inner loop over one row: the first column that is not used and
    is closer than the tolerance *)
Definition find_update (D : list (list Distance)) (S : list (list nat))
    (tol : Distance) (used_cols : OMap.t nat) (row : nat) : option nat :=
  List.find (fun c => (OMap.count c used_cols =? 0)
                      && dist_lt (mat_at D row c) tol)
            (nth row S []).

Definition match_row (D : list (list Distance)) (S : list (list nat))
    (new_objs : list Obj) (used_cols : OMap.t nat) (row : nat)
    : M (OMap.t nat) :=
  tol <- gets m_dist_tol ;;
  ids <- gets m_id_list ;;
  match find_update D S tol used_cols row with
  | Some c =>
      id <- vec_at ids row ;;
      new_obj <- vec_at new_objs c ;;
      write_active id new_obj ;;
      incr_framecount id ;;
      ret (OMap.insert c 1 used_cols)
  | None =>
      id <- vec_at ids row ;;
      incr_disappeared id ;;
      write_framecount id 0 ;;
      ret used_cols
  end.

Definition register_unused (S : list (list nat)) (new_objs : list Obj)
    (used_cols : OMap.t nat) : M unit :=
  for_each (nth 0 S [])
    (fun c => if OMap.count c used_cols =? 0 then
                new_obj <- vec_at new_objs c ;;
                register_object new_obj ;;
                ret tt
              else ret tt).

Definition update_match (new_objs : list Obj) : M unit :=
  m <- object_count ;;
  let n := length new_objs in
  D <- dist_matrix m new_objs ;;
  let S := sorted_ids D m n in
  let rows := active_obj_ids D S m in
  used_cols <- fold_loop rows (match_row D S new_objs) (OMap.empty nat) ;;
  register_unused S new_objs used_cols.

Definition update (new_objs : list Obj) : M unit :=
  (if length new_objs =? 0 then
     entries <- gets m_disappeared ;;
     for_each entries
       (fun e => incr_disappeared (fst e) ;; write_framecount (fst e) 0)
   else
     m <- object_count ;;
     if m =? 0 then
       for_each new_objs (fun o => register_object o ;; ret tt)
     else update_match new_objs) ;;
  cleanup_dissapeared.

End Tracker.

Unset Implicit Arguments.

(** * The vocabulary of the statements

    Views of the state, the representation invariant, the states that the
    pieces of [update] leave behind, the correspondence that the matching
    computes, and calls, runs and reachable states. *)

Section Vocabulary.
Context {Coord Distance : Type}.
Context `{DO : DistanceOrder Coord Distance}.
Context {OR : ObjectRanking Coord}.
Context {SS : StdSort}.

Local Abbreviation Obj := (Object Coord).
Local Abbreviation Tracker := (@ObjectTracker Coord Distance).

Implicit Types (s : Tracker) (id : ObjectID) (obj : Obj) (objs L : list Obj).

(** ** Views of the state *)

Definition tracked s : list ObjectID := OMap.keys (m_active_objects s).
Definition obj_of s id := OMap.find id (m_active_objects s).
Definition uprooted_of s id := OMap.find id (m_uprooted s).
Definition disappeared_of s id := OMap.find id (m_disappeared s).
Definition framecount_of s id := OMap.find id (m_framecount s).

(** The representation invariant: the four maps hold the same keys in
    ascending order, the id vector lists exactly these keys, and every key
    is below the next id. *)
Record WF s : Prop := {
  wf_ordered : OMap.ordered (tracked s);
  wf_uprooted : OMap.keys (m_uprooted s) = tracked s;
  wf_disappeared : OMap.keys (m_disappeared s) = tracked s;
  wf_framecount : OMap.keys (m_framecount s) = tracked s;
  wf_id_list : Permutation (m_id_list s) (tracked s);
  wf_next_id : Forall (fun k => k < m_next_id s) (tracked s)
}.

(** Same configuration *)
Definition same_config s s' : Prop :=
  m_dist_tol s' = m_dist_tol s /\
  m_max_dissapeared_frms s' = m_max_dissapeared_frms s /\
  m_min_framecount s' = m_min_framecount s.

(** The four entries of [id] agree in [s] and [s']. *)
Definition same_at id s s' : Prop :=
  obj_of s' id = obj_of s id /\
  uprooted_of s' id = uprooted_of s id /\
  disappeared_of s' id = disappeared_of s id /\
  framecount_of s' id = framecount_of s id.

(** ** The states the pieces of [update] leave behind *)

(** The object a tracked id stands for ([default_Object] otherwise). *)
Definition object_at s id : Obj :=
  match obj_of s id with Some o => o | None => default_Object end.

(** How far the insertion of [register_object] advances in the id vector. *)
Fixpoint rank_pos s (ids : list ObjectID) obj : nat :=
  match ids with
  | [] => 0
  | id :: r => if Object_gt (object_at s id) obj then S (rank_pos s r obj) else 0
  end.

(** The state [register_object] leaves behind. *)
Definition registered obj s : Tracker :=
  let next := m_next_id s in
  mkTracker (m_dist_tol s) (m_max_dissapeared_frms s) (m_min_framecount s)
    (OMap.insert next obj (m_active_objects s))
    (OMap.insert next false (m_uprooted s))
    (OMap.insert next 0 (m_disappeared s))
    (OMap.insert next 1 (m_framecount s))
    (vec_insert (rank_pos s (m_id_list s) obj) next (m_id_list s))
    (S next).

(** The ids that [cleanup_dissapeared] finds above the limit. *)
Definition expired_ids s : list ObjectID :=
  map fst (filter (fun e => m_max_dissapeared_frms s <? snd e) (m_disappeared s)).

(** No counter above the limit. *)
Definition bounded s : Prop :=
  forall id c, disappeared_of s id = Some c -> c <= m_max_dissapeared_frms s.

(** The parts of the state that matching never touches. *)
Record same_shape s s' : Prop := {
  shape_config : same_config s s';
  shape_id_list : m_id_list s' = m_id_list s;
  shape_next_id : m_next_id s' = m_next_id s;
  shape_tracked : tracked s' = tracked s;
  shape_uprooted : m_uprooted s' = m_uprooted s
}.

(** [id] has been missed, or matched with [o], between [s] and [s']. *)
Definition missed_at id s s' : Prop :=
  obj_of s' id = obj_of s id /\
  disappeared_of s' id = option_map S (disappeared_of s id) /\
  framecount_of s' id = Some 0.

Definition matched_at id (o : Obj) s s' : Prop :=
  obj_of s' id = Some o /\
  disappeared_of s' id = disappeared_of s id /\
  framecount_of s' id = option_map S (framecount_of s id).

(** The two branches at the end of the loop body of step 3. *)
Definition missed id s : Tracker :=
  let c := match disappeared_of s id with Some c => c | None => 0 end in
  set_framecount (OMap.insert id 0) (set_disappeared (OMap.insert id (S c)) s).

Definition matched id (o : Obj) s : Tracker :=
  let c := match framecount_of s id with Some c => c | None => 0 end in
  set_framecount (OMap.insert id (S c)) (set_active_objects (OMap.insert id o) s).

(** Registering a list of detections, one after the other. *)
Definition register_all L s : Tracker :=
  fold_left (fun st o => registered o st) L s.

(** Objects in the order of the id vector. *)
Definition objects_of s : list Obj := map (object_at s) (m_id_list s).

(** ** The correspondence computed by the loop of step 3 *)

(** The object of row [i]: the one of the [i]-th id of the vector. *)
Definition row_object s (i : nat) : Obj :=
  match nth_error (m_id_list s) i with
  | Some id => object_at s id
  | None => default_Object
  end.

(** The distance matrix of step 1. *)
Definition dist_matrix_of s objs : list (list Distance) :=
  map (fun i => map (fun o => euclidean_distance (row_object s i) o) objs)
      (seq 0 (OMap.size (m_active_objects s))).

(** [used_cols] after a row with result [r]. *)
Definition claim (used_cols : OMap.t nat) (r : option nat) : OMap.t nat :=
  match r with
  | Some c => OMap.insert c 1 used_cols
  | None => used_cols
  end.

(** For each row in processing order: the row, the columns used before it
    and the column it takes, if any. *)
Fixpoint matching (D : list (list Distance)) (S : list (list nat))
    (tol : Distance) (rows : list nat) (used_cols : OMap.t nat)
    : list (nat * OMap.t nat * option nat) :=
  match rows with
  | [] => []
  | i :: r =>
      let res := find_update D S tol used_cols i in
      (i, used_cols, res) :: matching D S tol r (claim used_cols res)
  end.

(** [used_cols] after the rows. *)
Fixpoint used_after (D : list (list Distance)) (S : list (list nat))
    (tol : Distance) (rows : list nat) (used_cols : OMap.t nat) : OMap.t nat :=
  match rows with
  | [] => used_cols
  | i :: r => used_after D S tol r (claim used_cols (find_update D S tol used_cols i))
  end.

(** What the row of [id] leaves in the state, by its result. *)
Definition row_post objs id (r : option nat) s s' : Prop :=
  match r with
  | Some c => exists o, nth_error objs c = Some o /\ matched_at id o s s'
  | None => missed_at id s s'
  end.

(** The detections that no row has taken, in the order of a ranking. *)
Definition new_objects (cols : list nat) objs (used_cols : OMap.t nat) : list Obj :=
  map (fun c => nth c objs default_Object)
      (filter (fun c => OMap.count c used_cols =? 0) cols).

(** The identities that [s'] holds beyond those of [s] are new. *)
Definition new_between id s s' : Prop := m_next_id s <= id < m_next_id s'.

(** [id] holds one of the detections, with the counters of a new identity. *)
Definition fresh_at objs id s' : Prop :=
  (exists o, In o objs /\ obj_of s' id = Some o) /\
  uprooted_of s' id = Some false /\
  disappeared_of s' id = Some 0 /\
  framecount_of s' id = Some 1.

(** The state [s2] that [update] has built from [s] when it reaches the
    cleanup. *)
Record matched_or_missed objs s s2 : Prop := {
  mm_WF : WF s2;
  mm_config : same_config s s2;
  mm_next : m_next_id s <= m_next_id s2;
  mm_tracked : forall id,
      In id (tracked s2) <-> In id (tracked s) \/ new_between id s s2;
  mm_old : forall id, In id (tracked s) ->
      uprooted_of s2 id = uprooted_of s id /\
      (missed_at id s s2 \/ exists o, In o objs /\ matched_at id o s s2);
  mm_new : forall id, new_between id s s2 -> fresh_at objs id s2
}.

(** ** topValid *)

(** The test of [topValid]: enough consecutive frames and not uprooted. *)
Definition eligible s id : bool :=
  match framecount_of s id, uprooted_of s id with
  | Some fc, Some up => (m_min_framecount s <=? fc) && negb up
  | _, _ => false
  end.

(** The state after [m_uprooted[id] = true]. *)
Definition claimed id s : Tracker := set_uprooted (OMap.insert id true) s.

(** The entry at which the scan of [topValid] stops. *)
Definition first_eligible s : option (ObjectID * Obj) :=
  List.find (fun e => eligible s (fst e)) (m_active_objects s).

(** ** A call of [update] that returns *)

(** What a frame does to an identity that was tracked before it. *)
Inductive frame_outcome objs s s' id : Prop :=
| outcome_matched o :
    In o objs -> matched_at id o s s' -> frame_outcome objs s s' id
| outcome_missed :
    missed_at id s s' -> frame_outcome objs s s' id.

Record frame_step objs s s' : Prop := {
  fs_WF : WF s';
  fs_bounded : bounded s';
  fs_config : same_config s s';
  fs_next : m_next_id s <= m_next_id s';
  fs_tracked : forall id,
      In id (tracked s') <-> In id (tracked s) \/ new_between id s s';
  fs_uprooted : forall id,
      In id (tracked s) -> uprooted_of s' id = uprooted_of s id;
  fs_old : forall id, In id (tracked s) -> frame_outcome objs s s' id;
  fs_new : forall id, new_between id s s' -> fresh_at objs id s'
}.

(** ** Calls, runs and reachable states *)

(** The public methods. *)
Inductive call : Type :=
| Update (new_objs : list Obj)
| TopValid
| Top
| ActiveObjects
| ObjectCount.

(** One call; the value kept is the id that [topValid] hands out. *)
Definition exec (c : call) : M (option ObjectID) :=
  match c with
  | Update new_objs => bind (update new_objs) (fun _ => ret None)
  | TopValid => bind topValid_entry (fun r => ret (option_map fst r))
  | Top => bind top (fun _ => ret None)
  | ActiveObjects => bind active_objects (fun _ => ret None)
  | ObjectCount => bind object_count (fun _ => ret None)
  end.

(** A sequence of calls; the ids handed out by [topValid], in order. *)
Fixpoint run (cs : list call) : M (list ObjectID) :=
  match cs with
  | [] => ret []
  | c :: r =>
      bind (exec c) (fun o =>
      bind (run r) (fun l =>
      ret (match o with Some id => id :: l | None => l end)))
  end.

(** The states of a tracker: what the constructor builds, and what a call
    returns from such a state. *)
Inductive reachable : Tracker -> Prop :=
| reach_new tol mx mn first :
    reachable (ObjectTracker_new tol mx mn first)
| reach_call s c r s' :
    reachable s -> exec c s = Some (r, s') -> reachable s'.

(** How a call may change the registry. *)
Record evolves s s' : Prop := {
  ev_config : same_config s s';
  ev_next : m_next_id s <= m_next_id s';
  ev_tracked : forall id,
      In id (tracked s') -> In id (tracked s) \/ m_next_id s <= id;
  ev_uprooted : forall id,
      In id (tracked s) -> In id (tracked s') ->
      uprooted_of s id = Some true -> uprooted_of s' id = Some true
}.

(** The identities [topValid] would hand out, in the order of its scan. *)
Definition eligible_ids s : list ObjectID :=
  map fst (filter (fun e => eligible s (fst e)) (m_active_objects s)).

(** An id that [topValid] cannot hand out any more: it has been given out
    of the counter, and is uprooted for as long as it is tracked. *)
Definition spent s id : Prop :=
  id < m_next_id s /\ (In id (tracked s) -> uprooted_of s id = Some true).

(** After an [update], the frame count of a tracked identity is 0 exactly
    when the call missed it. *)
Definition missed_in id s' : bool :=
  match framecount_of s' id with
  | Some 0 => true
  | _ => false
  end.

(** The frames of a run that miss [id]. *)
Definition miss_of (c : call) id s' : nat :=
  match c with
  | Update _ => if missed_in id s' then 1 else 0
  | _ => 0
  end.

Fixpoint missed_frames id (cs : list call) s : nat :=
  match cs with
  | [] => 0
  | c :: r =>
      match exec c s with
      | Some (_, s1) => miss_of c id s1 + missed_frames id r s1
      | None => 0
      end
  end.

End Vocabulary.

(** * Facts about the ordered map *)

Module OMapFacts.
Import OMap.

Section Facts.
Variable V : Type.
Implicit Types (m : OMap.t V) (k : nat) (v : V).

Lemma find_insert_eq k v m : find k (insert k v m) = Some v.
Proof.
  induction m as [|[k' v'] r IH]; simpl.
  - now rewrite Nat.eqb_refl.
  - destruct (k <? k') eqn:Hlt; simpl.
    + now rewrite Nat.eqb_refl.
    + destruct (k =? k') eqn:Heq; simpl.
      * now rewrite Nat.eqb_refl.
      * now rewrite Heq.
Qed.

Lemma find_insert_neq k k' v m :
  k' <> k -> find k' (insert k v m) = find k' m.
Proof.
  intros Hne. induction m as [|[k0 v0] r IH]; simpl.
  - apply Nat.eqb_neq in Hne. now rewrite Hne.
  - destruct (k <? k0) eqn:Hlt; simpl.
    + apply Nat.eqb_neq in Hne. now rewrite Hne.
    + destruct (k =? k0) eqn:Heq; simpl.
      * apply Nat.eqb_eq in Heq. subst k0.
        apply Nat.eqb_neq in Hne. now rewrite Hne.
      * now rewrite IH.
Qed.

Lemma keys_insert k v m : keys (insert k v m) = kinsert k (keys m).
Proof.
  induction m as [|[k' v'] r IH]; simpl; auto.
  destruct (k <? k'); simpl; auto.
  destruct (k =? k'); simpl; auto.
  now rewrite <- IH.
Qed.

Lemma find_None k m : find k m = None <-> ~ In k (keys m).
Proof.
  induction m as [|[k' v'] r IH]; simpl.
  - tauto.
  - destruct (k =? k') eqn:Heq.
    + apply Nat.eqb_eq in Heq. split; [discriminate | intros H; exfalso; auto].
    + apply Nat.eqb_neq in Heq. rewrite IH. split; intros H.
      * intros [E | E]; auto.
      * intros E. apply H. now right.
Qed.

Lemma find_Some_In k m : In k (keys m) -> exists v, find k m = Some v.
Proof.
  intros Hin. destruct (find k m) eqn:E; eauto.
  apply find_None in E. contradiction.
Qed.

Lemma find_Some_keys k v m : find k m = Some v -> In k (keys m).
Proof.
  intros E. destruct (in_dec Nat.eq_dec k (keys m)) as [H | H]; auto.
  apply find_None in H. congruence.
Qed.

Lemma find_In_entry k v m : find k m = Some v -> In (k, v) m.
Proof.
  induction m as [|[k' v'] r IH]; simpl; [discriminate|].
  destruct (k =? k') eqn:Heq.
  - apply Nat.eqb_eq in Heq. intros [= <-]. subst. now left.
  - intros E. right. auto.
Qed.

Lemma count_zero k m : (count k m =? 0) = true <-> ~ In k (keys m).
Proof.
  unfold count. rewrite <- find_None.
  destruct (find k m); simpl; split; congruence.
Qed.
End Facts.

Lemma kinsert_In x k ks : In x (kinsert k ks) <-> x = k \/ In x ks.
Proof.
  induction ks as [|k' r IH]; simpl.
  - intuition.
  - destruct (k <? k') eqn:Hlt; simpl; [intuition|].
    destruct (k =? k') eqn:Heq; simpl.
    + apply Nat.eqb_eq in Heq. subst. intuition.
    + rewrite IH. intuition.
Qed.

Lemma ordered_NoDup ks : ordered ks -> NoDup ks.
Proof.
  induction 1 as [|k r Hs IH Hall]; constructor; auto.
  intros Hin. rewrite Forall_forall in Hall. specialize (Hall _ Hin). lia.
Qed.

Lemma kinsert_ordered k ks : ordered ks -> ordered (kinsert k ks).
Proof.
  induction 1 as [|k' r Hs IH Hall]; simpl.
  - repeat constructor.
  - destruct (k <? k') eqn:Hlt.
    + apply Nat.ltb_lt in Hlt. constructor.
      * now constructor.
      * constructor; auto. eapply Forall_impl; [|exact Hall]. simpl. lia.
    + apply Nat.ltb_ge in Hlt. destruct (k =? k') eqn:Heq.
      * apply Nat.eqb_eq in Heq. subst. now constructor.
      * apply Nat.eqb_neq in Heq. constructor; auto.
        apply Forall_forall. intros y Hy. apply kinsert_In in Hy.
        destruct Hy as [-> | Hy]; [lia|].
        rewrite Forall_forall in Hall. auto.
Qed.

Lemma kinsert_present k ks : ordered ks -> In k ks -> kinsert k ks = ks.
Proof.
  induction 1 as [|k' r Hs IH Hall]; simpl; [tauto|].
  intros [-> | Hin].
  - now rewrite Nat.ltb_irrefl, Nat.eqb_refl.
  - rewrite Forall_forall in Hall. specialize (Hall _ Hin).
    destruct (k <? k') eqn:Hlt; [apply Nat.ltb_lt in Hlt; lia|].
    destruct (k =? k') eqn:Heq; [apply Nat.eqb_eq in Heq; lia|].
    now rewrite IH.
Qed.

Lemma kinsert_above k ks :
  Forall (fun k' => k' < k) ks -> kinsert k ks = ks ++ [k].
Proof.
  induction 1 as [|k' r Hlt Hall IH]; simpl; auto.
  destruct (k <? k') eqn:E; [apply Nat.ltb_lt in E; lia|].
  destruct (k =? k') eqn:E'; [apply Nat.eqb_eq in E'; lia|].
  now rewrite IH.
Qed.

End OMapFacts.

(** * Facts about the tracker *)

Section TrackerFacts.
Context {Coord Distance : Type}.
Context `{DO : DistanceOrder Coord Distance}.
Context {OR : ObjectRanking Coord}.
Context {SS : StdSort}.

Local Abbreviation Obj := (Object Coord).
Local Abbreviation Tracker := (@ObjectTracker Coord Distance).

Implicit Types (s : Tracker) (id : ObjectID) (obj : Obj).

Lemma same_at_refl id s : same_at id s s.
Proof. repeat split. Qed.

Lemma same_at_trans id s1 s2 s3 :
  same_at id s1 s2 -> same_at id s2 s3 -> same_at id s1 s3.
Proof.
  unfold same_at. intros (A1 & A2 & A3 & A4) (B1 & B2 & B3 & B4).
  repeat split; congruence.
Qed.

Lemma same_config_refl s : same_config s s.
Proof. repeat split. Qed.

Lemma same_config_trans s1 s2 s3 :
  same_config s1 s2 -> same_config s2 s3 -> same_config s1 s3.
Proof.
  unfold same_config. intros (A1 & A2 & A3) (B1 & B2 & B3).
  repeat split; congruence.
Qed.

Lemma WF_new (tol : Distance) mx mn first :
  WF (ObjectTracker_new tol mx mn first : Tracker).
Proof. split; simpl; auto; constructor. Qed.

Lemma WF_length s : WF s -> length (m_id_list s) = OMap.size (m_active_objects s).
Proof.
  intros W. rewrite (Permutation_length (wf_id_list _ W)).
  unfold tracked, OMap.keys, OMap.size. apply length_map.
Qed.

Lemma WF_NoDup_ids s : WF s -> NoDup (m_id_list s).
Proof.
  intros W. eapply Permutation_NoDup.
  - apply Permutation_sym, (wf_id_list _ W).
  - apply OMapFacts.ordered_NoDup, (wf_ordered _ W).
Qed.

Lemma WF_id_tracked s id : WF s -> In id (m_id_list s) <-> In id (tracked s).
Proof.
  intros W. split; apply Permutation_in;
    [apply (wf_id_list _ W) | apply Permutation_sym, (wf_id_list _ W)].
Qed.

Lemma tracked_obj s id : In id (tracked s) -> exists o, obj_of s id = Some o.
Proof. apply OMapFacts.find_Some_In. Qed.

Lemma tracked_uprooted s id :
  WF s -> In id (tracked s) -> exists b, uprooted_of s id = Some b.
Proof.
  intros W Hin. apply OMapFacts.find_Some_In. now rewrite (wf_uprooted _ W).
Qed.

Lemma tracked_disappeared s id :
  WF s -> In id (tracked s) -> exists c, disappeared_of s id = Some c.
Proof.
  intros W Hin. apply OMapFacts.find_Some_In. now rewrite (wf_disappeared _ W).
Qed.

Lemma tracked_framecount s id :
  WF s -> In id (tracked s) -> exists c, framecount_of s id = Some c.
Proof.
  intros W Hin. apply OMapFacts.find_Some_In. now rewrite (wf_framecount _ W).
Qed.

Lemma obj_tracked s id o : obj_of s id = Some o -> In id (tracked s).
Proof. apply OMapFacts.find_Some_keys. Qed.

(** ** Loops that leave the state alone *)

Lemma map_loop_pure A B (l : list A) (body : A -> M B) (f : A -> B) s :
  (forall a, In a l -> body a s = Some (f a, s)) ->
  map_loop l body s = Some (map f l, s).
Proof.
  induction l as [|a r IH]; simpl; intros Hb; [reflexivity|].
  unfold bind. rewrite (Hb a (or_introl eq_refl)).
  rewrite IH by (intros; apply Hb; now right). reflexivity.
Qed.

(** ** Reads through [operator[]] *)

Lemma read_active_tracked s id o :
  obj_of s id = Some o -> read_active id s = Some (o, s).
Proof. unfold read_active, obj_of. now intros ->. Qed.

Lemma read_uprooted_tracked s id b :
  uprooted_of s id = Some b -> read_uprooted id s = Some (b, s).
Proof. unfold read_uprooted, uprooted_of. now intros ->. Qed.

Lemma read_disappeared_tracked s id c :
  disappeared_of s id = Some c -> read_disappeared id s = Some (c, s).
Proof. unfold read_disappeared, disappeared_of. now intros ->. Qed.

Lemma read_framecount_tracked s id c :
  framecount_of s id = Some c -> read_framecount id s = Some (c, s).
Proof. unfold read_framecount, framecount_of. now intros ->. Qed.

Lemma read_active_object_at s id :
  In id (tracked s) -> read_active id s = Some (object_at s id, s).
Proof.
  intros Hin. destruct (tracked_obj s id Hin) as [o Ho].
  unfold object_at. rewrite Ho. now apply read_active_tracked.
Qed.

(** ** register_object *)

Lemma rank_position_tracked s ids obj :
  (forall id, In id ids -> In id (tracked s)) ->
  rank_position ids obj s = Some (rank_pos s ids obj, s).
Proof.
  induction ids as [|id r IH]; simpl; intros Hin; [reflexivity|].
  unfold bind. rewrite read_active_object_at by auto.
  destruct (Object_gt _ _); [|reflexivity].
  rewrite IH by auto. reflexivity.
Qed.

Lemma register_object_WF s obj :
  WF s -> register_object obj s = Some (m_next_id s, registered obj s).
Proof.
  intros W. unfold register_object, bind, gets. simpl.
  rewrite rank_position_tracked by (intros; now apply WF_id_tracked).
  reflexivity.
Qed.

Lemma vec_insert_perm A p (a : A) v : Permutation (vec_insert p a v) (a :: v).
Proof.
  unfold vec_insert. rewrite <- (firstn_skipn p v) at 3.
  apply Permutation_sym, Permutation_middle.
Qed.

Lemma tracked_registered s obj :
  WF s -> tracked (registered obj s) = tracked s ++ [m_next_id s].
Proof.
  intros W. unfold tracked, registered. simpl.
  rewrite OMapFacts.keys_insert. apply OMapFacts.kinsert_above, (wf_next_id _ W).
Qed.

Lemma registered_WF s obj : WF s -> WF (registered obj s).
Proof.
  intros W. pose proof (tracked_registered s obj W) as Ht.
  assert (Hk : OMap.kinsert (m_next_id s) (tracked s) = tracked s ++ [m_next_id s])
    by apply OMapFacts.kinsert_above, (wf_next_id _ W).
  split.
  - rewrite Ht, <- Hk. apply OMapFacts.kinsert_ordered, (wf_ordered _ W).
  - rewrite Ht. simpl. now rewrite OMapFacts.keys_insert, (wf_uprooted _ W).
  - rewrite Ht. simpl. now rewrite OMapFacts.keys_insert, (wf_disappeared _ W).
  - rewrite Ht. simpl. now rewrite OMapFacts.keys_insert, (wf_framecount _ W).
  - rewrite Ht. simpl. rewrite vec_insert_perm.
    rewrite (wf_id_list _ W). apply Permutation_cons_append.
  - rewrite Ht. simpl. apply Forall_app. split.
    + eapply Forall_impl; [|apply (wf_next_id _ W)]. simpl. lia.
    + repeat constructor.
Qed.

Lemma registered_same_at s obj id :
  id <> m_next_id s -> same_at id s (registered obj s).
Proof.
  intros Hne. unfold same_at, obj_of, uprooted_of, disappeared_of,
    framecount_of, registered. simpl.
  now rewrite !OMapFacts.find_insert_neq.
Qed.

Lemma registered_new s obj :
  let id := m_next_id s in
  obj_of (registered obj s) id = Some obj /\
  uprooted_of (registered obj s) id = Some false /\
  disappeared_of (registered obj s) id = Some 0 /\
  framecount_of (registered obj s) id = Some 1.
Proof.
  unfold obj_of, uprooted_of, disappeared_of, framecount_of, registered.
  simpl. now rewrite !OMapFacts.find_insert_eq.
Qed.

End TrackerFacts.

(** ** Loop invariants *)

Section Loops.
Context {Coord Distance : Type}.
Local Abbreviation Tracker := (@ObjectTracker Coord Distance).

(** A [for] loop over [l] keeps an invariant that may mention the part of
    [l] already visited. *)
Lemma for_each_inv A (l : list A) (body : A -> M unit)
    (P : list A -> Tracker -> Prop) (s : Tracker) :
  P [] s ->
  (forall pre a post st, l = pre ++ a :: post -> P pre st ->
     exists st', body a st = Some (tt, st') /\ P (pre ++ [a]) st') ->
  exists s', for_each l body s = Some (tt, s') /\ P l s'.
Proof.
  intros H0 Hstep.
  assert (G : forall post pre st, l = pre ++ post -> P pre st ->
            exists s', for_each post body st = Some (tt, s') /\ P l s').
  { induction post as [|a post IH]; intros pre st El Hp.
    - rewrite app_nil_r in El. subst pre. exists st. split; [reflexivity | exact Hp].
    - destruct (Hstep pre a post st El Hp) as (st' & Eb & Hp').
      destruct (IH (pre ++ [a]) st') as (s' & Es & Hs); auto.
      { rewrite <- app_assoc. exact El. }
      exists s'. split; auto. simpl. unfold bind. now rewrite Eb. }
  apply (G l [] s); auto.
Qed.

Lemma fold_loop_inv A B (l : list A) (body : B -> A -> M B)
    (P : list A -> B -> Tracker -> Prop) (b : B) (s : Tracker) :
  P [] b s ->
  (forall pre a post acc st, l = pre ++ a :: post -> P pre acc st ->
     exists acc' st', body acc a st = Some (acc', st') /\ P (pre ++ [a]) acc' st') ->
  exists b' s', fold_loop l body b s = Some (b', s') /\ P l b' s'.
Proof.
  intros H0 Hstep.
  assert (G : forall post pre acc st, l = pre ++ post -> P pre acc st ->
            exists b' s', fold_loop post body acc st = Some (b', s') /\ P l b' s').
  { induction post as [|a post IH]; intros pre acc st El Hp.
    - rewrite app_nil_r in El. subst pre. exists acc, st.
      split; [reflexivity | exact Hp].
    - destruct (Hstep pre a post acc st El Hp) as (acc' & st' & Eb & Hp').
      destruct (IH (pre ++ [a]) acc' st') as (b' & s' & Es & Hs); auto.
      { rewrite <- app_assoc. exact El. }
      exists b', s'. split; auto. simpl. unfold bind. now rewrite Eb. }
  apply (G l [] b s); auto.
Qed.
End Loops.

(** ** cleanup_dissapeared *)

Section Cleanup.
Context {Coord Distance : Type}.
Local Abbreviation Obj := (Object Coord).
Local Abbreviation Tracker := (@ObjectTracker Coord Distance).
Implicit Types (s : Tracker) (id : ObjectID).

(** The cleanup returns, and changes nothing, when no counter is above the
    limit; otherwise it erases the first such entry under its own iterator
    and has no defined result. *)
Lemma cleanup_dissapeared_eq s :
  cleanup_dissapeared s =
  match expired_ids s with
  | [] => Some (tt, s)
  | _ :: _ => None
  end.
Proof.
  unfold cleanup_dissapeared, bind, gets, expired_ids.
  induction (m_disappeared s) as [|[id c] es IH]; simpl; [reflexivity|].
  unfold bind, gets.
  destruct (m_max_dissapeared_frms s <? c); simpl; [reflexivity | exact IH].
Qed.

Lemma In_entry_find V (m : OMap.t V) k v :
  OMap.ordered (OMap.keys m) -> In (k, v) m -> OMap.find k m = Some v.
Proof.
  induction m as [|[k' v'] r IH]; simpl; [tauto|].
  intros Ho [E | Hin].
  - inversion E; subst. now rewrite Nat.eqb_refl.
  - inversion Ho as [|? ? Hs Hall]; subst.
    assert (k' < k).
    { rewrite Forall_forall in Hall. apply Hall.
      change k with (fst (k, v)). now apply in_map. }
    destruct (k =? k') eqn:E; [apply Nat.eqb_eq in E; lia|]. auto.
Qed.

Lemma expired_ids_spec s id :
  WF s ->
  In id (expired_ids s) <->
  exists c, disappeared_of s id = Some c /\ m_max_dissapeared_frms s < c.
Proof.
  intros W. unfold expired_ids. rewrite in_map_iff. split.
  - intros ([k c] & <- & Hin). apply filter_In in Hin.
    destruct Hin as [Hin Hlt]. simpl in *. apply Nat.ltb_lt in Hlt.
    exists c. split; auto. apply In_entry_find; auto.
    rewrite (wf_disappeared _ W). apply (wf_ordered _ W).
  - intros (c & Hf & Hlt). exists (id, c). split; auto.
    apply filter_In. split.
    + now apply OMapFacts.find_In_entry.
    + now apply Nat.ltb_lt.
Qed.

Lemma expired_nil_bounded s : WF s -> expired_ids s = [] <-> bounded s.
Proof.
  intros W. split.
  - intros E id c Hc.
    destruct (Nat.le_gt_cases c (m_max_dissapeared_frms s)) as [|Hgt]; auto.
    exfalso. assert (Hin : In id (expired_ids s))
      by (apply (expired_ids_spec s id W); eauto).
    now rewrite E in Hin.
  - intros B. destruct (expired_ids s) as [|id r] eqn:E; auto.
    assert (Hin : In id (expired_ids s)) by (rewrite E; now left).
    apply (expired_ids_spec s id W) in Hin. destruct Hin as (c & Hc & Hlt).
    specialize (B id c Hc). lia.
Qed.

Lemma cleanup_returns s :
  WF s -> bounded s -> cleanup_dissapeared s = Some (tt, s).
Proof.
  intros W B. rewrite cleanup_dissapeared_eq.
  now rewrite (proj2 (expired_nil_bounded s W) B).
Qed.

Lemma cleanup_undefined s :
  WF s -> ~ bounded s -> cleanup_dissapeared s = None.
Proof.
  intros W B. rewrite cleanup_dissapeared_eq.
  destruct (expired_ids s) eqn:E; [|reflexivity].
  exfalso. apply B. now apply (expired_nil_bounded s W).
Qed.
End Cleanup.

(** ** One identity matched or missed *)

Section MatchMiss.
Context {Coord Distance : Type}.
Local Abbreviation Obj := (Object Coord).
Local Abbreviation Tracker := (@ObjectTracker Coord Distance).
Implicit Types (s : Tracker) (id : ObjectID).

Lemma same_shape_refl s : same_shape s s.
Proof. split; auto. apply same_config_refl. Qed.

Lemma same_shape_trans s1 s2 s3 :
  same_shape s1 s2 -> same_shape s2 s3 -> same_shape s1 s3.
Proof.
  intros [A1 A2 A3 A4 A5] [B1 B2 B3 B4 B5]. split; try congruence.
  eapply same_config_trans; eauto.
Qed.

Lemma missed_at_same id s1 s2 s3 :
  missed_at id s1 s2 -> same_at id s2 s3 -> missed_at id s1 s3.
Proof.
  unfold missed_at, same_at. intros (A1 & A2 & A3) (B1 & B2 & B3 & B4).
  repeat split; congruence.
Qed.

Lemma same_missed_at id s1 s2 s3 :
  same_at id s1 s2 -> missed_at id s2 s3 -> missed_at id s1 s3.
Proof.
  unfold missed_at, same_at. intros (A1 & A2 & A3 & A4) (B1 & B2 & B3).
  repeat split; congruence.
Qed.

Lemma matched_at_same id o s1 s2 s3 :
  matched_at id o s1 s2 -> same_at id s2 s3 -> matched_at id o s1 s3.
Proof.
  unfold matched_at, same_at. intros (A1 & A2 & A3) (B1 & B2 & B3 & B4).
  repeat split; congruence.
Qed.

Lemma same_matched_at id o s1 s2 s3 :
  same_at id s1 s2 -> matched_at id o s2 s3 -> matched_at id o s1 s3.
Proof.
  unfold matched_at, same_at. intros (A1 & A2 & A3 & A4) (B1 & B2 & B3).
  repeat split; congruence.
Qed.

Lemma missed_eq id s :
  In id (tracked s) -> WF s ->
  bind (incr_disappeared id) (fun _ => write_framecount id 0) s
  = Some (tt, missed id s).
Proof.
  intros Hin W. destruct (tracked_disappeared s id W Hin) as [c Hc].
  unfold bind, incr_disappeared, bind.
  rewrite (read_disappeared_tracked _ _ _ Hc). unfold missed. now rewrite Hc.
Qed.

Lemma matched_eq id o s :
  In id (tracked s) -> WF s ->
  bind (write_active id o) (fun _ => incr_framecount id) s
  = Some (tt, matched id o s).
Proof.
  intros Hin W. destruct (tracked_framecount s id W Hin) as [c Hc].
  unfold bind, incr_framecount, bind, write_active, modify.
  erewrite read_framecount_tracked by (unfold framecount_of; simpl; exact Hc).
  unfold matched. now rewrite Hc.
Qed.

Lemma missed_shape id s : In id (tracked s) -> WF s ->
  WF (missed id s) /\ same_shape s (missed id s).
Proof.
  intros Hin W. assert (Hs : same_shape s (missed id s)).
  { split; try reflexivity. repeat split. }
  split; auto. destruct W as [W1 W2 W3 W4 W5 W6].
  split; unfold tracked in *; simpl; auto;
    rewrite OMapFacts.keys_insert; rewrite ?W3, ?W4;
    now apply OMapFacts.kinsert_present.
Qed.

Lemma matched_shape id o s : In id (tracked s) -> WF s ->
  WF (matched id o s) /\ same_shape s (matched id o s).
Proof.
  intros Hin W. destruct W as [W1 W2 W3 W4 W5 W6].
  assert (Ht : tracked (matched id o s) = tracked s).
  { unfold tracked. simpl. rewrite OMapFacts.keys_insert.
    now apply OMapFacts.kinsert_present. }
  split.
  - split; rewrite Ht; simpl; auto.
    rewrite OMapFacts.keys_insert, W4. now apply OMapFacts.kinsert_present.
  - split; auto. repeat split.
Qed.

Lemma missed_missed_at id s :
  In id (tracked s) -> WF s -> missed_at id s (missed id s).
Proof.
  intros Hin W. destruct (tracked_disappeared s id W Hin) as [c Hc].
  unfold missed_at, missed, obj_of, disappeared_of, framecount_of in *.
  simpl. rewrite Hc. simpl. now rewrite !OMapFacts.find_insert_eq.
Qed.

Lemma matched_matched_at id o s :
  In id (tracked s) -> WF s -> matched_at id o s (matched id o s).
Proof.
  intros Hin W. destruct (tracked_framecount s id W Hin) as [c Hc].
  unfold matched_at, matched, obj_of, disappeared_of, framecount_of in *.
  simpl. rewrite Hc. simpl. now rewrite !OMapFacts.find_insert_eq.
Qed.

Lemma missed_same_at id id' s : id' <> id -> same_at id' s (missed id s).
Proof.
  intros Hne. unfold same_at, missed, obj_of, uprooted_of, disappeared_of,
    framecount_of. simpl. now rewrite !OMapFacts.find_insert_neq.
Qed.

Lemma matched_same_at id id' o s : id' <> id -> same_at id' s (matched id o s).
Proof.
  intros Hne. unfold same_at, matched, obj_of, uprooted_of, disappeared_of,
    framecount_of. simpl. now rewrite !OMapFacts.find_insert_neq.
Qed.

(** ** The first branch of [update]: no detection, every identity missed *)

Lemma miss_all_spec s :
  WF s ->
  exists s',
    for_each (m_disappeared s)
      (fun e => bind (incr_disappeared (fst e))
                     (fun _ => write_framecount (fst e) 0)) s = Some (tt, s')
    /\ WF s' /\ same_shape s s'
    /\ (forall id, In id (tracked s) -> missed_at id s s').
Proof.
  intros W.
  pose (P := fun (pre : list (nat * nat)) (st : Tracker) =>
    WF st /\ same_shape s st /\
    (forall id, In id (map fst pre) -> missed_at id s st) /\
    (forall id, ~ In id (map fst pre) -> same_at id s st)).
  destruct (for_each_inv _ (m_disappeared s)
    (fun e => bind (incr_disappeared (fst e))
                   (fun _ => write_framecount (fst e) 0)) P s)
    as (s' & Es & Wf' & Hsh & Hm & _).
  - split; [exact W|]. split; [apply same_shape_refl|].
    split; [simpl; tauto | intros; apply same_at_refl].
  - intros pre [id c] post st El (Wst & Hsh & Hm & Hs). simpl fst.
    assert (Hnd : NoDup (map fst pre ++ id :: map fst post)).
    { apply OMapFacts.ordered_NoDup.
      pose proof (wf_ordered _ W) as Ho. rewrite <- (wf_disappeared _ W) in Ho.
      unfold OMap.keys in Ho. rewrite El, map_app in Ho. exact Ho. }
    assert (Hnp : ~ In id (map fst pre)).
    { apply NoDup_remove_2 in Hnd. intros Hin. apply Hnd, in_or_app. now left. }
    assert (Hin : In id (tracked st)).
    { rewrite (shape_tracked _ _ Hsh), <- (wf_disappeared _ W).
      unfold OMap.keys. rewrite El, map_app. apply in_or_app. right. now left. }
    exists (missed id st). split; [now apply missed_eq|].
    destruct (missed_shape id st Hin Wst) as [W' Hsh'].
    split; [exact W'|]. split; [eapply same_shape_trans; eauto|].
    rewrite map_app. simpl. split.
    + intros id' Hin'. apply in_app_or in Hin'.
      destruct Hin' as [Hin' | [<- | []]].
      * eapply missed_at_same; [apply Hm, Hin'|].
        apply missed_same_at. intros ->. contradiction.
      * eapply same_missed_at; [apply Hs, Hnp|]. now apply missed_missed_at.
    + intros id' Hn. eapply same_at_trans; [apply Hs|].
      * intros Hin'. apply Hn, in_or_app. now left.
      * apply missed_same_at. intros ->. apply Hn, in_or_app. right. now left.
  - exists s'. split; [exact Es|]. split; [exact Wf'|]. split; [exact Hsh|].
    intros id Hin. apply Hm. now rewrite <- (wf_disappeared _ W) in Hin.
Qed.
End MatchMiss.

(** ** Registering a list of detections *)

Section RegisterAll.
Context {Coord Distance : Type}.
Context `{DA : DistanceArith Coord Distance}.
Context {OR : ObjectRanking Coord}.
Local Abbreviation Obj := (Object Coord).
Local Abbreviation Tracker := (@ObjectTracker Coord Distance).
Implicit Types (s : Tracker) (id : ObjectID) (L : list Obj).

Lemma register_all_eq L s :
  WF s ->
  for_each L (fun o => bind (register_object o) (fun _ => ret tt)) s
  = Some (tt, register_all L s).
Proof.
  revert s. induction L as [|o L IH]; simpl; intros s W; [reflexivity|].
  unfold bind at 1. unfold bind at 1. rewrite register_object_WF by exact W.
  unfold ret at 1. apply IH, registered_WF, W.
Qed.

Lemma register_all_WF L s : WF s -> WF (register_all L s).
Proof.
  revert s. induction L as [|o L IH]; simpl; intros s W; auto.
  apply IH, registered_WF, W.
Qed.

Lemma register_all_config L s :
  same_config s (register_all L s) /\
  m_next_id (register_all L s) = m_next_id s + length L.
Proof.
  revert s. induction L as [|o L IH]; simpl; intros s.
  - split; [apply same_config_refl | lia].
  - destruct (IH (registered o s)) as [Hc Hn]. split.
    + eapply same_config_trans; [|exact Hc]. repeat split.
    + rewrite Hn. simpl. lia.
Qed.

Lemma register_all_tracked L s :
  WF s ->
  tracked (register_all L s) = tracked s ++ seq (m_next_id s) (length L).
Proof.
  revert s. induction L as [|o L IH]; simpl; intros s W.
  - now rewrite app_nil_r.
  - rewrite IH by now apply registered_WF.
    rewrite tracked_registered by exact W. now rewrite <- app_assoc.
Qed.

Lemma register_all_same_at L s id :
  id < m_next_id s -> same_at id s (register_all L s).
Proof.
  revert s. induction L as [|o L IH]; simpl; intros s Hlt.
  - apply same_at_refl.
  - eapply same_at_trans.
    + apply (registered_same_at s o id). lia.
    + apply IH. simpl. lia.
Qed.

(** The [k]-th object of [L] sits under the [k]-th fresh id, with the
    counters of a new identity. *)
Lemma register_all_new L s k o :
  nth_error L k = Some o ->
  let s' := register_all L s in
  let id := m_next_id s + k in
  obj_of s' id = Some o /\ uprooted_of s' id = Some false /\
  disappeared_of s' id = Some 0 /\ framecount_of s' id = Some 1.
Proof.
  revert s k. induction L as [|a L IH]; intros s k Hk; [now destruct k|].
  destruct k as [|k]; simpl in Hk.
  - injection Hk as ->. simpl. rewrite Nat.add_0_r.
    destruct (register_all_same_at L (registered o s) (m_next_id s))
      as (E1 & E2 & E3 & E4); [simpl; lia|].
    fold (register_all L (registered o s)).
    rewrite E1, E2, E3, E4. apply registered_new.
  - simpl. fold (register_all L (registered a s)).
    specialize (IH (registered a s) k Hk). simpl in IH.
    replace (m_next_id s + S k) with (S (m_next_id s + k)) by lia.
    exact IH.
Qed.

Lemma active_objects_WF s :
  WF s -> active_objects s = Some (objects_of s, s).
Proof.
  intros W. unfold active_objects, bind, gets, objects_of.
  apply map_loop_pure. intros id Hin.
  apply read_active_object_at. now apply (WF_id_tracked s id W).
Qed.

Lemma object_count_eq s :
  object_count s = Some (length (tracked s), s).
Proof.
  unfold object_count, gets, tracked, OMap.size, OMap.keys.
  now rewrite length_map.
Qed.

(** From an empty registry the objects are exactly the detections. *)
Lemma register_all_objects L s :
  WF s -> tracked s = [] ->
  Permutation (objects_of (register_all L s)) L.
Proof.
  intros W Ht. set (s' := register_all L s).
  assert (W' : WF s') by now apply register_all_WF.
  unfold objects_of. rewrite (wf_id_list _ W').
  unfold s'. rewrite register_all_tracked by exact W. rewrite Ht. simpl.
  fold s'.
  assert (E : map (object_at s') (seq (m_next_id s) (length L)) = L).
  { apply nth_error_ext. intros k.
    rewrite nth_error_map.
    destruct (nth_error L k) as [o|] eqn:Ek.
    - assert (Hlt : k < length L) by (apply nth_error_Some; congruence).
      rewrite (nth_error_nth' _ 0) by now rewrite length_seq.
      rewrite seq_nth by exact Hlt. simpl.
      destruct (register_all_new L s k o Ek) as (E1 & _).
      unfold object_at. fold s' in E1. now rewrite E1.
    - apply nth_error_None in Ek.
      assert (En : nth_error (seq (m_next_id s) (length L)) k = None)
        by (apply nth_error_None; now rewrite length_seq).
      exact (f_equal (option_map (object_at s')) En). }
  now rewrite E.
Qed.
End RegisterAll.

(** ** The general branch of [update]: distances, rankings, matching *)

Section Matching.
Context {Coord Distance : Type}.
Context `{DO : DistanceOrder Coord Distance}.
Context {OR : ObjectRanking Coord}.
Context {SS : StdSort}.
Local Abbreviation Obj := (Object Coord).
Local Abbreviation Tracker := (@ObjectTracker Coord Distance).
Implicit Types (s : Tracker) (id : ObjectID) (objs : list Obj).

Lemma dist_matrix_WF s objs :
  WF s ->
  dist_matrix (OMap.size (m_active_objects s)) objs s
  = Some (dist_matrix_of s objs, s).
Proof.
  intros W. unfold dist_matrix, dist_matrix_of.
  apply map_loop_pure. intros i Hi. apply in_seq in Hi.
  apply map_loop_pure. intros o _.
  rewrite <- (WF_length s W) in Hi.
  destruct (nth_error (m_id_list s) i) as [id|] eqn:Ei;
    [|apply nth_error_None in Ei; lia].
  unfold bind, gets, vec_at. rewrite Ei.
  rewrite read_active_object_at.
  - unfold ret, row_object. now rewrite Ei.
  - apply (WF_id_tracked s id W). eapply nth_error_In, Ei.
Qed.

Lemma nth_error_seq0 m i : i < m -> nth_error (seq 0 m) i = Some i.
Proof.
  intros Hi. rewrite (nth_error_nth' _ 0) by now rewrite length_seq.
  now rewrite seq_nth.
Qed.

Lemma mat_at_dist_matrix s objs i c o :
  i < OMap.size (m_active_objects s) ->
  nth_error objs c = Some o ->
  mat_at (dist_matrix_of s objs) i c = euclidean_distance (row_object s i) o.
Proof.
  intros Hi Hc. unfold mat_at, dist_matrix_of.
  erewrite (nth_error_nth _ i []); cycle 1.
  { rewrite nth_error_map, nth_error_seq0 by exact Hi. reflexivity. }
  apply nth_error_nth. now rewrite nth_error_map, Hc.
Qed.

Lemma swo_pullback A B (f : A -> B) (comp : B -> B -> bool) :
  strict_weak_order comp -> strict_weak_order (fun a b => comp (f a) (f b)).
Proof.
  intros (Hi & Ht & Hn). repeat split; intros.
  - apply Hi.
  - eapply Ht; eauto.
  - eapply Hn; eauto.
Qed.

Lemma sorted_ids_row D m n i :
  i < m ->
  nth i (sorted_ids D m n) [] =
  std_sort (fun a b => dist_lt (mat_at D i a) (mat_at D i b)) (seq 0 n).
Proof.
  intros Hi. unfold sorted_ids. apply nth_error_nth.
  now rewrite nth_error_map, nth_error_seq0.
Qed.

Lemma sorted_ids_perm D m n i :
  i < m -> Permutation (seq 0 n) (nth i (sorted_ids D m n) []).
Proof.
  intros Hi. rewrite sorted_ids_row by exact Hi.
  apply std_sort_perm.
  apply (swo_pullback _ _ (mat_at D i) dist_lt), dist_lt_swo.
Qed.

Lemma active_obj_ids_perm D S m :
  Permutation (seq 0 m) (active_obj_ids D S m).
Proof.
  unfold active_obj_ids. apply std_sort_perm.
  apply (swo_pullback _ _ (fun a => mat_at D a (ids_at S a 0)) dist_lt),
    dist_lt_swo.
Qed.

(** *** The correspondence computed by the loop of step 3 *)

Lemma matching_app D S tol pre a used :
  matching D S tol (pre ++ [a]) used =
  matching D S tol pre used ++
  [(a, used_after D S tol pre used,
    find_update D S tol (used_after D S tol pre used) a)].
Proof.
  revert used. induction pre as [|i pre IH]; simpl; intros used; auto.
  now rewrite IH.
Qed.

Lemma used_after_app D S tol pre a used :
  used_after D S tol (pre ++ [a]) used =
  claim (used_after D S tol pre used)
        (find_update D S tol (used_after D S tol pre used) a).
Proof.
  revert used. induction pre as [|i pre IH]; simpl; intros used; auto.
Qed.

Lemma find_update_Some D S tol used i c :
  find_update D S tol used i = Some c ->
  In c (nth i S []) /\ ~ In c (OMap.keys used) /\
  dist_lt (mat_at D i c) tol = true.
Proof.
  unfold find_update. intros Hf. apply find_some in Hf.
  destruct Hf as [Hin Hb]. apply andb_true_iff in Hb. destruct Hb as [Hu Hd].
  apply OMapFacts.count_zero in Hu. auto.
Qed.


Lemma row_post_same objs id r s1 s2 s3 :
  row_post objs id r s1 s2 -> same_at id s2 s3 -> row_post objs id r s1 s3.
Proof.
  destruct r as [c|]; simpl.
  - intros (o & Ho & Hm) Hs. exists o. split; auto.
    eapply matched_at_same; eauto.
  - intros Hm Hs. eapply missed_at_same; eauto.
Qed.

Lemma match_row_step D S objs used i id s :
  WF s -> nth_error (m_id_list s) i = Some id ->
  (forall c, In c (nth i S []) -> c < length objs) ->
  let r := find_update D S (m_dist_tol s) used i in
  exists s',
    match_row D S objs used i s = Some (claim used r, s') /\
    WF s' /\ same_shape s s' /\ row_post objs id r s s' /\
    (forall id', id' <> id -> same_at id' s s').
Proof.
  intros W Ei Hcols r.
  assert (Hin : In id (tracked s)).
  { apply (WF_id_tracked s id W). eapply nth_error_In, Ei. }
  unfold match_row. unfold bind at 1, gets at 1. unfold bind at 1, gets at 1.
  fold r. destruct r as [c|] eqn:Er.
  - destruct (find_update_Some _ _ _ _ _ _ Er) as (Hc & _ & _).
    apply Hcols in Hc.
    destruct (nth_error objs c) as [o|] eqn:Eo;
      [|apply nth_error_None in Eo; lia].
    exists (matched id o s).
    destruct (matched_shape id o s Hin W) as [W' Hsh].
    split; [|split; [exact W'|split; [exact Hsh|split]]].
    + unfold bind at 1, vec_at at 1. rewrite Ei.
      unfold bind at 1, vec_at at 1. rewrite Eo.
      pose proof (matched_eq id o s Hin W) as E. unfold bind at 1 in E.
      unfold bind at 1.
      destruct (write_active id o s) as [[[] s1]|]; [|discriminate].
      unfold bind at 1. rewrite E. reflexivity.
    + exists o. split; auto. now apply matched_matched_at.
    + intros id' Hne. now apply matched_same_at.
  - exists (missed id s).
    destruct (missed_shape id s Hin W) as [W' Hsh].
    split; [|split; [exact W'|split; [exact Hsh|split]]].
    + unfold bind at 1, vec_at at 1. rewrite Ei.
      pose proof (missed_eq id s Hin W) as E. unfold bind at 1 in E.
      unfold bind at 1.
      destruct (incr_disappeared id s) as [[[] s1]|]; [|discriminate].
      unfold bind at 1. rewrite E. reflexivity.
    + now apply missed_missed_at.
    + intros id' Hne. now apply missed_same_at.
Qed.
End Matching.

Section MatchLoop.
Context {Coord Distance : Type}.
Context `{DO : DistanceOrder Coord Distance}.
Context {OR : ObjectRanking Coord}.
Context {SS : StdSort}.
Local Abbreviation Obj := (Object Coord).
Local Abbreviation Tracker := (@ObjectTracker Coord Distance).
Implicit Types (s : Tracker) (id : ObjectID) (objs : list Obj).

Lemma same_row_post objs id r s1 s2 s3 :
  same_at id s1 s2 -> row_post objs id r s2 s3 -> row_post objs id r s1 s3.
Proof.
  destruct r as [c|]; simpl.
  - intros Hs (o & Ho & Hm). exists o. split; auto.
    eapply same_matched_at; eauto.
  - intros Hs Hm. eapply same_missed_at; eauto.
Qed.

Lemma nth_error_inj (l : list nat) i j a :
  NoDup l -> nth_error l i = Some a -> nth_error l j = Some a -> i = j.
Proof.
  intros Hnd Ei Ej. rewrite NoDup_nth_error in Hnd. apply Hnd.
  - apply nth_error_Some. congruence.
  - congruence.
Qed.

(** The loop of step 3 over any rows [rs] without repetition. *)
Lemma match_loop_spec D S objs s0 (rs : list nat) (used0 : OMap.t nat) :
  WF s0 -> NoDup rs ->
  (forall i, In i rs -> i < length (m_id_list s0)) ->
  (forall i c, In i rs -> In c (nth i S []) -> c < length objs) ->
  let tol := m_dist_tol s0 in
  exists s1,
    fold_loop rs (match_row D S objs) used0 s0
    = Some (used_after D S tol rs used0, s1) /\
    WF s1 /\ same_shape s0 s1 /\
    (forall i id, nth_error (m_id_list s0) i = Some id ->
       (In i rs -> exists u r, In (i, u, r) (matching D S tol rs used0) /\
                               row_post objs id r s0 s1) /\
       (~ In i rs -> same_at id s0 s1)).
Proof.
  intros W Hnd Hlt Hcols tol.
  pose (P := fun (pre : list nat) (acc : OMap.t nat) (st : Tracker) =>
    acc = used_after D S tol pre used0 /\ WF st /\ same_shape s0 st /\
    (forall i id, nth_error (m_id_list s0) i = Some id ->
       (In i pre -> exists u r, In (i, u, r) (matching D S tol pre used0) /\
                                row_post objs id r s0 st) /\
       (~ In i pre -> same_at id s0 st))).
  destruct (fold_loop_inv _ _ rs (match_row D S objs) P used0 s0)
    as (b' & s1 & Ef & Eb & W1 & Hsh & Hrows).
  - split; [reflexivity|]. split; [exact W|]. split; [apply same_shape_refl|].
    intros i id _. split; [intros [] | intros _; apply same_at_refl].
  - intros pre a post acc st El (Eacc & Wst & Hsh & Hinv).
    assert (Ha : In a rs) by (rewrite El; apply in_or_app; right; now left).
    assert (Hnpre : ~ In a pre).
    { rewrite El in Hnd. apply NoDup_remove_2 in Hnd.
      intros Hin. apply Hnd, in_or_app. now left. }
    destruct (nth_error (m_id_list s0) a) as [ida|] eqn:Ea;
      [|apply nth_error_None in Ea; specialize (Hlt a Ha); lia].
    destruct (match_row_step D S objs acc a ida st Wst) as
      (st' & Em & W' & Hsh' & Hpost & Hothers).
    { now rewrite (shape_id_list _ _ Hsh). }
    { intros c. now apply Hcols. }
    assert (Etol : m_dist_tol st = tol) by apply Hsh.
    rewrite Etol in Em, Hpost.
    exists (claim acc (find_update D S tol acc a)), st'.
    split; [exact Em|]. unfold P.
    split; [rewrite used_after_app; now subst acc|].
    split; [exact W'|]. split; [eapply same_shape_trans; eauto|].
    intros i id Ei. split.
    + intros Hin. apply in_app_or in Hin. destruct Hin as [Hin | [<- | []]].
      * destruct (proj1 (Hinv i id Ei) Hin) as (u & r & Hm & Hp).
        exists u, r. split.
        { rewrite matching_app. apply in_or_app. now left. }
        eapply row_post_same; [exact Hp|]. apply Hothers.
        intros ->. apply Hnpre.
        rewrite (nth_error_inj _ a i ida (WF_NoDup_ids s0 W) Ea Ei). exact Hin.
      * assert (id = ida) by congruence. subst id.
        exists acc, (find_update D S tol acc a). split.
        { rewrite matching_app. apply in_or_app. right. left. now subst acc. }
        eapply same_row_post; [|exact Hpost]. now apply (Hinv a ida Ei).
    + intros Hn. eapply same_at_trans.
      * apply (Hinv i id Ei). intros Hin. apply Hn, in_or_app. now left.
      * apply Hothers. intros ->. apply Hn, in_or_app. right. left.
        apply (nth_error_inj _ a i ida (WF_NoDup_ids s0 W) Ea Ei).
  - exists s1. subst b'. auto.
Qed.

Lemma register_unused_cols cols objs used s :
  WF s -> (forall c, In c cols -> c < length objs) ->
  for_each cols
    (fun c => if OMap.count c used =? 0 then
                bind (vec_at objs c) (fun new_obj =>
                  bind (register_object new_obj) (fun _ => ret tt))
              else ret tt) s
  = Some (tt, register_all (new_objects cols objs used) s).
Proof.
  revert s. induction cols as [|c cols IH]; intros s W Hc; [reflexivity|].
  simpl for_each. unfold new_objects. simpl filter.
  unfold bind at 1.
  destruct (OMap.count c used =? 0).
  - assert (Hlt : c < length objs) by (apply Hc; now left).
    unfold bind at 1, vec_at.
    rewrite (nth_error_nth' objs default_Object Hlt).
    unfold bind at 1. rewrite register_object_WF by exact W.
    unfold ret at 1. simpl map. simpl register_all.
    apply IH; [now apply registered_WF | intros; apply Hc; now right].
  - unfold ret at 1. apply IH; [exact W | intros; apply Hc; now right].
Qed.

(** The general branch, before the cleanup. *)
Lemma update_match_spec s0 objs :
  WF s0 -> 0 < OMap.size (m_active_objects s0) ->
  let m := OMap.size (m_active_objects s0) in
  let n := length objs in
  let D := dist_matrix_of s0 objs in
  let S := sorted_ids D m n in
  let rows := active_obj_ids D S m in
  let tol := m_dist_tol s0 in
  let used := used_after D S tol rows (OMap.empty nat) in
  exists s1,
    update_match objs s0
    = Some (tt, register_all (new_objects (nth 0 S []) objs used) s1) /\
    WF s1 /\ same_shape s0 s1 /\
    (forall i id, nth_error (m_id_list s0) i = Some id ->
       exists u r, In (i, u, r) (matching D S tol rows (OMap.empty nat)) /\
                   row_post objs id r s0 s1).
Proof.
  intros W Hm m n D S rows tol used.
  assert (Hrows : Permutation (seq 0 m) rows) by apply active_obj_ids_perm.
  assert (Hin_rows : forall i, In i rows <-> i < m).
  { intros i. split; intros Hi.
    - apply (Permutation_in _ (Permutation_sym Hrows)) in Hi.
      apply in_seq in Hi. lia.
    - apply (Permutation_in _ Hrows). apply in_seq. lia. }
  assert (Hcols : forall i c, i < m -> In c (nth i S []) -> c < n).
  { intros i c Hi Hc.
    apply (Permutation_in _ (Permutation_sym (sorted_ids_perm D m n i Hi))) in Hc.
    apply in_seq in Hc. lia. }
  destruct (match_loop_spec D S objs s0 rows (OMap.empty nat) W) as
    (s1 & Ef & W1 & Hsh & Hr).
  - eapply Permutation_NoDup; [exact Hrows | apply seq_NoDup].
  - intros i Hi. rewrite (WF_length s0 W). now apply Hin_rows.
  - intros i c Hi. apply Hcols. now apply Hin_rows.
  - exists s1. split; [|split; [exact W1|split; [exact Hsh|]]].
    + unfold update_match. unfold bind at 1. rewrite object_count_eq.
      assert (El : length (tracked s0) = m)
        by (unfold tracked, OMap.keys, m, OMap.size; apply length_map).
      rewrite El. unfold bind at 1. fold m.
      unfold m at 1. rewrite dist_matrix_WF by exact W.
      unfold bind at 1. unfold rows, S, D, n, tol in Ef. rewrite Ef.
      unfold register_unused.
      apply register_unused_cols; [exact W1|].
      intros c. now apply Hcols.
    + intros i id Ei. apply (Hr i id Ei). apply Hin_rows.
      unfold m. rewrite <- (WF_length s0 W). apply nth_error_Some. congruence.
Qed.
End MatchLoop.

(** ** [update] as a whole *)

Section Update.
Context {Coord Distance : Type}.
Context `{DO : DistanceOrder Coord Distance}.
Context {OR : ObjectRanking Coord}.
Context {SS : StdSort}.
Local Abbreviation Obj := (Object Coord).
Local Abbreviation Tracker := (@ObjectTracker Coord Distance).
Implicit Types (s : Tracker) (id : ObjectID) (objs : list Obj).

Lemma new_objects_incl cols objs used o :
  (forall c, In c cols -> c < length objs) ->
  In o (new_objects cols objs used) -> In o objs.
Proof.
  intros Hc Hin. unfold new_objects in Hin. apply in_map_iff in Hin.
  destruct Hin as (c & <- & Hin). apply filter_In in Hin.
  apply nth_In, Hc, Hin.
Qed.

(** Registering [L] on top of a state [s1] that has the shape of [s]. *)
Lemma register_all_fresh objs L s1 :
  WF s1 -> (forall o, In o L -> In o objs) ->
  let s2 := register_all L s1 in
  (forall id, In id (tracked s2) <-> In id (tracked s1) \/ new_between id s1 s2)
  /\ (forall id, new_between id s1 s2 -> fresh_at objs id s2).
Proof.
  intros W1 Hincl s2.
  destruct (register_all_config L s1) as [_ Hn]. fold s2 in Hn.
  split.
  - intros id. unfold s2. rewrite register_all_tracked by exact W1.
    rewrite in_app_iff, in_seq. unfold new_between. fold s2. rewrite Hn.
    tauto.
  - intros id [Hlo Hhi]. rewrite Hn in Hhi.
    destruct (nth_error L (id - m_next_id s1)) as [o|] eqn:Eo;
      [|apply nth_error_None in Eo; lia].
    destruct (register_all_new L s1 _ o Eo) as (E1 & E2 & E3 & E4).
    replace (m_next_id s1 + (id - m_next_id s1)) with id in * by lia.
    split; [|auto]. exists o. split; auto.
    apply Hincl. eapply nth_error_In, Eo.
Qed.

Lemma update_spec s objs :
  WF s ->
  exists s2, update objs s = cleanup_dissapeared s2 /\ matched_or_missed objs s s2.
Proof.
  intros W. unfold update. unfold bind at 1.
  destruct (length objs =? 0) eqn:En.
  - (* no detection *)
    unfold bind at 1, gets at 1.
    destruct (miss_all_spec s W) as (s2 & Es & W2 & Hsh & Hm).
    rewrite Es. exists s2. split; [reflexivity|].
    split; auto; try apply Hsh.
    + rewrite (shape_next_id _ _ Hsh). lia.
    + intros id. rewrite (shape_tracked _ _ Hsh). unfold new_between.
      rewrite (shape_next_id _ _ Hsh). split; [tauto | intros [?|?]; [auto|lia]].
    + intros id Hin. split; [|left; now apply Hm].
      unfold uprooted_of. now rewrite (shape_uprooted _ _ Hsh).
    + intros id. unfold new_between. rewrite (shape_next_id _ _ Hsh). lia.
  - unfold bind at 1. rewrite object_count_eq.
    destruct (length (tracked s) =? 0) eqn:Em.
    + (* no identity yet *)
      apply Nat.eqb_eq in Em.
      assert (Ht : tracked s = []) by now destruct (tracked s).
      pose proof (register_all_eq objs s W) as Er.
      assert (Er' : for_each objs
                (fun o => bind (register_object o) (fun _ => ret tt)) s
              = Some (tt, register_all objs s)) by exact Er.
      rewrite Er'. exists (register_all objs s).
      split; [reflexivity|].
      destruct (register_all_fresh objs objs s W (fun o H => H)) as [Htr Hnew].
      destruct (register_all_config objs s) as [Hc Hn].
      split; auto.
      * now apply register_all_WF.
      * lia.
      * intros id Hin. rewrite Ht in Hin. destruct Hin.
    + (* the general case *)
      apply Nat.eqb_neq in Em.
      assert (Hm : 0 < OMap.size (m_active_objects s)).
      { unfold tracked, OMap.keys in Em. rewrite length_map in Em.
        unfold OMap.size. lia. }
      destruct (update_match_spec s objs W Hm) as (s1 & Eu & W1 & Hsh & Hrows).
      rewrite Eu.
      set (D := dist_matrix_of s objs) in *.
      set (S := sorted_ids D (OMap.size (m_active_objects s)) (length objs)) in *.
      set (rows := active_obj_ids D S (OMap.size (m_active_objects s))) in *.
      set (used := used_after D S (m_dist_tol s) rows (OMap.empty nat)) in *.
      set (L := new_objects (nth 0 S []) objs used) in *.
      exists (register_all L s1). split; [reflexivity|].
      assert (Hincl : forall o, In o L -> In o objs).
      { intros o. apply new_objects_incl. intros c Hc.
        apply (Permutation_in _ (Permutation_sym
                 (sorted_ids_perm D _ (length objs) 0 Hm))) in Hc.
        apply in_seq in Hc. lia. }
      destruct (register_all_fresh objs L s1 W1 Hincl) as [Htr Hnew].
      destruct (register_all_config L s1) as [Hc Hn].
      assert (Enext : m_next_id s1 = m_next_id s) by apply Hsh.
      assert (Etr : tracked s1 = tracked s) by apply Hsh.
      split.
      * now apply register_all_WF.
      * eapply same_config_trans; [apply Hsh | exact Hc].
      * lia.
      * intros id. rewrite Htr, Etr. unfold new_between. now rewrite Enext.
      * intros id Hin.
        assert (Hlt : id < m_next_id s1).
        { rewrite Enext. pose proof (wf_next_id _ W) as Hf.
          rewrite Forall_forall in Hf. now apply Hf. }
        pose proof (register_all_same_at L s1 id Hlt) as Hsame.
        split.
        { destruct Hsame as (_ & -> & _). unfold uprooted_of.
          now rewrite (shape_uprooted _ _ Hsh). }
        apply (WF_id_tracked s id W) in Hin.
        apply In_nth_error in Hin. destruct Hin as [i Ei].
        destruct (Hrows i id Ei) as (u & [c|] & _ & Hp); simpl in Hp.
        { right. destruct Hp as (o & Ho & Hma). exists o. split.
          - eapply nth_error_In, Ho.
          - eapply matched_at_same; eauto. }
        { left. eapply missed_at_same; eauto. }
      * intros id Hnb. apply Hnew. unfold new_between in *.
        now rewrite Enext.
Qed.
End Update.

(** ** topValid and top *)

Section Queries.
Context {Coord Distance : Type}.
Context `{DA : DistanceArith Coord Distance}.
Local Abbreviation Obj := (Object Coord).
Local Abbreviation Tracker := (@ObjectTracker Coord Distance).
Implicit Types (s : Tracker) (id : ObjectID).

Lemma topValid_scan_WF s (entries : list (ObjectID * Obj)) :
  WF s -> (forall e, In e entries -> In (fst e) (tracked s)) ->
  topValid_scan entries s =
  Some (match List.find (fun e => eligible s (fst e)) entries with
        | Some e => (Some e, claimed (fst e) s)
        | None => (None, s)
        end).
Proof.
  intros W. induction entries as [|[id o] r IH]; intros Hin; [reflexivity|].
  assert (Hid : In id (tracked s)) by (apply (Hin (id, o)); now left).
  destruct (tracked_framecount s id W Hid) as [fc Hfc].
  destruct (tracked_uprooted s id W Hid) as [up Hup].
  simpl. unfold eligible. rewrite Hfc, Hup.
  unfold bind at 1. rewrite (read_framecount_tracked _ _ _ Hfc).
  unfold bind at 1, gets at 1.
  destruct (m_min_framecount s <=? fc); simpl.
  - unfold bind at 1. rewrite (read_uprooted_tracked _ _ _ Hup).
    destruct up; simpl.
    + apply IH. intros e He. apply Hin. now right.
    + reflexivity.
  - apply IH. intros e He. apply Hin. now right.
Qed.

Lemma topValid_entry_WF s :
  WF s ->
  topValid_entry s =
  Some (match first_eligible s with
        | Some e => (Some e, claimed (fst e) s)
        | None => (None, s)
        end).
Proof.
  intros W. unfold topValid_entry, bind, object_count, gets, first_eligible.
  destruct (OMap.size (m_active_objects s) =? 0) eqn:Ez.
  - apply Nat.eqb_eq in Ez. unfold OMap.size in Ez.
    destruct (m_active_objects s); [reflexivity | discriminate].
  - apply topValid_scan_WF; auto.
    intros e He. unfold tracked, OMap.keys. now apply in_map.
Qed.

Lemma topValid_eq s :
  topValid s =
  match topValid_entry s with
  | Some (r, s') => Some (option_map snd r, s')
  | None => None
  end.
Proof.
  unfold topValid, bind. destruct (topValid_entry s) as [[r s']|]; reflexivity.
Qed.

Lemma first_eligible_Some s id o :
  first_eligible s = Some (id, o) ->
  obj_of s id = Some o /\ eligible s id = true /\
  forall id', In id' (tracked s) -> eligible s id' = true ->
              OMap.ordered (tracked s) -> id <= id'.
Proof.
  unfold first_eligible, obj_of, tracked.
  induction (m_active_objects s) as [|[k v] r IH]; simpl; [discriminate|].
  destruct (eligible s k) eqn:Ek.
  - intros [= -> ->]. rewrite Nat.eqb_refl. repeat split; auto.
    intros id' [<- | Hin] _ Ho; [lia|].
    inversion Ho as [|? ? _ Hall]; subst. rewrite Forall_forall in Hall.
    apply Nat.lt_le_incl. now apply Hall.
  - intros Hf. destruct (IH Hf) as (Ho & He & Hmin).
    assert (Hne : id <> k) by (intros ->; congruence).
    apply Nat.eqb_neq in Hne. rewrite Hne. repeat split; auto.
    intros id' [<- | Hin] He' Hord; [congruence|].
    inversion Hord; subst. now apply Hmin.
Qed.

Lemma first_eligible_None s :
  first_eligible s = None ->
  forall id, In id (tracked s) -> eligible s id = false.
Proof.
  unfold first_eligible, tracked. intros Hf id Hin.
  apply in_map_iff in Hin. destruct Hin as (e & <- & Hin).
  apply (find_none _ _ Hf e Hin).
Qed.

Lemma claimed_WF id s : WF s -> In id (tracked s) -> WF (claimed id s).
Proof.
  intros [W1 W2 W3 W4 W5 W6] Hin. split; auto.
  unfold tracked, claimed in *. simpl.
  rewrite OMapFacts.keys_insert, W2. now apply OMapFacts.kinsert_present.
Qed.

Lemma claimed_uprooted id id' s :
  uprooted_of (claimed id s) id' =
  if id' =? id then Some true else uprooted_of s id'.
Proof.
  unfold uprooted_of, claimed. simpl. destruct (id' =? id) eqn:E.
  - apply Nat.eqb_eq in E. subst. apply OMapFacts.find_insert_eq.
  - apply Nat.eqb_neq in E. now apply OMapFacts.find_insert_neq.
Qed.

Lemma top_WF s :
  WF s ->
  top s = Some (match m_id_list s with
                | [] => None
                | id :: _ => Some (object_at s id)
                end, s).
Proof.
  intros W. unfold top, bind, object_count, gets.
  pose proof (WF_length s W) as Hl.
  destruct (m_id_list s) as [|id r] eqn:Ei; simpl in Hl.
  - now rewrite <- Hl.
  - rewrite <- Hl. simpl. unfold vec_at. simpl. rewrite Ei.
    rewrite read_active_object_at; [reflexivity|].
    apply (WF_id_tracked s id W). rewrite Ei. now left.
Qed.
End Queries.

(** ** One call of [update], cleanup included *)

Section UpdateStep.
Context {Coord Distance : Type}.
Context `{DO : DistanceOrder Coord Distance}.
Context {OR : ObjectRanking Coord}.
Context {SS : StdSort}.
Local Abbreviation Obj := (Object Coord).
Local Abbreviation Tracker := (@ObjectTracker Coord Distance).
Implicit Types (s : Tracker) (id : ObjectID) (objs : list Obj).

(** [update] returns the state that matching and registration have built
    when no counter in it is above the limit; otherwise the cleanup, and
    with it the call, has no defined result. *)
Lemma update_returns_or_not s objs :
  WF s ->
  exists s2, matched_or_missed objs s s2 /\
    ((bounded s2 /\ update objs s = Some (tt, s2)) \/
     (~ bounded s2 /\ update objs s = None)).
Proof.
  intros W. destruct (update_spec s objs W) as (s2 & Eu & M).
  exists s2. split; [exact M|]. rewrite Eu, cleanup_dissapeared_eq.
  pose proof (expired_nil_bounded s2 (mm_WF _ _ _ M)) as Hb.
  destruct (expired_ids s2) as [|id r].
  - left. split; [now apply Hb | reflexivity].
  - right. split; [|reflexivity]. intros B. apply Hb in B. discriminate.
Qed.

Lemma update_step s objs s' :
  WF s -> update objs s = Some (tt, s') -> frame_step objs s s'.
Proof.
  intros W Eu.
  destruct (update_returns_or_not s objs W) as (s2 & M & [[B E] | [_ E]]);
    rewrite Eu in E; [|discriminate].
  injection E as ->. split.
  - apply (mm_WF _ _ _ M).
  - exact B.
  - apply (mm_config _ _ _ M).
  - apply (mm_next _ _ _ M).
  - apply (mm_tracked _ _ _ M).
  - intros id Hin. apply (mm_old _ _ _ M id Hin).
  - intros id Hin.
    destruct (mm_old _ _ _ M id Hin) as [_ [Hmi | (o & Ho & Hma)]].
    + now apply outcome_missed.
    + now apply (outcome_matched objs s s2 id o).
  - apply (mm_new _ _ _ M).
Qed.
End UpdateStep.

(** * Calls, runs and reachable states *)

Section Runs.
Context {Coord Distance : Type}.
Context `{DO : DistanceOrder Coord Distance}.
Context {OR : ObjectRanking Coord}.
Context {SS : StdSort}.
Local Abbreviation Obj := (Object Coord).
Local Abbreviation Tracker := (@ObjectTracker Coord Distance).
Implicit Types (s : Tracker) (id : ObjectID) (objs : list Obj).

Lemma evolves_refl s : evolves s s.
Proof. split; auto. apply same_config_refl. Qed.

Lemma claimed_evolves id s : evolves s (claimed id s).
Proof.
  split; auto.
  - repeat split.
  - intros id' _ _ Hu. rewrite claimed_uprooted.
    destruct (id' =? id); auto.
Qed.

Lemma claimed_bounded id s : bounded s -> bounded (claimed id s).
Proof. intros B id' c Hc. apply (B id' c Hc). Qed.

Lemma frame_step_evolves objs s s' :
  WF s -> frame_step objs s s' -> evolves s s'.
Proof.
  intros W F. split.
  - apply (fs_config _ _ _ F).
  - apply (fs_next _ _ _ F).
  - intros id Hin. apply (fs_tracked _ _ _ F) in Hin.
    destruct Hin as [H1 | H1]; auto. right. apply H1.
  - intros id Hin Hin' Hu. now rewrite (fs_uprooted _ _ _ F id Hin).
Qed.

(** Every call that returns keeps the invariants. *)
Lemma exec_inv c s r s' :
  WF s -> bounded s -> exec c s = Some (r, s') ->
  WF s' /\ bounded s' /\ evolves s s'.
Proof.
  intros W B. destruct c as [objs| | | |]; simpl; unfold bind.
  - destruct (update objs s) as [[[] s1]|] eqn:Eu; [|discriminate].
    intros [= <- <-]. pose proof (update_step s objs s1 W Eu) as F.
    split; [apply (fs_WF _ _ _ F)|].
    split; [apply (fs_bounded _ _ _ F) | now apply (frame_step_evolves objs)].
  - rewrite (topValid_entry_WF s W).
    destruct (first_eligible s) as [[id o]|] eqn:Ef; intros [= <- <-].
    + destruct (first_eligible_Some s id o Ef) as (Ho & _ & _).
      split; [apply claimed_WF; auto; eapply obj_tracked, Ho|].
      split; [now apply claimed_bounded | apply claimed_evolves].
    + split; [exact W|]. split; [exact B | apply evolves_refl].
  - rewrite (top_WF s W). intros [= <- <-].
    split; [exact W|]. split; [exact B | apply evolves_refl].
  - rewrite (active_objects_WF s W). intros [= <- <-].
    split; [exact W|]. split; [exact B | apply evolves_refl].
  - rewrite object_count_eq. intros [= <- <-].
    split; [exact W|]. split; [exact B | apply evolves_refl].
Qed.

(** The queries always return. *)
Lemma exec_query_returns c s :
  WF s -> (forall objs, c <> Update objs) ->
  exists r s', exec c s = Some (r, s').
Proof.
  intros W Hq. destruct c as [objs| | | |]; simpl; unfold bind.
  - now destruct (Hq objs).
  - rewrite (topValid_entry_WF s W).
    destruct (first_eligible s) as [[id o]|]; eexists _, _; reflexivity.
  - rewrite (top_WF s W). eexists _, _; reflexivity.
  - rewrite (active_objects_WF s W). eexists _, _; reflexivity.
  - rewrite object_count_eq. eexists _, _; reflexivity.
Qed.

Lemma bounded_new tol mx mn first :
  bounded (ObjectTracker_new tol mx mn first : Tracker).
Proof. intros id c Hc. discriminate. Qed.

Lemma reachable_inv s : reachable s -> WF s /\ bounded s.
Proof.
  induction 1 as [tol mx mn first | s c r s' Hr [W B] Ec].
  - split; [apply WF_new | apply bounded_new].
  - destruct (exec_inv c s r s' W B Ec) as (W' & B' & _). now split.
Qed.

Lemma run_cons c cs s l s' :
  run (c :: cs) s = Some (l, s') ->
  exists r s1 l1, exec c s = Some (r, s1) /\ run cs s1 = Some (l1, s') /\
    l = (match r with Some id => id :: l1 | None => l1 end).
Proof.
  simpl. unfold bind at 1. destruct (exec c s) as [[r s1]|]; [|discriminate].
  unfold bind at 1. destruct (run cs s1) as [[l1 s2]|] eqn:Er; [|discriminate].
  unfold ret. intros [= <- <-]. exists r, s1, l1. auto.
Qed.

Lemma run_reachable cs s l s' :
  reachable s -> run cs s = Some (l, s') -> reachable s'.
Proof.
  revert s l. induction cs as [|c cs IH]; intros s l Hr E.
  - injection E as <- <-. exact Hr.
  - apply run_cons in E. destruct E as (r & s1 & l1 & Ec & Er & _).
    eapply IH; [|exact Er]. eapply reach_call; eauto.
Qed.
End Runs.

(** * [std::sort] by insertion

    An insertion sort that puts a new element behind the elements
    equivalent to it and so keeps their order. *)

Module Sorts.

Section Insertion.
Variable comp : nat -> nat -> bool.

Fixpoint insert_behind (a : nat) (l : list nat) : list nat :=
  match l with
  | [] => [a]
  | b :: r => if comp a b then a :: l else b :: insert_behind a r
  end.

Definition keeping_sort (l : list nat) : list nat :=
  fold_left (fun acc a => insert_behind a acc) l [].

Lemma insert_behind_perm a l : Permutation (a :: l) (insert_behind a l).
Proof.
  induction l as [|b r IH]; simpl; auto.
  destruct (comp a b); auto.
  rewrite perm_swap. now constructor.
Qed.

Lemma fold_insert_perm (ins : nat -> list nat -> list nat) :
  (forall a l, Permutation (a :: l) (ins a l)) ->
  forall l acc, Permutation (l ++ acc) (fold_left (fun acc a => ins a acc) l acc).
Proof.
  intros Hins. induction l as [|a l IH]; intros acc; simpl; auto.
  rewrite <- IH. rewrite <- Hins. apply Permutation_middle.
Qed.

Hypothesis comp_swo : strict_weak_order comp.

Lemma comp_asym a b : comp a b = true -> comp b a = false.
Proof.
  destruct comp_swo as (Hi & Ht & _). intros Hab.
  destruct (comp b a) eqn:Hba; auto.
  pose proof (Ht _ _ _ Hab Hba) as Haa. rewrite Hi in Haa. discriminate.
Qed.

Lemma insert_behind_sorted a l :
  sorted_by comp l -> sorted_by comp (insert_behind a l).
Proof.
  destruct comp_swo as (Hi & Ht & Hn). unfold sorted_by.
  induction 1 as [|b r Hs IH Hall]; simpl.
  - repeat constructor.
  - destruct (comp a b) eqn:Hab.
    + constructor; [now constructor|].
      constructor; [now apply comp_asym|].
      eapply Forall_impl; [|exact Hall]. simpl. intros y Hy.
      apply (Hn y b a); auto. now apply comp_asym.
    + constructor; auto. apply Forall_forall. intros y Hy.
      apply (Permutation_in _ (Permutation_sym (insert_behind_perm a r))) in Hy.
      destruct Hy as [<- | Hy]; auto.
      rewrite Forall_forall in Hall. auto.
Qed.

Lemma fold_insert_sorted (ins : nat -> list nat -> list nat) :
  (forall a l, sorted_by comp l -> sorted_by comp (ins a l)) ->
  forall l acc, sorted_by comp acc ->
                sorted_by comp (fold_left (fun acc a => ins a acc) l acc).
Proof.
  intros Hins. induction l as [|a l IH]; intros acc Hacc; simpl; auto.
Qed.
End Insertion.

Lemma keeping_sort_perm comp l :
  strict_weak_order comp -> Permutation l (keeping_sort comp l).
Proof.
  intros _. unfold keeping_sort. rewrite <- (app_nil_r l) at 1.
  apply (fold_insert_perm (insert_behind comp)), insert_behind_perm.
Qed.

Lemma keeping_sort_sorted comp l :
  strict_weak_order comp -> sorted_by comp (keeping_sort comp l).
Proof.
  intros Hc. unfold keeping_sort.
  apply (fold_insert_sorted comp (insert_behind comp)).
  - intros a acc. now apply insert_behind_sorted.
  - constructor.
Qed.

Definition keeping : StdSort :=
  {| std_sort := keeping_sort;
     std_sort_perm := keeping_sort_perm;
     std_sort_sorted := keeping_sort_sorted |}.

End Sorts.

(** * The [std::sort] of libstdc++

    [std::sort] as GCC's libstdc++ implements it (GCC 12, [bits/stl_algo.h]
    and [bits/stl_heap.h]): an introsort.  Ranges of at most 16 elements are
    sorted by insertion; longer ranges are first partitioned around the
    median of three elements, down to pieces of at most 16 elements (or
    sorted by heap sort once the depth limit is used up), and an insertion
    sort then finishes the whole range.  The vector is a list, iterators are
    positions in it, and a step has no result where an iterator leaves the
    vector.  The loops that the source leaves to a sentinel run for at most
    as many turns as the vector is long, which is as far as they can go
    inside it. *)

Module GnuSort.

Definition arr := list nat.

Definition obind {A B} (c : option A) (k : A -> option B) : option B :=
  match c with
  | Some a => k a
  | None => None
  end.

Local Notation "x <-- c ;; k" := (obind c (fun x => k))
  (at level 61, c at next level, right associativity).

(** [_S_threshold] *)
Definition S_threshold : nat := 16.

Section Algorithm.
(** The comparator of the call, on elements. *)
Variable comp : nat -> nat -> bool.

(** Reading and writing through an iterator *)
Definition get (a : arr) (i : nat) : option nat := nth_error a i.

Fixpoint set (a : arr) (i : nat) (v : nat) : option arr :=
  match a, i with
  | [], _ => None
  | _ :: r, 0 => Some (v :: r)
  | x :: r, S i' => option_map (cons x) (set r i' v)
  end.

Definition iter_swap (a : arr) (i j : nat) : option arr :=
  x <-- get a i ;;
  y <-- get a j ;;
  a1 <-- set a i y ;;
  set a1 j x.

Fixpoint for_indices (idx : list nat) (body : nat -> arr -> option arr)
    (a : arr) : option arr :=
  match idx with
  | [] => Some a
  | i :: r => a1 <-- body i a ;; for_indices r body a1
  end.

(** *** Insertion sort *)

(** The loop of [__unguarded_linear_insert]: [next] walks down while the
    value is smaller than the element under it. *)
Fixpoint linear_insert_loop (val : nat) (next last : nat) (a : arr)
    : option arr :=
  x <-- get a next ;;
  if comp val x then
    a1 <-- set a last x ;;
    match next with
    | 0 => None
    | S n => linear_insert_loop val n next a1
    end
  else set a last val.

Definition unguarded_linear_insert (last : nat) (a : arr) : option arr :=
  val <-- get a last ;;
  match last with
  | 0 => None
  | S next => linear_insert_loop val next last a
  end.

(** [move_backward(first, i, i + 1)]: the elements of [first, i) move up by
    one place. *)
Definition move_backward_one (first i : nat) (a : arr) : option arr :=
  if (first <=? i) && (i <? length a) then
    Some (firstn first a ++ nth first a 0
            :: firstn (i - first) (skipn first a) ++ skipn (S i) a)
  else None.

(** The body of the loop of [__insertion_sort]. *)
Definition insertion_step (first i : nat) (a : arr) : option arr :=
  x <-- get a i ;;
  f <-- get a first ;;
  if comp x f then
    a1 <-- move_backward_one first i a ;;
    set a1 first x
  else unguarded_linear_insert i a.

Definition insertion_sort (first last : nat) (a : arr) : option arr :=
  if first =? last then Some a
  else for_indices (seq (S first) (last - S first)) (insertion_step first) a.

Definition unguarded_insertion_sort (first last : nat) (a : arr)
    : option arr :=
  for_indices (seq first (last - first)) unguarded_linear_insert a.

Definition final_insertion_sort (first last : nat) (a : arr) : option arr :=
  if S_threshold <? last - first then
    a1 <-- insertion_sort first (first + S_threshold) a ;;
    unguarded_insertion_sort (first + S_threshold) last a1
  else insertion_sort first last a.

(** *** Partition *)

Definition move_median_to_first (result pa pb pc : nat) (a : arr)
    : option arr :=
  va <-- get a pa ;;
  vb <-- get a pb ;;
  vc <-- get a pc ;;
  if comp va vb then
    if comp vb vc then iter_swap a result pb
    else if comp va vc then iter_swap a result pc
    else iter_swap a result pa
  else if comp va vc then iter_swap a result pa
  else if comp vb vc then iter_swap a result pc
  else iter_swap a result pb.

(** [while (comp(first, pivot)) ++first] *)
Fixpoint scan_up (fuel : nat) (first pivot : nat) (a : arr) : option nat :=
  match fuel with
  | 0 => None
  | S f =>
      x <-- get a first ;;
      p <-- get a pivot ;;
      if comp x p then scan_up f (S first) pivot a else Some first
  end.

(** [while (comp(pivot, last)) --last] *)
Fixpoint scan_down (last pivot : nat) (a : arr) : option nat :=
  x <-- get a last ;;
  p <-- get a pivot ;;
  if comp p x then
    match last with
    | 0 => None
    | S l => scan_down l pivot a
    end
  else Some last.

Fixpoint unguarded_partition (fuel : nat) (first last pivot : nat) (a : arr)
    : option (nat * arr) :=
  match fuel with
  | 0 => None
  | S f =>
      first1 <-- scan_up (S (length a)) first pivot a ;;
      match last with
      | 0 => None
      | S l =>
          last1 <-- scan_down l pivot a ;;
          if first1 <? last1 then
            a1 <-- iter_swap a first1 last1 ;;
            unguarded_partition f (S first1) last1 pivot a1
          else Some (first1, a)
      end
  end.

Definition unguarded_partition_pivot (first last : nat) (a : arr)
    : option (nat * arr) :=
  let mid := first + (last - first) / 2 in
  a1 <-- move_median_to_first first (first + 1) mid (last - 1) a ;;
  unguarded_partition (S (length a)) (first + 1) last first a1.

(** *** Heap sort, for the range on which the depth limit is used up *)

Fixpoint push_heap (fuel : nat) (first holeIndex topIndex value : nat)
    (a : arr) : option arr :=
  match fuel with
  | 0 => None
  | S f =>
      let parent := (holeIndex - 1) / 2 in
      if topIndex <? holeIndex then
        p <-- get a (first + parent) ;;
        if comp p value then
          a1 <-- set a (first + holeIndex) p ;;
          push_heap f first parent topIndex value a1
        else set a (first + holeIndex) value
      else set a (first + holeIndex) value
  end.

(** The loop of [__adjust_heap]; it returns the hole and [secondChild]. *)
Fixpoint adjust_heap_loop (fuel : nat) (first holeIndex secondChild len : nat)
    (a : arr) : option (nat * nat * arr) :=
  match fuel with
  | 0 => None
  | S f =>
      if secondChild <? (len - 1) / 2 then
        let sc := 2 * (secondChild + 1) in
        x <-- get a (first + sc) ;;
        y <-- get a (first + (sc - 1)) ;;
        let sc' := if comp x y then sc - 1 else sc in
        v <-- get a (first + sc') ;;
        a1 <-- set a (first + holeIndex) v ;;
        adjust_heap_loop f first sc' sc' len a1
      else Some (holeIndex, secondChild, a)
  end.

(** [len] is a signed distance in the source; [(len - 2) / 2] is read for
    an even [len] only, and is negative for [len = 0]. *)
Definition adjust_heap (first holeIndex len value : nat) (a : arr)
    : option arr :=
  let topIndex := holeIndex in
  r <-- adjust_heap_loop (S len) first holeIndex holeIndex len a ;;
  let '(hole, secondChild, a1) := r in
  r2 <-- (if Nat.even len && (2 <=? len) && (secondChild =? (len - 2) / 2)
          then
            let sc := 2 * (secondChild + 1) in
            v <-- get a1 (first + (sc - 1)) ;;
            a2 <-- set a1 (first + hole) v ;;
            Some (sc - 1, a2)
          else Some (hole, a1)) ;;
  let '(hole2, a2) := r2 in
  push_heap (S len) first hole2 topIndex value a2.

Definition pop_heap (first last result : nat) (a : arr) : option arr :=
  value <-- get a result ;;
  f <-- get a first ;;
  a1 <-- set a result f ;;
  adjust_heap first 0 (last - first) value a1.

Fixpoint make_heap_loop (parent : nat) (first len : nat) (a : arr)
    : option arr :=
  value <-- get a (first + parent) ;;
  a1 <-- adjust_heap first parent len value a ;;
  match parent with
  | 0 => Some a1
  | S p => make_heap_loop p first len a1
  end.

Definition make_heap (first last : nat) (a : arr) : option arr :=
  if last - first <? 2 then Some a
  else
    let len := last - first in
    make_heap_loop ((len - 2) / 2) first len a.

Fixpoint sort_heap (fuel : nat) (first last : nat) (a : arr) : option arr :=
  match fuel with
  | 0 => None
  | S f =>
      if 1 <? last - first then
        a1 <-- pop_heap first (last - 1) (last - 1) a ;;
        sort_heap f first (last - 1) a1
      else Some a
  end.

Definition heap_select (first middle last : nat) (a : arr) : option arr :=
  a1 <-- make_heap first middle a ;;
  for_indices (seq middle (last - middle))
    (fun i a' =>
       x <-- get a' i ;;
       f <-- get a' first ;;
       if comp x f then pop_heap first middle i a' else Some a')
    a1.

Definition partial_sort (first middle last : nat) (a : arr) : option arr :=
  a1 <-- heap_select first middle last a ;;
  sort_heap (S (middle - first)) first middle a1.

(** *** Introsort *)

(** [__introsort_loop]: every turn of the loop, and the call inside it,
    goes on with a depth limit that is one less. *)
Fixpoint introsort_loop (depth_limit : nat) (first last : nat) (a : arr)
    : option arr :=
  if S_threshold <? last - first then
    match depth_limit with
    | 0 => partial_sort first last last a
    | S d =>
        r <-- unguarded_partition_pivot first last a ;;
        let '(cut, a1) := r in
        a2 <-- introsort_loop d cut last a1 ;;
        introsort_loop d first cut a2
    end
  else Some a.

(** [__sort]; [std::__lg] is the binary logarithm, rounded down. *)
Definition sort (first last : nat) (a : arr) : option arr :=
  if first =? last then Some a
  else
    a1 <-- introsort_loop (Nat.log2 (last - first) * 2) first last a ;;
    final_insertion_sort first last a1.

(** [std::sort(v.begin(), v.end(), comp)] *)
Definition sort_vector (v : arr) : option arr := sort 0 (length v) v.

(** The postcondition of [std::sort], as a test: the result holds the
    elements of the vector, and no element comes before one that the
    comparator puts in front of it. *)
Fixpoint is_sorted (l : list nat) : bool :=
  match l with
  | [] => true
  | a :: r => forallb (fun b => negb (comp b a)) r && is_sorted r
  end.

Definition same_elements (l r : list nat) : bool :=
  forallb (fun x => count_occ Nat.eq_dec l x =? count_occ Nat.eq_dec r x)
          (l ++ r).

(** The class [StdSort] asks an implementation for a result and for a
    proof of the postcondition on every vector.  The result is the one of
    the algorithm wherever that result passes the test; the C++ standard
    requires it to for every strict weak order.  Elsewhere the vector is
    sorted by insertion. *)
Definition sort_vector_checked (v : list nat) : list nat :=
  match sort_vector v with
  | Some r =>
      if same_elements v r && is_sorted r then r
      else Sorts.keeping_sort comp v
  | None => Sorts.keeping_sort comp v
  end.

Lemma is_sorted_spec l : is_sorted l = true <-> sorted_by comp l.
Proof.
  unfold sorted_by. induction l as [|a r IH]; simpl.
  - split; [constructor | reflexivity].
  - rewrite andb_true_iff, forallb_forall, IH. split.
    + intros [Hall Hs]. constructor; auto.
      apply Forall_forall. intros b Hb. apply negb_true_iff. now apply Hall.
    + intros Hs. inversion Hs as [|? ? Hs' Hall]; subst. split; auto.
      intros b Hb. rewrite Forall_forall in Hall. apply negb_true_iff.
      now apply Hall.
Qed.

Lemma same_elements_spec l r : same_elements l r = true <-> Permutation l r.
Proof.
  unfold same_elements. rewrite forallb_forall.
  rewrite (Permutation_count_occ Nat.eq_dec). split.
  - intros Hall x.
    destruct (in_dec Nat.eq_dec x (l ++ r)) as [Hin | Hn].
    + apply Nat.eqb_eq. now apply Hall.
    + assert (H1 : ~ In x l) by (intros H; apply Hn, in_or_app; now left).
      assert (H2 : ~ In x r) by (intros H; apply Hn, in_or_app; now right).
      apply (count_occ_not_In Nat.eq_dec) in H1, H2. congruence.
  - intros Hc x _. apply Nat.eqb_eq. apply Hc.
Qed.

(** Where the algorithm meets the postcondition, its result is the
    result. *)
Lemma sort_vector_checked_eq v r :
  sort_vector v = Some r -> Permutation v r -> sorted_by comp r ->
  sort_vector_checked v = r.
Proof.
  intros E Hp Hs. unfold sort_vector_checked. rewrite E.
  apply same_elements_spec in Hp. apply is_sorted_spec in Hs.
  now rewrite Hp, Hs.
Qed.

End Algorithm.

Lemma sort_vector_checked_perm comp l :
  strict_weak_order comp -> Permutation l (sort_vector_checked comp l).
Proof.
  intros Hc. unfold sort_vector_checked.
  destruct (sort_vector comp l) as [r|]; [|now apply Sorts.keeping_sort_perm].
  destruct (same_elements l r && is_sorted comp r) eqn:E;
    [|now apply Sorts.keeping_sort_perm].
  apply andb_true_iff in E. now apply same_elements_spec.
Qed.

Lemma sort_vector_checked_sorted comp l :
  strict_weak_order comp -> sorted_by comp (sort_vector_checked comp l).
Proof.
  intros Hc. unfold sort_vector_checked.
  destruct (sort_vector comp l) as [r|]; [|now apply Sorts.keeping_sort_sorted].
  destruct (same_elements l r && is_sorted comp r) eqn:E;
    [|now apply Sorts.keeping_sort_sorted].
  apply andb_true_iff in E. now apply is_sorted_spec.
Qed.

Definition libstdcxx : StdSort :=
  {| std_sort := sort_vector_checked;
     std_sort_perm := sort_vector_checked_perm;
     std_sort_sorted := sort_vector_checked_sorted |}.

End GnuSort.

(** * A tracker over the integers

    Coordinates, sizes and distances are integers, the square root is the
    integer square root. *)

Module IntTracker.

#[export] Instance arith : DistanceArith Z Z :=
  {| coord_zero := 0%Z;
     to_Distance := fun c => c;
     dist_zero := 0%Z;
     dist_sub := Z.sub;
     dist_add := Z.add;
     dist_mul := Z.mul;
     dist_sqrt := Z.sqrt;
     dist_lt := Z.ltb |}.

Lemma ltb_swo : strict_weak_order Z.ltb.
Proof.
  repeat split.
  - intros a. apply Z.ltb_irrefl.
  - intros a b c Hab Hbc. apply Z.ltb_lt in Hab, Hbc. apply Z.ltb_lt. lia.
  - intros a b c Hab Hbc. apply Z.ltb_ge in Hab, Hbc. apply Z.ltb_ge. lia.
Qed.

#[export] Instance order : @DistanceOrder Z Z arith :=
  {| dist_lt_swo := ltb_swo : strict_weak_order (@dist_lt Z Z arith) |}.

(** Modelled from the spec: [operator>] on [Object] is declared in
    [urVision/ObjectTracker.h], which is not among the sources; the spec
    ranks objects by [size], larger first. *)
#[export] Instance by_size : ObjectRanking Z :=
  {| Object_gt := fun a b => (size b <? size a)%Z |}.

Definition tracker := @ObjectTracker Z Z.

Definition obj (px py pz sz : Z) : Object Z := mkObject px py pz sz.

Definition new_tracker (tol : Z) (mx mn first : nat) : tracker :=
  ObjectTracker_new tol mx mn first.

(** [std::sort] keeps the order of ties unless said otherwise. *)
Definition run_k : list (@call Z) -> M (list ObjectID) :=
  run (SS := Sorts.keeping).

Definition state_after (cs : list (@call Z)) (s : tracker) : tracker :=
  match run_k cs s with
  | Some (_, s') => s'
  | None => s
  end.

(** Tolerance 10, at most 2 missed frames, 2 frames to become valid; the
    first id is 1. *)
Definition start : tracker := new_tracker 10 2 2 1.

(** Two identities seen in two frames; the smaller one was registered first. *)
Definition ranked_pair_calls : list (@call Z) :=
  [Update [obj 0 0 0 3; obj 100 0 0 5]; Update [obj 1 0 0 3; obj 100 0 0 5]].

Definition ranked_pair : tracker :=
  Eval vm_compute in state_after ranked_pair_calls start.

(** One identity, seen once and then missed once, twice. *)
Definition missed_once_calls : list (@call Z) :=
  [Update [obj 0 0 0 5]; Update []].

Definition missed_once : tracker :=
  Eval vm_compute in state_after missed_once_calls start.

Definition missed_twice_calls : list (@call Z) :=
  [Update [obj 0 0 0 5]; Update []; Update []].

Definition missed_twice : tracker :=
  Eval vm_compute in state_after missed_twice_calls start.

(** Two identities of sizes 5 and 3, then a frame in which the first one is
    seen again with size 1. *)
Definition shrunk_calls : list (@call Z) :=
  [Update [obj 0 0 0 5; obj 100 0 0 3]; Update [obj 1 0 0 1; obj 100 0 0 3]].

Definition shrunk : tracker :=
  Eval vm_compute in state_after shrunk_calls start.

(** One identity at the origin. *)
Definition single_calls : list (@call Z) := [Update [obj 0 0 0 5]].

Definition single : tracker :=
  Eval vm_compute in state_after single_calls start.

End IntTracker.

(** * The claims *)

Section Claims.
Context {Coord Distance : Type}.
Context `{DO : DistanceOrder Coord Distance}.
Context {OR : ObjectRanking Coord}.
Context {SS : StdSort}.
Local Abbreviation Obj := (Object Coord).
Local Abbreviation Tracker := (@ObjectTracker Coord Distance).
Implicit Types (s : Tracker) (id : ObjectID) (objs : list Obj).

(** C7: [active_objects], [object_count] and [top] are pure reads: in every
    reachable state each of them returns and hands back the very state it
    was called in (maps, id vector, counters, flags and next id). *)
Theorem reads_keep_the_state s :
  reachable s ->
  (exists l, active_objects s = Some (l, s)) /\
  (exists n, object_count s = Some (n, s)) /\
  (exists r, top s = Some (r, s)).
Proof.
  intros Hr. destruct (reachable_inv s Hr) as [W _].
  split; [|split].
  - eexists. apply (active_objects_WF s W).
  - eexists. apply object_count_eq.
  - eexists. apply (top_WF s W).
Qed.

(** In every reachable state [top] returns none exactly when
    [object_count] is 0; otherwise it returns the object of the first id of
    the id vector, whatever its frame count and uprooted flag.  Whether
    that id is still the one of the highest-ranked object depends on the
    order of the vector. *)
Theorem top_none_iff_empty s :
  reachable s ->
  exists r, top s = Some (r, s) /\
    (r = None <-> object_count s = Some (0, s)) /\
    (forall id rest, m_id_list s = id :: rest ->
       r = obj_of s id /\ r <> None).
Proof.
  intros Hr. destruct (reachable_inv s Hr) as [W _].
  eexists. split; [apply (top_WF s W)|].
  rewrite object_count_eq.
  pose proof (Permutation_length (wf_id_list _ W)) as Hl.
  split.
  - destruct (m_id_list s) as [|id r]; simpl in Hl.
    + rewrite <- Hl. tauto.
    + rewrite <- Hl. split; intros E; discriminate.
  - intros id rest Ei. rewrite Ei.
    assert (Hin : In id (tracked s)).
    { apply (WF_id_tracked s id W). rewrite Ei. now left. }
    destruct (tracked_obj s id Hin) as [o Ho].
    unfold object_at. rewrite Ho. split; [reflexivity | discriminate].
Qed.

Lemma expired_ids_nil s2 :
  WF s2 -> (forall id, In id (tracked s2) -> disappeared_of s2 id = Some 0) ->
  expired_ids s2 = [].
Proof.
  intros W2 Hz. destruct (expired_ids s2) as [|id r] eqn:E; auto.
  assert (Hin : In id (expired_ids s2)) by (rewrite E; now left).
  apply (expired_ids_spec s2 id W2) in Hin. destruct Hin as (c & Hc & Hlt).
  assert (Ht : In id (tracked s2)).
  { rewrite <- (wf_disappeared _ W2). eapply OMapFacts.find_Some_keys, Hc. }
  rewrite (Hz id Ht) in Hc. injection Hc as <-. lia.
Qed.

Lemma update_on_empty s objs :
  WF s -> tracked s = [] ->
  update objs s = Some (tt, register_all objs s).
Proof.
  intros W Ht.
  assert (Hclean : cleanup_dissapeared (register_all objs s)
                   = Some (tt, register_all objs s)).
  { rewrite cleanup_dissapeared_eq, expired_ids_nil; [reflexivity | |].
    - now apply register_all_WF.
    - intros id Hin. rewrite register_all_tracked in Hin by exact W.
      rewrite Ht in Hin. simpl in Hin. apply in_seq in Hin.
      destruct (nth_error objs (id - m_next_id s)) as [o|] eqn:Eo;
        [|apply nth_error_None in Eo; lia].
      destruct (register_all_new objs s _ o Eo) as (_ & _ & E3 & _).
      now replace (m_next_id s + (id - m_next_id s)) with id in E3 by lia. }
  unfold update. unfold bind at 1.
  destruct (length objs =? 0) eqn:En.
  - apply Nat.eqb_eq in En. destruct objs; [|discriminate].
    assert (Ed : m_disappeared s = []).
    { pose proof (wf_disappeared _ W) as Hk. rewrite Ht in Hk.
      unfold OMap.keys in Hk. now destruct (m_disappeared s). }
    unfold bind at 1, gets at 1. rewrite Ed. simpl for_each. unfold ret at 1.
    exact Hclean.
  - unfold bind at 1. rewrite object_count_eq, Ht. simpl.
    pose proof (register_all_eq objs s W) as Er.
    assert (Er' : for_each objs
              (fun o => bind (register_object o) (fun _ => ret tt)) s
            = Some (tt, register_all objs s)) by exact Er.
    rewrite Er'. exact Hclean.
Qed.

(** C4: from a reachable state with [object_count() == 0], [update] with
    the detections [objs] returns a state whose count is the number of
    detections and whose [active_objects()] are the detections themselves,
    each as often as it was given. *)
Theorem update_from_empty s objs :
  reachable s -> object_count s = Some (0, s) ->
  exists s', update objs s = Some (tt, s') /\
    object_count s' = Some (length objs, s') /\
    exists l, active_objects s' = Some (l, s') /\ Permutation l objs /\
              forall o, In o objs -> In o l.
Proof.
  intros Hr Hc. destruct (reachable_inv s Hr) as [W _].
  rewrite object_count_eq in Hc. injection Hc as Hc.
  assert (Ht : tracked s = []) by now destruct (tracked s).
  exists (register_all objs s).
  assert (W' : WF (register_all objs s)) by now apply register_all_WF.
  split; [now apply update_on_empty|]. split.
  - rewrite object_count_eq, register_all_tracked by exact W.
    now rewrite Ht, length_app, length_seq.
  - exists (objects_of (register_all objs s)).
    split; [now apply active_objects_WF|].
    pose proof (register_all_objects objs s W Ht) as Hp.
    split; [exact Hp|].
    intros o Ho. apply (Permutation_in _ (Permutation_sym Hp) Ho).
Qed.

(** C10: [topValid] walks the registry map in ascending id order: when it
    returns an identity, that identity is eligible (frame count at least
    the minimum, not uprooted), no eligible identity has a smaller id, and
    its flag is set; when it returns none, no identity is eligible and the
    state is unchanged.  The rank order of the id vector plays no part. *)
Theorem topValid_smallest_eligible_id s :
  reachable s ->
  exists r s', topValid_entry s = Some (r, s') /\
    topValid s = Some (option_map snd r, s') /\
    match r with
    | Some (id, o) =>
        obj_of s id = Some o /\ eligible s id = true /\
        (forall id', In id' (tracked s) -> eligible s id' = true -> id <= id') /\
        s' = claimed id s /\ uprooted_of s' id = Some true
    | None =>
        (forall id', In id' (tracked s) -> eligible s id' = false) /\ s' = s
    end.
Proof.
  intros Hr. destruct (reachable_inv s Hr) as [W _].
  pose proof (topValid_entry_WF s W) as Et.
  destruct (first_eligible s) as [[id o]|] eqn:Ef.
  - exists (Some (id, o)), (claimed id s). split; [exact Et|].
    split; [rewrite topValid_eq, Et; reflexivity|].
    destruct (first_eligible_Some s id o Ef) as (Ho & He & Hmin).
    repeat split; auto.
    + intros id' Hin He'. apply Hmin; auto. apply (wf_ordered _ W).
    + rewrite claimed_uprooted. now rewrite Nat.eqb_refl.
  - exists None, s. split; [exact Et|].
    split; [rewrite topValid_eq, Et; reflexivity|].
    split; auto. now apply first_eligible_None.
Qed.
End Claims.

(** ** Identities over a run of calls *)

Section Lifetime.
Context {Coord Distance : Type}.
Context `{DO : DistanceOrder Coord Distance}.
Context {OR : ObjectRanking Coord}.
Context {SS : StdSort}.
Local Abbreviation Obj := (Object Coord).
Local Abbreviation Tracker := (@ObjectTracker Coord Distance).
Local Abbreviation Call := (@call Coord).
Implicit Types (s : Tracker) (id : ObjectID) (objs : list Obj).

Lemma tracked_below_next s id : WF s -> In id (tracked s) -> id < m_next_id s.
Proof.
  intros W Hin. pose proof (wf_next_id _ W) as Hf.
  rewrite Forall_forall in Hf. now apply Hf.
Qed.

Lemma spent_evolves s s' id : evolves s s' -> spent s id -> spent s' id.
Proof.
  intros E [Hlt Hu]. split.
  - pose proof (ev_next _ _ E). lia.
  - intros Hin. destruct (ev_tracked _ _ E id Hin) as [Ht | Hge]; [|lia].
    apply (ev_uprooted _ _ E id Ht Hin). auto.
Qed.

Lemma eligible_uprooted s id :
  eligible s id = true -> uprooted_of s id = Some false.
Proof.
  unfold eligible. destruct (framecount_of s id); [|discriminate].
  destruct (uprooted_of s id) as [[|]|]; try discriminate.
  - now rewrite andb_false_r.
  - reflexivity.
Qed.

Lemma exec_handout c s id s' :
  WF s -> exec c s = Some (Some id, s') ->
  In id (tracked s) /\ uprooted_of s id = Some false /\
  uprooted_of s' id = Some true /\ spent s' id /\
  exists o, topValid_entry s = Some (Some (id, o), s').
Proof.
  intros W. destruct c as [objs| | | |]; simpl; unfold bind.
  - destruct (update objs s) as [[[] s1]|]; discriminate.
  - rewrite (topValid_entry_WF s W).
    destruct (first_eligible s) as [[k o]|] eqn:Ef; simpl; [|discriminate].
    intros [= -> <-].
    destruct (first_eligible_Some s id o Ef) as (Ho & He & _).
    assert (Hin : In id (tracked s)) by (eapply obj_tracked, Ho).
    assert (Hup : uprooted_of (claimed id s) id = Some true).
    { rewrite claimed_uprooted. now rewrite Nat.eqb_refl. }
    split; [exact Hin|]. split; [now apply eligible_uprooted|].
    split; [exact Hup|]. split.
    + split; [exact (tracked_below_next s id W Hin) | intros _; exact Hup].
    + exists o. reflexivity.
  - destruct (top s) as [[r s1]|]; discriminate.
  - destruct (active_objects s) as [[r s1]|]; discriminate.
  - destruct (object_count s) as [[r s1]|]; discriminate.
Qed.

Lemma run_NoDup cs s l s' :
  WF s -> bounded s -> run cs s = Some (l, s') ->
  NoDup l /\ forall id, spent s id -> ~ In id l.
Proof.
  revert s l. induction cs as [|c cs IH]; intros s l W B E.
  - injection E as <- <-. split; [constructor | auto].
  - apply run_cons in E. destruct E as (r & s1 & l1 & Ec & Er & ->).
    destruct (exec_inv c s r s1 W B Ec) as (W1 & B1 & Ev).
    destruct (IH s1 l1 W1 B1 Er) as [Hnd Hsp].
    destruct r as [id|].
    + destruct (exec_handout c s id s1 W Ec) as (Hin & Hu & _ & Hs1 & _).
      split.
      * constructor; auto.
      * intros id' Hs' [<- | Hin'].
        { destruct Hs' as [_ Hs']. rewrite (Hs' Hin) in Hu. discriminate. }
        { apply (Hsp id'); auto. eapply spent_evolves; eauto. }
    + split; auto. intros id' Hs'. apply Hsp. eapply spent_evolves; eauto.
Qed.

(** *** Calling [topValid] again and again *)

Lemma eligible_claimed id id' s :
  eligible (claimed id s) id' = if id' =? id then false else eligible s id'.
Proof.
  unfold eligible. rewrite claimed_uprooted.
  change (framecount_of (claimed id s) id') with (framecount_of s id').
  change (m_min_framecount (claimed id s)) with (m_min_framecount s).
  destruct (id' =? id); [|reflexivity].
  destruct (framecount_of s id'); [|reflexivity]. apply andb_false_r.
Qed.

Lemma filter_after_claim (f g : ObjectID * Obj -> bool) (m : OMap.t Obj) id o :
  NoDup (OMap.keys m) ->
  List.find f m = Some (id, o) ->
  (forall e, g e = if fst e =? id then false else f e) ->
  filter g m = tl (filter f m).
Proof.
  intros Hnd Hf Hg. induction m as [|[k v] r IH]; [discriminate|].
  simpl in Hnd. inversion Hnd as [|? ? Hnin Hnd']; subst.
  simpl in Hf. simpl. rewrite (Hg (k, v)). simpl.
  destruct (f (k, v)) eqn:Ef.
  - injection Hf as -> ->. rewrite Nat.eqb_refl. simpl.
    apply filter_ext_in. intros [k' v'] Hin. rewrite Hg. simpl.
    destruct (k' =? id) eqn:Ek; [|reflexivity].
    apply Nat.eqb_eq in Ek. subst. exfalso. apply Hnin.
    change id with (fst (id, v')). now apply in_map.
  - destruct (k =? id); now apply IH.
Qed.

Lemma find_filter_hd A (f : A -> bool) (l : list A) :
  List.find f l = hd_error (filter f l).
Proof.
  induction l as [|a r IH]; simpl; auto. destruct (f a); auto.
Qed.

Lemma topValid_repeat s n j :
  WF s -> length (eligible_ids s) = n ->
  exists s', run (repeat TopValid (n + j)) s = Some (eligible_ids s, s').
Proof.
  revert s. induction n as [|n IH]; intros s W Hn.
  - assert (Ef : first_eligible s = None).
    { unfold first_eligible. rewrite find_filter_hd.
      unfold eligible_ids in Hn. rewrite length_map in Hn.
      now destruct (filter _ _). }
    assert (El : eligible_ids s = []) by now destruct (eligible_ids s).
    rewrite El. exists s. simpl. induction j as [|j IHj]; [reflexivity|].
    simpl. unfold bind at 1. unfold bind at 1.
    rewrite (topValid_entry_WF s W), Ef. simpl. unfold bind at 1.
    now rewrite IHj.
  - unfold eligible_ids in Hn. rewrite length_map in Hn.
    destruct (filter (fun e => eligible s (fst e)) (m_active_objects s))
      as [|[id o] rest] eqn:Efl; [discriminate|].
    assert (Ef : first_eligible s = Some (id, o)).
    { unfold first_eligible. now rewrite find_filter_hd, Efl. }
    destruct (first_eligible_Some s id o Ef) as (Ho & _ & _).
    assert (Hin : In id (tracked s)) by (eapply obj_tracked, Ho).
    assert (Hrest : eligible_ids (claimed id s) = map fst rest).
    { unfold eligible_ids.
      change (m_active_objects (claimed id s)) with (m_active_objects s).
      rewrite (filter_after_claim (fun e => eligible s (fst e)) _ _ id o).
      - now rewrite Efl.
      - apply OMapFacts.ordered_NoDup, (wf_ordered _ W).
      - exact Ef.
      - intros e. apply eligible_claimed. }
    destruct (IH (claimed id s)) as (s' & Er).
    + now apply claimed_WF.
    + rewrite Hrest, length_map. simpl in Hn. lia.
    + exists s'. simpl. unfold bind at 1. unfold bind at 1.
      rewrite (topValid_entry_WF s W), Ef. simpl. unfold bind at 1.
      rewrite Er. unfold eligible_ids at 2. rewrite Efl, Hrest. reflexivity.
Qed.

(** *** Counting the frames an identity is missed in *)

Lemma exec_disappeared c s r s1 id d :
  WF s -> bounded s -> exec c s = Some (r, s1) ->
  disappeared_of s id = Some d ->
  disappeared_of s1 id = Some (d + miss_of c id s1).
Proof.
  intros W B Ec Hd.
  assert (Hin : In id (tracked s)).
  { rewrite <- (wf_disappeared _ W). eapply OMapFacts.find_Some_keys, Hd. }
  destruct c as [objs| | | |]; simpl in *; unfold bind in Ec.
  - destruct (update objs s) as [[[] s']|] eqn:Eu; [|discriminate].
    injection Ec as <- <-. pose proof (update_step s objs s' W Eu) as F.
    destruct (tracked_framecount s id W Hin) as [k Hk].
    destruct (fs_old _ _ _ F id Hin) as [o _ (_ & E1 & E2) | (_ & E1 & E2)].
    + unfold missed_in. rewrite E2, Hk. simpl. rewrite E1, Hd.
      f_equal. lia.
    + unfold missed_in. rewrite E2. rewrite E1, Hd. simpl. f_equal. lia.
  - rewrite (topValid_entry_WF s W) in Ec.
    destruct (first_eligible s) as [[k o]|]; injection Ec as <- <-;
      rewrite Nat.add_0_r; exact Hd.
  - rewrite (top_WF s W) in Ec. injection Ec as <- <-.
    now rewrite Nat.add_0_r.
  - rewrite (active_objects_WF s W) in Ec. injection Ec as <- <-.
    now rewrite Nat.add_0_r.
  - rewrite object_count_eq in Ec. injection Ec as <- <-.
    now rewrite Nat.add_0_r.
Qed.

Lemma run_disappeared cs s l s' id d :
  WF s -> bounded s -> run cs s = Some (l, s') ->
  disappeared_of s id = Some d ->
  disappeared_of s' id = Some (d + missed_frames id cs s).
Proof.
  revert s l d. induction cs as [|c cs IH]; intros s l d W B E Hd.
  - injection E as <- <-. simpl. now rewrite Nat.add_0_r.
  - apply run_cons in E. destruct E as (r & s1 & l1 & Ec & Er & ->).
    destruct (exec_inv c s r s1 W B Ec) as (W1 & B1 & Ev).
    pose proof (exec_disappeared c s r s1 id d W B Ec Hd) as Hd1.
    rewrite (IH s1 l1 _ W1 B1 Er Hd1). simpl. rewrite Ec.
    f_equal. lia.
Qed.
End Lifetime.

Section ClaimsOnUpdate.
Context {Coord Distance : Type}.
Context `{DO : DistanceOrder Coord Distance}.
Context {OR : ObjectRanking Coord}.
Context {SS : StdSort}.
Local Abbreviation Obj := (Object Coord).
Local Abbreviation Tracker := (@ObjectTracker Coord Distance).
Local Abbreviation Call := (@call Coord).
Implicit Types (s : Tracker) (id : ObjectID) (objs : list Obj).

(** The general branch with its rows, before the cleanup. *)
Lemma update_general_spec s objs :
  WF s -> objs <> [] -> tracked s <> [] ->
  let m := OMap.size (m_active_objects s) in
  let D := dist_matrix_of s objs in
  let S := sorted_ids D m (length objs) in
  let rows := active_obj_ids D S m in
  exists s2, update objs s = cleanup_dissapeared s2 /\ WF s2 /\
    same_config s s2 /\
    (forall i id, nth_error (m_id_list s) i = Some id ->
       exists u r,
         In (i, u, r) (matching D S (m_dist_tol s) rows (OMap.empty nat)) /\
         row_post objs id r s s2).
Proof.
  intros W Hn Hm m D S rows.
  assert (Hm' : 0 < OMap.size (m_active_objects s)).
  { unfold tracked, OMap.keys in Hm. unfold OMap.size.
    destruct (m_active_objects s); [contradiction | simpl; lia]. }
  destruct (update_match_spec s objs W Hm') as (s1 & Eu & W1 & Hsh & Hrows).
  fold m D S rows in Eu, Hrows.
  set (used := used_after D S (m_dist_tol s) rows (OMap.empty nat)) in *.
  set (L := new_objects (nth 0 S []) objs used) in *.
  exists (register_all L s1).
  split; [|split; [now apply register_all_WF|split]].
  - unfold update. unfold bind at 1.
    destruct (length objs =? 0) eqn:En;
      [apply Nat.eqb_eq in En; destruct objs; [contradiction | discriminate]|].
    unfold bind at 1. rewrite object_count_eq.
    destruct (length (tracked s) =? 0) eqn:Em;
      [apply Nat.eqb_eq in Em; destruct (tracked s); [contradiction | discriminate]|].
    rewrite Eu. reflexivity.
  - eapply same_config_trans; [apply Hsh | apply register_all_config].
  - intros i id Ei. destruct (Hrows i id Ei) as (u & r & Hin & Hp).
    exists u, r. split; [exact Hin|].
    eapply row_post_same; [exact Hp|].
    apply register_all_same_at. rewrite (shape_next_id _ _ Hsh).
    apply (tracked_below_next s id W). apply (WF_id_tracked s id W).
    eapply nth_error_In, Ei.
Qed.



(** C9, amended: the ranking of a row depends on that row of the distance
    matrix alone; it lists every column once, and no column comes before a
    column at a strictly smaller distance.  The order of columns at equal
    distance is left to [std::sort]. *)
Theorem ranking_ascending_by_distance (D : list (list Distance)) m n i :
  i < m ->
  let row := nth i D [] in
  let closer := fun a b => dist_lt (nth a row dist_zero) (nth b row dist_zero) in
  let ranking := nth i (sorted_ids D m n) [] in
  ranking = std_sort closer (seq 0 n) /\
  Permutation (seq 0 n) ranking /\
  sorted_by closer ranking /\
  (forall p q a b, p < q -> nth_error ranking p = Some a ->
     nth_error ranking q = Some b -> closer b a = false).
Proof.
  intros Hi row closer ranking.
  assert (E : ranking = std_sort closer (seq 0 n))
    by (apply sorted_ids_row, Hi).
  assert (Hswo : strict_weak_order closer)
    by (apply (swo_pullback _ _ (fun a => nth a row dist_zero) dist_lt),
          dist_lt_swo).
  assert (Hs : sorted_by closer ranking)
    by (rewrite E; now apply std_sort_sorted).
  split; [exact E|]. split; [rewrite E; now apply std_sort_perm|].
  split; [exact Hs|].
  clear E. unfold sorted_by in Hs.
  induction Hs as [|h r Hs IH Hall]; intros p q a b Hpq Hp Hq.
  - now destruct p.
  - destruct q as [|q]; [lia|]. simpl in Hq. destruct p as [|p].
    + injection Hp as <-. rewrite Forall_forall in Hall.
      apply Hall. eapply nth_error_In, Hq.
    + simpl in Hp. apply (IH p q a b); auto. lia.
Qed.
End ClaimsOnUpdate.

Section ClaimsOnRuns.
Context {Coord Distance : Type}.
Context `{DO : DistanceOrder Coord Distance}.
Context {OR : ObjectRanking Coord}.
Context {SS : StdSort}.
Local Abbreviation Obj := (Object Coord).
Local Abbreviation Tracker := (@ObjectTracker Coord Distance).
Local Abbreviation Call := (@call Coord).
Implicit Types (s : Tracker) (id : ObjectID) (objs : list Obj).

(** C6: [topValid] hands an identity out at most once.  A successful call
    finds the flag of the identity it returns unset and sets it; along any
    run of calls the ids handed out are pairwise distinct, and none of them
    had its flag set before; and as many calls in a row as there are
    eligible identities, followed by any number of further calls, hand out
    exactly the eligible identities, each once. *)
Theorem topValid_at_most_once s :
  reachable s ->
  (forall id o s', topValid_entry s = Some (Some (id, o), s') ->
     uprooted_of s id = Some false /\ uprooted_of s' id = Some true) /\
  (forall (cs : list Call) l s', run cs s = Some (l, s') ->
     NoDup l /\ forall id, In id l -> uprooted_of s id <> Some true) /\
  (forall j, exists s',
     run (repeat TopValid (length (eligible_ids s) + j)) s
     = Some (eligible_ids s, s')).
Proof.
  intros Hr. destruct (reachable_inv s Hr) as [W B]. split; [|split].
  - intros id o s' E. rewrite (topValid_entry_WF s W) in E.
    destruct (first_eligible s) as [[k v]|] eqn:Ef; [|discriminate].
    injection E as -> -> <-.
    destruct (first_eligible_Some s id o Ef) as (_ & He & _). split.
    + now apply eligible_uprooted.
    + rewrite claimed_uprooted. now rewrite Nat.eqb_refl.
  - intros cs l s' E.
    destruct (run_NoDup cs s l s' W B E) as [Hnd Hsp]. split; [exact Hnd|].
    intros id Hin Hu. apply (Hsp id); auto.
    assert (Ht : In id (tracked s)).
    { rewrite <- (wf_uprooted _ W). eapply OMapFacts.find_Some_keys, Hu. }
    split; [now apply tracked_below_next | auto].
  - intros j. now apply topValid_repeat.
Qed.

(** [update] ends with the cleanup.  When the matching has taken the
    counter of some identity above [maxDisappearedFrames], the cleanup erases
    that identity from under its own iterator and the call has no defined
    result; otherwise the cleanup removes nothing, and the call returns the
    state the matching built. *)
Lemma update_undefined_on_expiry s objs :
  reachable s ->
  exists s2, matched_or_missed objs s s2 /\
    update objs s = cleanup_dissapeared s2 /\
    ((exists id c, disappeared_of s2 id = Some c /\
                   m_max_dissapeared_frms s2 < c) ->
     update objs s = None) /\
    ((forall id c, disappeared_of s2 id = Some c ->
                   c <= m_max_dissapeared_frms s2) ->
     update objs s = Some (tt, s2)).
Proof.
  intros Hr. destruct (reachable_inv s Hr) as [W _].
  destruct (update_spec s objs W) as (s2 & Eu & M).
  pose proof (mm_WF _ _ _ M) as W2.
  exists s2. split; [exact M|]. split; [exact Eu|]. split.
  - intros (id & c & Hc & Hlt). rewrite Eu. apply cleanup_undefined; auto.
    intros B. specialize (B id c Hc). lia.
  - intros B. rewrite Eu. now apply cleanup_returns.
Qed.

(** C2, amended: the counter of an identity is 0 when it is registered,
    grows by one in every [update] that misses the identity and is left as
    it is by an [update] that matches it; along a run of calls it is its
    earlier value plus the number of frames in between that missed the
    identity, consecutive or not.  [s2] is the state that [update] hands to
    its cleanup, and returns when no counter in it is above the limit. *)
Theorem disappeared_counts_missed_frames s :
  reachable s ->
  (forall objs, exists s2,
     update objs s = cleanup_dissapeared s2 /\
     (bounded s2 -> update objs s = Some (tt, s2)) /\
     (forall id, In id (tracked s2) -> ~ In id (tracked s) ->
        disappeared_of s2 id = Some 0) /\
     (forall id d, disappeared_of s id = Some d ->
        (exists o, In o objs /\ matched_at id o s s2 /\
                   disappeared_of s2 id = Some d) \/
        (missed_at id s s2 /\ disappeared_of s2 id = Some (S d)))) /\
  (forall id d (cs : list Call) l s',
     disappeared_of s id = Some d -> run cs s = Some (l, s') ->
     disappeared_of s' id = Some (d + missed_frames id cs s)).
Proof.
  intros Hr. destruct (reachable_inv s Hr) as [W B]. split.
  - intros objs. destruct (update_spec s objs W) as (s2 & Eu & M).
    exists s2. split; [exact Eu|]. split; [|split].
    + intros B2. rewrite Eu. apply cleanup_returns; auto.
      apply (mm_WF _ _ _ M).
    + intros id Hin' Hn. apply (mm_tracked _ _ _ M) in Hin'.
      destruct Hin' as [Hin | Hnb]; [contradiction|].
      destruct (mm_new _ _ _ M id Hnb) as (_ & _ & E & _). exact E.
    + intros id d Hd.
      assert (Hin : In id (tracked s)).
      { rewrite <- (wf_disappeared _ W). eapply OMapFacts.find_Some_keys, Hd. }
      destruct (mm_old _ _ _ M id Hin) as [_ [Hmi | (o & Ho & Hma)]].
      * right. split; [exact Hmi|].
        destruct Hmi as (_ & E & _). now rewrite E, Hd.
      * left. exists o. split; [exact Ho|]. split; [exact Hma|].
        destruct Hma as (_ & E & _). now rewrite E.
  - intros id d cs l s' Hd E.
    now apply (run_disappeared cs s l s' id d W B E Hd).
Qed.
End ClaimsOnRuns.

(** * The claims on the integer tracker *)

Module Scenarios.
Import IntTracker.

Local Abbreviation reach := (@reachable Z Z arith by_size Sorts.keeping).

(** Modelled from the spec's words: "ties broken by original index order";
    of two columns at the same distance the one with the smaller index comes
    first in the ranking. *)
Definition ties_in_index_order (row : list Z) (ranking : list nat) : Prop :=
  forall p q a b,
    nth_error ranking p = Some a -> nth_error ranking q = Some b ->
    a < b -> nth a row 0%Z = nth b row 0%Z -> p < q.

Lemma start_reachable : reach start.
Proof. apply reach_new. Qed.

Lemma ranked_pair_reachable : reach ranked_pair.
Proof.
  apply (run_reachable (SS := Sorts.keeping) ranked_pair_calls start []
           ranked_pair start_reachable).
  vm_compute. reflexivity.
Qed.

Lemma missed_once_reachable : reach missed_once.
Proof.
  apply (run_reachable (SS := Sorts.keeping) missed_once_calls start []
           missed_once start_reachable).
  vm_compute. reflexivity.
Qed.

Lemma missed_twice_reachable : reach missed_twice.
Proof.
  apply (run_reachable (SS := Sorts.keeping) missed_twice_calls start []
           missed_twice start_reachable).
  vm_compute. reflexivity.
Qed.

Lemma single_reachable : reach single.
Proof.
  apply (run_reachable (SS := Sorts.keeping) single_calls start []
           single start_reachable).
  vm_compute. reflexivity.
Qed.

(** C1: the id vector is put in rank order when an identity is registered
    and is not reordered when [update] refreshes a matched identity from a
    detection.  Two identities of sizes 5 and 3; the next frame shows the
    first one with size 1.  [active_objects] then lists size 1 before size
    3, and [top] returns the object of size 1. *)
Theorem refresh_breaks_rank_order :
  run_k shrunk_calls start = Some ([], shrunk) /\
  active_objects shrunk = Some ([obj 1 0 0 1; obj 100 0 0 3], shrunk) /\
  Object_gt (obj 100 0 0 3) (obj 1 0 0 1) = true /\
  top shrunk = Some (Some (obj 1 0 0 1), shrunk).
Proof. repeat split; vm_compute; reflexivity. Qed.

Lemma shrunk_reachable : reach shrunk.
Proof.
  apply (run_reachable (SS := Sorts.keeping) shrunk_calls start []
           shrunk start_reachable).
  vm_compute. reflexivity.
Qed.

(** C8: [top] returns the object of the first id of the id vector, with no
    test of frame count or flag, and that is not always the highest-ranked
    identity.  Two identities of sizes 5 and 3 are registered and the next
    frame shows the first one with size 1: the id vector still begins with
    its id, and [top] returns the object of size 1 although the tracked
    object of size 3 ranks above it. *)
Theorem top_returns_outranked_object :
  reach shrunk /\
  object_count shrunk = Some (2, shrunk) /\
  m_id_list shrunk = [1; 2] /\
  top shrunk = Some (Some (obj 1 0 0 1), shrunk) /\
  obj_of shrunk 2 = Some (obj 100 0 0 3) /\
  Object_gt (obj 100 0 0 3) (obj 1 0 0 1) = true.
Proof.
  split; [exact shrunk_reachable|]. repeat split; vm_compute; reflexivity.
Qed.

(** C2 fails: an identity missed in one frame and matched in the next keeps
    the counter 1; the match refreshes its object and raises its frame count
    but does not bring the counter back to 0. *)
Lemma match_keeps_disappeared_count :
  reach missed_once /\
  disappeared_of missed_once 1 = Some 1 /\
  framecount_of missed_once 1 = Some 0 /\
  exists s', update (SS := Sorts.keeping) [obj 2 0 0 6] missed_once = Some (tt, s') /\
    obj_of s' 1 = Some (obj 2 0 0 6) /\
    framecount_of s' 1 = Some 1 /\
    disappeared_of s' 1 = Some 1 /\
    disappeared_of s' 1 <> Some 0.
Proof.
  split; [exact missed_once_reachable|].
  split; [reflexivity|]. split; [reflexivity|].
  eexists. split; [vm_compute; reflexivity|].
  repeat split; try reflexivity. discriminate.
Qed.

(** Seventeen detections at one place, of sizes 1 to 17. *)
Definition tied_detections : list (Object Z) :=
  map (fun k => obj 3 0 0 (Z.of_nat k)) (seq 1 17).

Lemma single_reachable_libstdcxx :
  @reachable Z Z arith by_size GnuSort.libstdcxx single.
Proof.
  apply (run_reachable (SS := GnuSort.libstdcxx) single_calls start []
           single (reach_new _ _ _ _)).
  vm_compute. reflexivity.
Qed.

(** C9 fails: one identity at the origin and seventeen detections at
    distance 3.  With more than 16 elements the [std::sort] of libstdc++
    partitions the row around the median of three elements, which moves
    elements that are equivalent: the ranking of the row begins with column
    8 and has column 0 in tenth place, and the identity takes the ninth
    detection, not the first. *)
Lemma std_sort_moves_ties :
  @reachable Z Z arith by_size GnuSort.libstdcxx single /\
  dist_matrix_of single tied_detections = [repeat 3%Z 17] /\
  GnuSort.sort_vector
    (fun a b => dist_lt (mat_at [repeat 3%Z 17] 0 a) (mat_at [repeat 3%Z 17] 0 b))
    (seq 0 17)
  = Some [8; 16; 15; 14; 13; 12; 11; 10; 9; 0; 7; 6; 5; 4; 3; 2; 1] /\
  nth 0 (sorted_ids (SS := GnuSort.libstdcxx) [repeat 3%Z 17] 1 17) []
  = [8; 16; 15; 14; 13; 12; 11; 10; 9; 0; 7; 6; 5; 4; 3; 2; 1] /\
  ~ ties_in_index_order (repeat 3%Z 17)
      [8; 16; 15; 14; 13; 12; 11; 10; 9; 0; 7; 6; 5; 4; 3; 2; 1] /\
  exists s', update (SS := GnuSort.libstdcxx) tied_detections single
             = Some (tt, s') /\
             nth_error tied_detections 8 = Some (obj 3 0 0 9) /\
             obj_of s' 1 = Some (obj 3 0 0 9).
Proof.
  split; [exact single_reachable_libstdcxx|].
  split; [vm_compute; reflexivity|]. split; [vm_compute; reflexivity|].
  split; [vm_compute; reflexivity|]. split.
  - intros Ht. specialize (Ht 9 0 0 8 eq_refl eq_refl).
    assert (Hlt : 9 < 0) by (apply Ht; [lia | reflexivity]). lia.
  - eexists. split; [vm_compute; reflexivity|]. split; reflexivity.
Qed.

(** Up to 16 elements the [std::sort] of libstdc++ sorts by insertion, and
    two detections at the same distance stay in the order of their
    columns. *)
Example two_ties_stay_in_order :
  GnuSort.sort_vector
    (fun a b => dist_lt (nth a [3; 3]%Z 0%Z) (nth b [3; 3]%Z 0%Z)) [0; 1]
  = Some [0; 1] /\
  nth 0 (sorted_ids (SS := GnuSort.libstdcxx) [[3; 3]]%Z 1 2) [] = [0; 1].
Proof. split; reflexivity. Qed.

(** C5: one identity whose counter stands at the limit 2; the next frame
    without detections takes it to 3, the cleanup erases the entry under its
    own iterator, and the call has no defined result. *)
Theorem cleanup_of_expired_identity_undefined :
  reach missed_twice /\
  disappeared_of missed_twice 1 = Some 2 /\
  m_max_dissapeared_frms missed_twice = 2 /\
  update (SS := Sorts.keeping) [] missed_twice = None.
Proof.
  split; [exact missed_twice_reachable|]. repeat split; vm_compute; reflexivity.
Qed.

(** Where [topValid] and [top] differ: both identities are eligible; [top]
    returns the larger object, of id 2, [topValid] the one of id 1. *)
Example topValid_is_not_top :
  m_id_list ranked_pair = [2; 1] /\
  top ranked_pair = Some (Some (obj 100 0 0 5), ranked_pair) /\
  exists s', topValid ranked_pair = Some (Some (obj 1 0 0 3), s').
Proof.
  split; [reflexivity|]. split; [reflexivity|]. eexists. reflexivity.
Qed.

(** ** The theorems at work on concrete states *)

Lemma reads_keep_the_state_witness :
  reach ranked_pair /\
  (exists l, active_objects ranked_pair = Some (l, ranked_pair)) /\
  (exists n, object_count ranked_pair = Some (n, ranked_pair)) /\
  (exists r, top ranked_pair = Some (r, ranked_pair)).
Proof.
  split; [exact ranked_pair_reachable|].
  exact (reads_keep_the_state (SS := Sorts.keeping) ranked_pair
           ranked_pair_reachable).
Defined.

Lemma top_none_iff_empty_witness :
  reach ranked_pair /\
  exists r, top ranked_pair = Some (r, ranked_pair) /\
    (r = None <-> object_count ranked_pair = Some (0, ranked_pair)) /\
    (forall id rest, m_id_list ranked_pair = id :: rest ->
       r = obj_of ranked_pair id /\ r <> None).
Proof.
  split; [exact ranked_pair_reachable|].
  exact (top_none_iff_empty (SS := Sorts.keeping) ranked_pair
           ranked_pair_reachable).
Defined.

Lemma update_from_empty_witness :
  reach start /\ object_count start = Some (0, start) /\
  exists s', update (SS := Sorts.keeping) [obj 0 0 0 3; obj 100 0 0 5] start
             = Some (tt, s') /\
    object_count s' = Some (2, s') /\
    exists l, active_objects s' = Some (l, s') /\
              Permutation l [obj 0 0 0 3; obj 100 0 0 5] /\
              forall o, In o [obj 0 0 0 3; obj 100 0 0 5] -> In o l.
Proof.
  split; [exact start_reachable|]. split; [reflexivity|].
  exact (update_from_empty (SS := Sorts.keeping) start
           [obj 0 0 0 3; obj 100 0 0 5] start_reachable eq_refl).
Defined.

Lemma topValid_smallest_eligible_id_witness :
  reach ranked_pair /\
  exists r s', topValid_entry ranked_pair = Some (r, s') /\
    topValid ranked_pair = Some (option_map snd r, s') /\
    match r with
    | Some (id, o) =>
        obj_of ranked_pair id = Some o /\ eligible ranked_pair id = true /\
        (forall id', In id' (tracked ranked_pair) ->
                     eligible ranked_pair id' = true -> id <= id') /\
        s' = claimed id ranked_pair /\ uprooted_of s' id = Some true
    | None =>
        (forall id', In id' (tracked ranked_pair) ->
                     eligible ranked_pair id' = false) /\ s' = ranked_pair
    end.
Proof.
  split; [exact ranked_pair_reachable|].
  exact (topValid_smallest_eligible_id (SS := Sorts.keeping) ranked_pair
           ranked_pair_reachable).
Defined.

Lemma topValid_at_most_once_witness :
  reach ranked_pair /\
  (forall id o s', topValid_entry ranked_pair = Some (Some (id, o), s') ->
     uprooted_of ranked_pair id = Some false /\ uprooted_of s' id = Some true) /\
  (forall (cs : list (@call Z)) l s', run_k cs ranked_pair = Some (l, s') ->
     NoDup l /\ forall id, In id l -> uprooted_of ranked_pair id <> Some true) /\
  (forall j, exists s',
     run_k (repeat TopValid (length (eligible_ids ranked_pair) + j)) ranked_pair
     = Some (eligible_ids ranked_pair, s')).
Proof.
  split; [exact ranked_pair_reachable|].
  exact (topValid_at_most_once (SS := Sorts.keeping) ranked_pair
           ranked_pair_reachable).
Defined.

Lemma disappeared_counts_missed_frames_witness :
  reach missed_once /\
  (forall objs, exists s2,
     update (SS := Sorts.keeping) objs missed_once = cleanup_dissapeared s2 /\
     (bounded s2 -> update (SS := Sorts.keeping) objs missed_once = Some (tt, s2)) /\
     (forall id, In id (tracked s2) -> ~ In id (tracked missed_once) ->
        disappeared_of s2 id = Some 0) /\
     (forall id d, disappeared_of missed_once id = Some d ->
        (exists o, In o objs /\ matched_at id o missed_once s2 /\
                   disappeared_of s2 id = Some d) \/
        (missed_at id missed_once s2 /\ disappeared_of s2 id = Some (S d)))) /\
  (forall id d (cs : list (@call Z)) l s',
     disappeared_of missed_once id = Some d ->
     run_k cs missed_once = Some (l, s') ->
     disappeared_of s' id
     = Some (d + missed_frames (SS := Sorts.keeping) id cs missed_once)).
Proof.
  split; [exact missed_once_reachable|].
  exact (disappeared_counts_missed_frames (SS := Sorts.keeping) missed_once
           missed_once_reachable).
Defined.


Lemma ranking_ascending_by_distance_witness :
  let row := [5; 5; 2]%Z in
  let closer := fun a b => (nth a row 0 <? nth b row 0)%Z in
  let ranking := nth 0 (sorted_ids (SS := Sorts.keeping) [row] 1 3) [] in
  ranking = Sorts.keeping_sort closer [0; 1; 2] /\
  Permutation [0; 1; 2] ranking /\
  sorted_by closer ranking /\
  (forall p q a b, p < q -> nth_error ranking p = Some a ->
     nth_error ranking q = Some b -> closer b a = false).
Proof.
  exact (ranking_ascending_by_distance (SS := Sorts.keeping)
           [[5; 5; 2]%Z] 1 3 0 Nat.lt_0_1).
Defined.

End Scenarios.

(** * Registration, removal and the order of the id vector *)

Section RankOrder.
Context {Coord Distance : Type}.
Context `{DA : DistanceArith Coord Distance}.
Context {OR : ObjectRanking Coord}.
Local Abbreviation Obj := (Object Coord).
Local Abbreviation Tracker := (@ObjectTracker Coord Distance).
Implicit Types (s : Tracker) (id : ObjectID) (obj : Obj).

(** Descending rank order: no object comes before one that [operator>]
    puts above it. *)
Definition descending (l : list Obj) : Prop :=
  StronglySorted (fun a b => Object_gt b a = false) l.

(** The id vector lists the identities in descending rank order. *)
Definition rank_sorted s : Prop := descending (objects_of s).

(** The state [deregister_object] leaves behind. *)
Definition deregistered id s : Tracker :=
  mkTracker (m_dist_tol s) (m_max_dissapeared_frms s) (m_min_framecount s)
    (OMap.erase id (m_active_objects s))
    (OMap.erase id (m_uprooted s))
    (OMap.erase id (m_disappeared s))
    (OMap.erase id (m_framecount s))
    (vec_erase_first id (m_id_list s))
    (m_next_id s).

Lemma swo_asym A (comp : A -> A -> bool) a b :
  strict_weak_order comp -> comp a b = true -> comp b a = false.
Proof.
  intros (Hi & Ht & _) Hab. destruct (comp b a) eqn:Hba; auto.
  rewrite <- (Hi a). symmetry. now apply (Ht a b a).
Qed.

Lemma sorted_insert A (R : A -> A -> Prop) (l1 l2 : list A) x :
  StronglySorted R (l1 ++ l2) -> Forall (fun a => R a x) l1 -> Forall (R x) l2 ->
  StronglySorted R (l1 ++ x :: l2).
Proof.
  induction l1 as [|a l1 IH]; simpl; intros Hs H1 H2.
  - now constructor.
  - inversion Hs as [|? ? Hs' Hall]; subst. inversion H1; subst.
    constructor; [now apply IH|].
    apply Forall_app in Hall. destruct Hall as [Ha1 Ha2].
    apply Forall_app. split; [exact Ha1 | now constructor].
Qed.

Lemma sorted_app_r A (R : A -> A -> Prop) (l1 l2 : list A) :
  StronglySorted R (l1 ++ l2) -> StronglySorted R l2.
Proof.
  induction l1 as [|a l1 IH]; simpl; auto.
  intros Hs. inversion Hs; subst. auto.
Qed.

(** Where the scan of the insertion stops: everything before ranks above
    the new object, the object it stops at does not. *)
Lemma rank_pos_split s ids obj :
  let p := rank_pos s ids obj in
  Forall (fun id => Object_gt (object_at s id) obj = true) (firstn p ids) /\
  match skipn p ids with
  | [] => True
  | id :: _ => Object_gt (object_at s id) obj = false
  end.
Proof.
  induction ids as [|id r IH]; simpl; [split; [constructor | exact I]|].
  destruct (Object_gt (object_at s id) obj) eqn:E; simpl.
  - destruct IH as [H1 H2]. split; [now constructor | exact H2].
  - split; [constructor | exact E].
Qed.

Lemma object_at_registered s obj id :
  WF s -> In id (m_id_list s) ->
  object_at (registered obj s) id = object_at s id.
Proof.
  intros W Hin. apply (WF_id_tracked s id W) in Hin.
  pose proof (wf_next_id _ W) as Hf. rewrite Forall_forall in Hf.
  specialize (Hf id Hin).
  destruct (registered_same_at s obj id) as (E & _); [lia|].
  unfold object_at. now rewrite E.
Qed.

Lemma object_at_registered_new s obj :
  object_at (registered obj s) (m_next_id s) = obj.
Proof.
  destruct (registered_new s obj) as (E & _). unfold object_at. now rewrite E.
Qed.

Lemma In_firstn_skipn A (l : list A) n x :
  In x (firstn n l) \/ In x (skipn n l) -> In x l.
Proof.
  intros H. rewrite <- (firstn_skipn n l). now apply in_or_app.
Qed.

Lemma objects_of_registered s obj :
  WF s ->
  let p := rank_pos s (m_id_list s) obj in
  objects_of (registered obj s)
  = firstn p (objects_of s) ++ obj :: skipn p (objects_of s).
Proof.
  intros W p. unfold objects_of at 1. simpl m_id_list. fold p.
  unfold vec_insert. rewrite map_app. simpl map.
  rewrite object_at_registered_new.
  unfold objects_of. rewrite firstn_map, skipn_map.
  f_equal; [|f_equal]; apply map_ext_in; intros id Hin;
    apply object_at_registered; auto;
    apply (In_firstn_skipn _ _ p); auto.
Qed.

(** The objects before and after the place of the insertion. *)
Lemma insertion_place s obj :
  strict_weak_order (A := Obj) Object_gt -> rank_sorted s ->
  let p := rank_pos s (m_id_list s) obj in
  Forall (fun o => Object_gt o obj = true) (firstn p (objects_of s)) /\
  Forall (fun o => Object_gt o obj = false) (skipn p (objects_of s)).
Proof.
  intros Hswo Hs p.
  destruct (rank_pos_split s (m_id_list s) obj) as [Hb Ha]. fold p in Hb, Ha.
  unfold objects_of. rewrite firstn_map, skipn_map. split.
  - apply Forall_map. exact Hb.
  - unfold rank_sorted, descending, objects_of in Hs.
    rewrite <- (firstn_skipn p (m_id_list s)), map_app in Hs.
    apply sorted_app_r in Hs.
    destruct (skipn p (m_id_list s)) as [|id r]; [constructor|].
    simpl in *. inversion Hs as [|? ? _ Hall]; subst.
    constructor; [exact Ha|].
    eapply Forall_impl; [|exact Hall]. simpl. intros o Ho.
    destruct Hswo as (_ & _ & Hn). now apply (Hn o (object_at s id) obj).
Qed.

Lemma registered_rank_sorted s obj :
  strict_weak_order (A := Obj) Object_gt -> WF s -> rank_sorted s ->
  rank_sorted (registered obj s).
Proof.
  intros Hswo W Hs. unfold rank_sorted.
  rewrite objects_of_registered by exact W.
  destruct (insertion_place s obj Hswo Hs) as [Hb Ha].
  apply sorted_insert.
  - rewrite firstn_skipn. exact Hs.
  - eapply Forall_impl; [|exact Hb]. simpl. intros o Ho.
    now apply swo_asym.
  - exact Ha.
Qed.

Lemma register_all_rank_sorted L s :
  strict_weak_order (A := Obj) Object_gt -> WF s -> rank_sorted s ->
  rank_sorted (register_all L s).
Proof.
  intros Hswo. revert s. induction L as [|o L IH]; simpl; intros s W Hs; auto.
  apply IH; [now apply registered_WF | now apply registered_rank_sorted].
Qed.

(** X1: when [operator>] is a strict weak order and the id vector is in
    descending rank order, [register_object] returns the next id and leaves
    the vector in descending rank order: the new object is put behind the
    objects that rank above it and in front of all the others. *)
Theorem register_object_keeps_rank_order s obj :
  strict_weak_order (A := Obj) Object_gt -> WF s -> rank_sorted s ->
  exists s' before after,
    register_object obj s = Some (m_next_id s, s') /\
    rank_sorted s' /\
    objects_of s = before ++ after /\
    objects_of s' = before ++ obj :: after /\
    Forall (fun o => Object_gt o obj = true) before /\
    Forall (fun o => Object_gt o obj = false) after.
Proof.
  intros Hswo W Hs.
  set (p := rank_pos s (m_id_list s) obj).
  exists (registered obj s), (firstn p (objects_of s)), (skipn p (objects_of s)).
  split; [now apply register_object_WF|].
  split; [now apply registered_rank_sorted|].
  split; [now rewrite firstn_skipn|].
  split; [now apply objects_of_registered|].
  now apply insertion_place.
Qed.

(** X2: [register_object] returns [m_next_id], an id that is not tracked
    yet, and advances the counter by one.  The new identity holds the object
    with the flag unset, a disappeared counter of 0 and a frame count of 1;
    the entries of every other identity, and the configuration, stay as they
    are, and the representation invariant is kept. *)
Theorem register_object_fresh_identity s obj :
  WF s ->
  let id := m_next_id s in
  exists s', register_object obj s = Some (id, s') /\
    WF s' /\ same_config s s' /\
    ~ In id (tracked s) /\
    tracked s' = tracked s ++ [id] /\
    m_next_id s' = S id /\
    obj_of s' id = Some obj /\
    uprooted_of s' id = Some false /\
    disappeared_of s' id = Some 0 /\
    framecount_of s' id = Some 1 /\
    (forall id', In id' (tracked s) -> same_at id' s s').
Proof.
  intros W id. exists (registered obj s).
  pose proof (wf_next_id _ W) as Hf. rewrite Forall_forall in Hf.
  destruct (registered_new s obj) as (E1 & E2 & E3 & E4).
  split; [now apply register_object_WF|].
  split; [now apply registered_WF|].
  split; [repeat split|].
  split; [intros Hin; specialize (Hf _ Hin); unfold id in Hf; lia|].
  split; [now apply tracked_registered|].
  split; [reflexivity|].
  split; [exact E1|]. split; [exact E2|]. split; [exact E3|]. split; [exact E4|].
  intros id' Hin. apply registered_same_at. specialize (Hf _ Hin). lia.
Qed.


(** ** deregister_object *)

Lemma find_erase_eq V k (m : OMap.t V) : OMap.find k (OMap.erase k m) = None.
Proof.
  unfold OMap.erase. induction m as [|[k' v'] r IH]; simpl; auto.
  destruct (k' =? k) eqn:E; simpl; auto.
  rewrite Nat.eqb_sym, E. exact IH.
Qed.

Lemma find_erase_neq V k k' (m : OMap.t V) :
  k' <> k -> OMap.find k' (OMap.erase k m) = OMap.find k' m.
Proof.
  intros Hne. unfold OMap.erase. induction m as [|[k0 v0] r IH]; simpl; auto.
  destruct (k0 =? k) eqn:E; simpl.
  - apply Nat.eqb_eq in E. subst k0. apply Nat.eqb_neq in Hne. now rewrite Hne.
  - now rewrite IH.
Qed.

Lemma keys_erase V k (m : OMap.t V) :
  OMap.keys (OMap.erase k m) = filter (fun k' => negb (k' =? k)) (OMap.keys m).
Proof.
  unfold OMap.erase. induction m as [|[k' v'] r IH]; simpl; auto.
  destruct (k' =? k); simpl; now rewrite IH.
Qed.

Lemma erase_absent V k (m : OMap.t V) :
  ~ In k (OMap.keys m) -> OMap.erase k m = m.
Proof.
  unfold OMap.erase. induction m as [|[k' v'] r IH]; simpl; auto.
  intros Hn. destruct (k' =? k) eqn:E; simpl.
  - apply Nat.eqb_eq in E. exfalso. apply Hn. now left.
  - rewrite IH; auto.
Qed.

Lemma erase_cons V k k' (v' : V) (r : OMap.t V) :
  OMap.erase k ((k', v') :: r)
  = if k' =? k then OMap.erase k r else (k', v') :: OMap.erase k r.
Proof. unfold OMap.erase. simpl. now destruct (k' =? k). Qed.

Lemma erase_insert_absent V k v (m : OMap.t V) :
  ~ In k (OMap.keys m) -> OMap.erase k (OMap.insert k v m) = m.
Proof.
  induction m as [|[k' v'] r IH]; intros Hn; simpl OMap.insert.
  - now rewrite erase_cons, Nat.eqb_refl.
  - simpl in Hn. destruct (k <? k') eqn:Hlt.
    + rewrite erase_cons, Nat.eqb_refl. now apply erase_absent.
    + destruct (k =? k') eqn:Heq.
      * apply Nat.eqb_eq in Heq. exfalso. apply Hn. left. now symmetry.
      * rewrite erase_cons, Nat.eqb_sym, Heq. rewrite IH; auto.
Qed.

Lemma filter_ordered (f : nat -> bool) ks :
  OMap.ordered ks -> OMap.ordered (filter f ks).
Proof.
  induction 1 as [|k r Hs IH Hall]; simpl; [constructor|].
  destruct (f k); auto. constructor; auto.
  apply Forall_forall. intros y Hy. apply filter_In in Hy.
  rewrite Forall_forall in Hall. apply Hall, Hy.
Qed.

Lemma vec_erase_first_absent id (v : list ObjectID) :
  ~ In id v -> vec_erase_first id v = v.
Proof.
  induction v as [|a r IH]; simpl; auto. intros Hn.
  destruct (a =? id) eqn:E.
  - apply Nat.eqb_eq in E. exfalso. apply Hn. now left.
  - rewrite IH; auto.
Qed.

Lemma filter_absent id (v : list ObjectID) :
  ~ In id v -> filter (fun id' => negb (id' =? id)) v = v.
Proof.
  induction v as [|a r IH]; simpl; auto. intros Hn.
  destruct (a =? id) eqn:E; simpl.
  - apply Nat.eqb_eq in E. exfalso. apply Hn. now left.
  - rewrite IH; auto.
Qed.

(** The vector holds an id at most once, so erasing its first occurrence
    erases it. *)
Lemma vec_erase_first_NoDup id (v : list ObjectID) :
  NoDup v -> vec_erase_first id v = filter (fun id' => negb (id' =? id)) v.
Proof.
  induction 1 as [|a r Hn Hnd IH]; simpl; auto.
  destruct (a =? id) eqn:E; simpl.
  - apply Nat.eqb_eq in E. subst. symmetry. now apply filter_absent.
  - now rewrite IH.
Qed.

Lemma vec_erase_insert id p (v : list ObjectID) :
  ~ In id v -> vec_erase_first id (vec_insert p id v) = v.
Proof.
  intros Hn. unfold vec_insert.
  assert (G : forall l1 l2, ~ In id l1 ->
            vec_erase_first id (l1 ++ id :: l2) = l1 ++ l2).
  { induction l1 as [|a l1 IH]; simpl; intros l2 H1.
    - now rewrite Nat.eqb_refl.
    - destruct (a =? id) eqn:E.
      + apply Nat.eqb_eq in E. exfalso. apply H1. now left.
      + rewrite IH; auto. }
  rewrite G.
  - apply firstn_skipn.
  - intros Hin. apply Hn. apply (In_firstn_skipn _ _ p). now left.
Qed.

Lemma Permutation_filter A (f : A -> bool) (l l' : list A) :
  Permutation l l' -> Permutation (filter f l) (filter f l').
Proof.
  induction 1 as [|a l l' Hp IH|a b l|l1 l2 l3 H1 IH1 H2 IH2]; simpl.
  - constructor.
  - destruct (f a); auto.
  - destruct (f a), (f b); auto. constructor.
  - etransitivity; eauto.
Qed.

Lemma deregister_object_eq id s :
  deregister_object id s = Some (tt, deregistered id s).
Proof. reflexivity. Qed.

Lemma tracked_deregistered id s :
  tracked (deregistered id s) = filter (fun id' => negb (id' =? id)) (tracked s).
Proof. apply keys_erase. Qed.

Lemma deregistered_WF id s : WF s -> WF (deregistered id s).
Proof.
  intros W. pose proof (tracked_deregistered id s) as Ht. split.
  - rewrite Ht. apply filter_ordered, (wf_ordered _ W).
  - rewrite Ht. simpl. now rewrite keys_erase, (wf_uprooted _ W).
  - rewrite Ht. simpl. now rewrite keys_erase, (wf_disappeared _ W).
  - rewrite Ht. simpl. now rewrite keys_erase, (wf_framecount _ W).
  - rewrite Ht. simpl.
    rewrite vec_erase_first_NoDup by now apply WF_NoDup_ids.
    apply Permutation_filter, (wf_id_list _ W).
  - rewrite Ht. simpl. apply Forall_forall. intros k Hk.
    apply filter_In in Hk. pose proof (wf_next_id _ W) as Hf.
    rewrite Forall_forall in Hf. apply Hf, Hk.
Qed.

Lemma deregistered_absent id s :
  WF s -> ~ In id (tracked s) -> deregistered id s = s.
Proof.
  intros W Hn. unfold deregistered.
  rewrite !erase_absent, vec_erase_first_absent.
  - now destruct s.
  - intros Hin. apply Hn. now apply (WF_id_tracked s id W).
  - now rewrite (wf_framecount _ W).
  - now rewrite (wf_disappeared _ W).
  - now rewrite (wf_uprooted _ W).
  - exact Hn.
Qed.

(** X3: [deregister_object] takes the entries of [id] out of the four maps
    and [id] out of the id vector.  The other identities keep their entries
    and their order in the vector, the counter and the configuration stay,
    and the invariant is kept.  For an id that is not tracked the call
    changes nothing. *)
Theorem deregister_object_removes_identity s id :
  WF s ->
  exists s', deregister_object id s = Some (tt, s') /\
    WF s' /\ same_config s s' /\ m_next_id s' = m_next_id s /\
    (forall id', In id' (tracked s') <-> In id' (tracked s) /\ id' <> id) /\
    (obj_of s' id = None /\ uprooted_of s' id = None /\
     disappeared_of s' id = None /\ framecount_of s' id = None) /\
    (forall id', id' <> id -> same_at id' s s') /\
    m_id_list s' = filter (fun id' => negb (id' =? id)) (m_id_list s) /\
    (~ In id (tracked s) -> s' = s).
Proof.
  intros W. exists (deregistered id s).
  split; [reflexivity|]. split; [now apply deregistered_WF|].
  split; [repeat split|]. split; [reflexivity|]. split.
  { intros id'. rewrite tracked_deregistered, filter_In, negb_true_iff,
      Nat.eqb_neq. tauto. }
  split.
  { unfold obj_of, uprooted_of, disappeared_of, framecount_of. simpl.
    now rewrite !find_erase_eq. }
  split.
  { intros id' Hne.
    unfold same_at, obj_of, uprooted_of, disappeared_of, framecount_of. simpl.
    now rewrite !find_erase_neq. }
  split.
  { simpl. apply vec_erase_first_NoDup. now apply WF_NoDup_ids. }
  now apply deregistered_absent.
Qed.

(** X4: registering an object and deregistering the id returned gives the
    maps and the id vector back as they were; only the counter has advanced,
    so the id is not handed out again. *)
Theorem register_then_deregister s obj :
  WF s ->
  bind (register_object obj) deregister_object s
  = Some (tt, set_next_id S s).
Proof.
  intros W. unfold bind. rewrite register_object_WF by exact W.
  rewrite deregister_object_eq. f_equal. f_equal.
  assert (Hn : ~ In (m_next_id s) (tracked s)).
  { intros Hin. pose proof (wf_next_id _ W) as Hf.
    rewrite Forall_forall in Hf. specialize (Hf _ Hin). lia. }
  unfold deregistered, registered, set_next_id. simpl.
  rewrite !erase_insert_absent, vec_erase_insert; auto.
  - intros Hin. apply Hn. now apply (WF_id_tracked s _ W).
  - now rewrite (wf_framecount _ W).
  - now rewrite (wf_disappeared _ W).
  - now rewrite (wf_uprooted _ W).
Qed.

End RankOrder.

(** * The registry over calls *)

Section Registry.
Context {Coord Distance : Type}.
Context `{DO : DistanceOrder Coord Distance}.
Context {OR : ObjectRanking Coord}.
Context {SS : StdSort}.
Local Abbreviation Obj := (Object Coord).
Local Abbreviation Tracker := (@ObjectTracker Coord Distance).
Local Abbreviation Call := (@call Coord).
Implicit Types (s : Tracker) (id : ObjectID) (objs : list Obj).

Lemma object_at_keys s :
  WF s -> map (object_at s) (tracked s) = map snd (m_active_objects s).
Proof.
  intros W. unfold tracked, OMap.keys. rewrite map_map.
  apply map_ext_in. intros [k v] Hin. simpl. unfold object_at, obj_of.
  rewrite (In_entry_find _ _ k v); auto. apply (wf_ordered _ W).
Qed.

(** X5: in every reachable state [active_objects] returns as many objects
    as [object_count] reports, [top] returns the first of them (none when
    there is none), and the objects returned are the values of the registry
    map, each once. *)
Theorem top_is_first_active_object s :
  reachable s ->
  exists l, active_objects s = Some (l, s) /\
    object_count s = Some (length l, s) /\
    top s = Some (hd_error l, s) /\
    Permutation l (map snd (m_active_objects s)).
Proof.
  intros Hr. destruct (reachable_inv s Hr) as [W _].
  exists (objects_of s). split; [now apply active_objects_WF|]. split; [|split].
  - rewrite object_count_eq. unfold objects_of. rewrite length_map.
    now rewrite (Permutation_length (wf_id_list _ W)).
  - rewrite (top_WF s W). unfold objects_of.
    now destruct (m_id_list s).
  - rewrite <- (object_at_keys s W). unfold objects_of.
    apply Permutation_map, (wf_id_list _ W).
Qed.

(** X6: in every reachable state the id vector lists the tracked ids
    without repetition, every tracked id is below the next id and has an
    entry in each of the four maps, its disappeared counter is not above
    [m_max_dissapeared_frms], and an id that is not tracked has no entry in
    any of the maps. *)
Theorem registry_invariant s :
  reachable s ->
  NoDup (m_id_list s) /\
  (forall id, In id (m_id_list s) <-> In id (tracked s)) /\
  (forall id, In id (tracked s) ->
     id < m_next_id s /\
     exists o up d fc,
       obj_of s id = Some o /\ uprooted_of s id = Some up /\
       disappeared_of s id = Some d /\ framecount_of s id = Some fc /\
       d <= m_max_dissapeared_frms s) /\
  (forall id, ~ In id (tracked s) ->
     obj_of s id = None /\ uprooted_of s id = None /\
     disappeared_of s id = None /\ framecount_of s id = None).
Proof.
  intros Hr. destruct (reachable_inv s Hr) as [W B].
  split; [now apply WF_NoDup_ids|].
  split; [intros id; now apply WF_id_tracked|]. split.
  - intros id Hin.
    pose proof (wf_next_id _ W) as Hf. rewrite Forall_forall in Hf.
    split; [now apply Hf|].
    destruct (tracked_obj s id Hin) as [o Ho].
    destruct (tracked_uprooted s id W Hin) as [up Hup].
    destruct (tracked_disappeared s id W Hin) as [d Hd].
    destruct (tracked_framecount s id W Hin) as [fc Hfc].
    exists o, up, d, fc. repeat split; auto. now apply (B id).
  - intros id Hn.
    unfold obj_of, uprooted_of, disappeared_of, framecount_of.
    rewrite !OMapFacts.find_None.
    now rewrite (wf_uprooted _ W), (wf_disappeared _ W), (wf_framecount _ W).
Qed.

Lemma exec_ids c s r s' :
  WF s -> bounded s -> exec c s = Some (r, s') ->
  same_config s s' /\ m_next_id s <= m_next_id s' /\
  (forall id, In id (tracked s') -> In id (tracked s) \/ m_next_id s <= id).
Proof.
  intros W B E. destruct (exec_inv c s r s' W B E) as (_ & _ & Ev).
  split; [apply (ev_config _ _ Ev)|].
  split; [apply (ev_next _ _ Ev) | apply (ev_tracked _ _ Ev)].
Qed.

(** X7: along any run of calls the configuration stays and the next id
    does not decrease; every identity tracked at the end is below the next
    id, and was tracked at the start or has an id handed out since; an id
    below the counter that is not tracked does not come back. *)
Theorem ids_never_reused s (cs : list Call) l s' :
  reachable s -> run cs s = Some (l, s') ->
  same_config s s' /\ m_next_id s <= m_next_id s' /\
  (forall id, In id (tracked s') -> id < m_next_id s') /\
  (forall id, In id (tracked s') -> In id (tracked s) \/ m_next_id s <= id) /\
  (forall id, id < m_next_id s -> ~ In id (tracked s) -> ~ In id (tracked s')).
Proof.
  intros Hr E.
  assert (G : same_config s s' /\ m_next_id s <= m_next_id s' /\
    (forall id, In id (tracked s') -> In id (tracked s) \/ m_next_id s <= id)).
  { revert s l Hr E. induction cs as [|c cs IH]; intros s l Hr E.
    - injection E as <- <-. split; [apply same_config_refl|]. split; auto.
    - apply run_cons in E. destruct E as (r & s1 & l1 & Ec & Er & _).
      destruct (reachable_inv s Hr) as [W B].
      destruct (exec_ids c s r s1 W B Ec) as (C1 & N1 & T1).
      destruct (IH s1 l1 (reach_call _ _ _ _ Hr Ec) Er) as (C2 & N2 & T2).
      split; [eapply same_config_trans; eauto|]. split; [lia|].
      intros id Hin. destruct (T2 id Hin) as [H1 | H1]; [|right; lia].
      destruct (T1 id H1) as [H2 | H2]; auto. }
  destruct G as (C & N & T). split; [exact C|]. split; [exact N|].
  split; [|split; [exact T|]].
  - intros id Hin.
    destruct (reachable_inv s' (run_reachable cs s l s' Hr E)) as [W' _].
    pose proof (wf_next_id _ W') as Hf. rewrite Forall_forall in Hf. auto.
  - intros id Hlt Hn Hin. destruct (T id Hin) as [H1 | H1]; [auto | lia].
Qed.

(** X8: with no identity tracked, [object_count] is 0, [active_objects]
    is empty, [top] and [topValid] return none, and [update] with no
    detection returns the state unchanged. *)
Theorem empty_registry_edge s :
  reachable s -> tracked s = [] ->
  object_count s = Some (0, s) /\
  active_objects s = Some ([], s) /\
  top s = Some (None, s) /\
  topValid s = Some (None, s) /\
  update [] s = Some (tt, s).
Proof.
  intros Hr Ht. destruct (reachable_inv s Hr) as [W B].
  assert (Ei : m_id_list s = []).
  { apply Permutation_nil. rewrite <- Ht. apply Permutation_sym, (wf_id_list _ W). }
  split; [rewrite object_count_eq; now rewrite Ht|].
  split; [rewrite (active_objects_WF s W); unfold objects_of; now rewrite Ei|].
  split; [rewrite (top_WF s W); now rewrite Ei|].
  split.
  - rewrite topValid_eq, (topValid_entry_WF s W). unfold first_eligible.
    unfold tracked, OMap.keys in Ht. apply map_eq_nil in Ht. now rewrite Ht.
  - assert (Ed : m_disappeared s = []).
    { pose proof (wf_disappeared _ W) as Hd. rewrite Ht in Hd.
      unfold OMap.keys in Hd. now apply map_eq_nil in Hd. }
    unfold update, bind. simpl. unfold gets. rewrite Ed. simpl.
    now apply cleanup_returns.
Qed.

(** X9: [cleanup_dissapeared] returns exactly when no disappeared counter
    is above [m_max_dissapeared_frms], and then it leaves the state as it
    is; when a counter is above the limit it erases the entry under its own
    iterator and has no defined result. *)
Theorem cleanup_returns_iff_no_expiry s :
  WF s ->
  (bounded s -> cleanup_dissapeared s = Some (tt, s)) /\
  (~ bounded s -> cleanup_dissapeared s = None) /\
  (forall r, cleanup_dissapeared s = Some r -> r = (tt, s) /\ bounded s).
Proof.
  intros W. split; [now apply cleanup_returns|].
  split; [now apply cleanup_undefined|].
  intros r E. rewrite cleanup_dissapeared_eq in E.
  destruct (expired_ids s) eqn:Ex; [|discriminate].
  injection E as <-. split; auto. now apply (expired_nil_bounded s W).
Qed.

End Registry.

(** * More on the matching of the general case *)

Section MatchingFacts.
Context {Coord Distance : Type}.
Context `{DO : DistanceOrder Coord Distance}.
Context {OR : ObjectRanking Coord}.
Context {SS : StdSort}.
Local Abbreviation Obj := (Object Coord).
Local Abbreviation Tracker := (@ObjectTracker Coord Distance).
Implicit Types (s : Tracker) (id : ObjectID) (objs L : list Obj).
Implicit Types (D : list (list Distance)) (S : list (list nat)).

Lemma matching_entry D S tol rows u0 i u r :
  In (i, u, r) (matching D S tol rows u0) -> r = find_update D S tol u i.
Proof.
  revert u0. induction rows as [|a rs IH]; simpl; intros u0 Hin; [contradiction|].
  destruct Hin as [E | Hin]; [now inversion E | eapply IH, Hin].
Qed.

Lemma matching_rows D S tol rows u0 :
  map (fun e => fst (fst e)) (matching D S tol rows u0) = rows.
Proof.
  revert u0. induction rows as [|a rs IH]; simpl; intros u0; auto.
  now rewrite IH.
Qed.

Lemma claim_keys (u : OMap.t nat) r x :
  In x (OMap.keys (claim u r)) <-> r = Some x \/ In x (OMap.keys u).
Proof.
  destruct r as [c|]; simpl.
  - rewrite OMapFacts.keys_insert, OMapFacts.kinsert_In. split.
    + intros [E | E]; [left; now subst | now right].
    + intros [E | E]; [left; congruence | now right].
  - split; [auto | intros [E | E]; [discriminate | auto]].
Qed.

Lemma matching_used_grows D S tol rows u0 i u r x :
  In (i, u, r) (matching D S tol rows u0) ->
  In x (OMap.keys u0) -> In x (OMap.keys u).
Proof.
  revert u0. induction rows as [|a rs IH]; simpl; intros u0 Hin Hx; [contradiction|].
  destruct Hin as [E | Hin]; [now inversion E; subst|].
  apply (IH _ Hin). apply claim_keys. now right.
Qed.

(** A column taken by a row is not taken again by a later row. *)
Lemma matching_column_once D S tol rows u0 i j u u' c :
  In (i, u, Some c) (matching D S tol rows u0) ->
  In (j, u', Some c) (matching D S tol rows u0) ->
  i = j /\ u = u'.
Proof.
  revert u0. induction rows as [|a rs IH]; simpl; intros u0 H1 H2; [contradiction|].
  assert (G : forall i1 u1 j1 u2,
            (a, u0, find_update D S tol u0 a) = (i1, u1, Some c) ->
            In (j1, u2, Some c)
               (matching D S tol rs (claim u0 (find_update D S tol u0 a))) ->
            False).
  { intros i1 u1 j1 u2 E Hin. injection E as Ea Eu Er.
    rewrite Er in Hin.
    pose proof (matching_entry _ _ _ _ _ _ _ _ Hin) as Hf. symmetry in Hf.
    destruct (find_update_Some _ _ _ _ _ _ Hf) as (_ & Hn & _).
    apply Hn. apply (matching_used_grows _ _ _ _ _ _ _ _ c Hin).
    apply claim_keys. now left. }
  destruct H1 as [E1 | H1], H2 as [E2 | H2].
  - rewrite E1 in E2. inversion E2. auto.
  - exfalso. eapply G; eauto.
  - exfalso. eapply G; eauto.
  - eapply IH; eauto.
Qed.

(** The columns in [used_cols] after the loop are those that some row has
    taken. *)
Lemma used_after_keys D S tol rows u0 c :
  In c (OMap.keys (used_after D S tol rows u0)) ->
  In c (OMap.keys u0) \/
  exists i u, In (i, u, Some c) (matching D S tol rows u0).
Proof.
  revert u0. induction rows as [|a rs IH]; simpl; intros u0 Hin; auto.
  destruct (IH _ Hin) as [Hc | (i & u & Hm)].
  - apply claim_keys in Hc. destruct Hc as [E | Hc]; auto.
    right. exists a, u0. left. now rewrite E.
  - right. exists i, u. now right.
Qed.


Lemma NoDup_map_inj A B (f : A -> B) (l : list A) a b :
  NoDup (map f l) -> In a l -> In b l -> f a = f b -> a = b.
Proof.
  induction l as [|x l IH]; simpl; intros Hnd Ha Hb E; [contradiction|].
  inversion Hnd as [|? ? Hn Hnd']; subst.
  destruct Ha as [-> | Ha], Hb as [-> | Hb]; auto.
  - exfalso. apply Hn. rewrite E. now apply in_map.
  - exfalso. apply Hn. rewrite <- E. now apply in_map.
Qed.

Lemma find_split A (f : A -> bool) (l : list A) a :
  List.find f l = Some a ->
  exists l1 l2, l = l1 ++ a :: l2 /\ forall x, In x l1 -> f x = false.
Proof.
  induction l as [|x l IH]; simpl; [discriminate|].
  destruct (f x) eqn:E.
  - intros [= ->]. exists [], l. split; [reflexivity | intros ? []].
  - intros Hf. destruct (IH Hf) as (l1 & l2 & -> & Hl1).
    exists (x :: l1), l2. split; [reflexivity|].
    intros y [<- | Hy]; auto.
Qed.

(** The column a row takes is a nearest one among the columns that are
    still free. *)
Lemma find_update_nearest D m n tol used i c :
  i < m ->
  find_update D (sorted_ids D m n) tol used i = Some c ->
  forall c', c' < n -> ~ In c' (OMap.keys used) ->
    dist_lt (mat_at D i c') (mat_at D i c) = false.
Proof.
  intros Hi Hf c' Hc' Hfree.
  destruct (find_update_Some _ _ _ _ _ _ Hf) as (_ & _ & Hlt).
  unfold find_update in Hf. apply find_split in Hf.
  destruct Hf as (l1 & l2 & El & Hl1).
  pose proof (sorted_ids_perm D m n i Hi) as Hp.
  assert (Hs : sorted_by (fun a b => dist_lt (mat_at D i a) (mat_at D i b))
                 (nth i (sorted_ids D m n) [])).
  { rewrite sorted_ids_row by exact Hi. apply std_sort_sorted.
    apply (swo_pullback _ _ (mat_at D i) dist_lt), dist_lt_swo. }
  assert (Hin : In c' (nth i (sorted_ids D m n) [])).
  { apply (Permutation_in _ Hp). apply in_seq. lia. }
  rewrite El in Hin, Hs. apply in_app_or in Hin.
  destruct dist_lt_swo as (Hirr & Htr & _).
  destruct Hin as [Hin | [<- | Hin]].
  - specialize (Hl1 c' Hin). apply andb_false_iff in Hl1.
    destruct Hl1 as [Hu | Hd].
    + apply OMapFacts.count_zero in Hfree. congruence.
    + destruct (dist_lt (mat_at D i c') (mat_at D i c)) eqn:E; auto.
      rewrite (Htr _ _ _ E Hlt) in Hd. discriminate.
  - apply Hirr.
  - unfold sorted_by in Hs. apply sorted_app_r in Hs.
    inversion Hs as [|? ? _ Hall]; subst.
    rewrite Forall_forall in Hall. now apply Hall.
Qed.


(** The general branch with its rows and with the detections it registers,
    before the cleanup. *)
Lemma update_general_parts s objs :
  WF s -> objs <> [] -> tracked s <> [] ->
  let m := OMap.size (m_active_objects s) in
  let D := dist_matrix_of s objs in
  let S := sorted_ids D m (length objs) in
  let rows := active_obj_ids D S m in
  let tol := m_dist_tol s in
  let used := used_after D S tol rows (OMap.empty nat) in
  let L := new_objects (nth 0 S []) objs used in
  exists s1,
    update objs s = cleanup_dissapeared (register_all L s1) /\
    WF s1 /\ same_shape s s1 /\
    (forall i id, nth_error (m_id_list s) i = Some id ->
       exists u r, In (i, u, r) (matching D S tol rows (OMap.empty nat)) /\
                   row_post objs id r s s1).
Proof.
  intros W Hn Hm m D S rows tol used L.
  assert (Hm' : 0 < OMap.size (m_active_objects s)).
  { unfold tracked, OMap.keys in Hm. unfold OMap.size.
    destruct (m_active_objects s); [contradiction | simpl; lia]. }
  destruct (update_match_spec s objs W Hm') as (s1 & Eu & W1 & Hsh & Hrows).
  exists s1. split; [|split; [exact W1|split; [exact Hsh|exact Hrows]]].
  unfold update. unfold bind at 1.
  destruct (length objs =? 0) eqn:En;
    [apply Nat.eqb_eq in En; destruct objs; [contradiction | discriminate]|].
  unfold bind at 1. rewrite object_count_eq.
  destruct (length (tracked s) =? 0) eqn:Em;
    [apply Nat.eqb_eq in Em; destruct (tracked s); [contradiction | discriminate]|].
  rewrite Eu. reflexivity.
Qed.

Lemma rows_NoDup D S m : NoDup (active_obj_ids D S m).
Proof.
  eapply Permutation_NoDup; [apply active_obj_ids_perm | apply seq_NoDup].
Qed.

(** One entry per row. *)
Lemma matching_row_once D S tol m i u r u' r' :
  let M := matching D S tol (active_obj_ids D S m) (OMap.empty nat) in
  In (i, u, r) M -> In (i, u', r') M -> u = u' /\ r = r'.
Proof.
  intros M H1 H2.
  assert (E : (i, u, r) = (i, u', r')).
  { apply (NoDup_map_inj _ _ (fun e => fst (fst e)) M); auto.
    unfold M. rewrite matching_rows. apply rows_NoDup. }
  now inversion E.
Qed.

(** A row that takes a column: the row is one of the identities, the
    column one of the detections, free before the row and closer than the
    tolerance. *)
Lemma matching_taken_column D m n tol i u c :
  In (i, u, Some c)
     (matching D (sorted_ids D m n) tol
        (active_obj_ids D (sorted_ids D m n) m) (OMap.empty nat)) ->
  i < m /\ c < n /\ ~ In c (OMap.keys u) /\
  dist_lt (mat_at D i c) tol = true.
Proof.
  intros Hin.
  assert (Hi : i < m).
  { assert (Hr : In i (active_obj_ids D (sorted_ids D m n) m)).
    { rewrite <- (matching_rows D (sorted_ids D m n) tol _ (OMap.empty nat)).
      exact (in_map (fun e => fst (fst e)) _ _ Hin). }
    apply (Permutation_in _ (Permutation_sym (active_obj_ids_perm D _ m))) in Hr.
    apply in_seq in Hr. lia. }
  pose proof (matching_entry _ _ _ _ _ _ _ _ Hin) as Hf. symmetry in Hf.
  destruct (find_update_Some _ _ _ _ _ _ Hf) as (Hc & Hfree & Hlt).
  apply (Permutation_in _ (Permutation_sym (sorted_ids_perm D m n i Hi))) in Hc.
  apply in_seq in Hc. repeat split; auto; lia.
Qed.

(** The first column of a ranking is a nearest detection of its row. *)
Lemma row_best D m n a :
  a < m -> 0 < n ->
  ids_at (sorted_ids D m n) a 0 < n /\
  forall c, c < n ->
    dist_lt (mat_at D a c) (mat_at D a (ids_at (sorted_ids D m n) a 0)) = false.
Proof.
  intros Ha Hn.
  pose proof (sorted_ids_perm D m n a Ha) as Hp.
  assert (Hrs : sorted_by (fun x y => dist_lt (mat_at D a x) (mat_at D a y))
                 (nth a (sorted_ids D m n) [])).
  { rewrite sorted_ids_row by exact Ha. apply std_sort_sorted.
    apply (swo_pullback _ _ (mat_at D a) dist_lt), dist_lt_swo. }
  unfold ids_at.
  destruct (nth a (sorted_ids D m n) []) as [|c0 r] eqn:Er.
  { apply Permutation_length in Hp. rewrite length_seq in Hp.
    simpl in Hp. lia. }
  simpl nth. split.
  - assert (Hin : In c0 (seq 0 n))
      by (apply (Permutation_in _ (Permutation_sym Hp)); now left).
    apply in_seq in Hin. lia.
  - intros c Hc.
    assert (Hin : In c (c0 :: r))
      by (apply (Permutation_in _ Hp); apply in_seq; lia).
    destruct Hin as [<- | Hin].
    + destruct dist_lt_swo as (Hirr & _). apply Hirr.
    + unfold sorted_by in Hrs. inversion Hrs as [|? ? _ Hall]; subst.
      rewrite Forall_forall in Hall. now apply Hall.
Qed.

Lemma sorted_by_nth A (comp : A -> A -> bool) (l : list A) :
  sorted_by comp l ->
  forall p q a b, p < q -> nth_error l p = Some a -> nth_error l q = Some b ->
    comp b a = false.
Proof.
  unfold sorted_by. induction 1 as [|h r Hs IH Hall]; intros p q a b Hpq Hp Hq.
  - now destruct p.
  - destruct q as [|q]; [lia|]. simpl in Hq. destruct p as [|p].
    + injection Hp as <-. rewrite Forall_forall in Hall.
      apply Hall. eapply nth_error_In, Hq.
    + simpl in Hp. apply (IH p q a b); auto. lia.
Qed.

(** X10: the rows are visited in ascending order of their smallest
    distance: the order is a permutation of the rows, no row comes before a
    row whose smallest distance is strictly smaller, and the distance at the
    first column of a row's ranking is a smallest one of that row. *)
Theorem rows_by_smallest_distance D m n :
  0 < n ->
  let S := sorted_ids D m n in
  let best := fun a => mat_at D a (ids_at S a 0) in
  let rows := active_obj_ids D S m in
  Permutation (seq 0 m) rows /\
  sorted_by (fun a b => dist_lt (best a) (best b)) rows /\
  (forall p q a b, p < q -> nth_error rows p = Some a ->
     nth_error rows q = Some b -> dist_lt (best b) (best a) = false) /\
  (forall a, a < m ->
     ids_at S a 0 < n /\
     forall c, c < n -> dist_lt (mat_at D a c) (best a) = false).
Proof.
  intros Hn S best rows.
  assert (Hswo : strict_weak_order (fun a b => dist_lt (best a) (best b)))
    by (apply (swo_pullback _ _ best dist_lt), dist_lt_swo).
  assert (Hs : sorted_by (fun a b => dist_lt (best a) (best b)) rows)
    by (apply std_sort_sorted, Hswo).
  split; [apply active_obj_ids_perm|]. split; [exact Hs|]. split.
  - apply (sorted_by_nth _ (fun a b => dist_lt (best a) (best b))). exact Hs.
  - intros a Ha. now apply row_best.
Qed.






End MatchingFacts.

(** * More on [update] *)

Section UpdateParts.
Context {Coord Distance : Type}.
Context `{DO : DistanceOrder Coord Distance}.
Context {OR : ObjectRanking Coord}.
Context {SS : StdSort}.
Local Abbreviation Obj := (Object Coord).
Local Abbreviation Tracker := (@ObjectTracker Coord Distance).
Local Abbreviation Call := (@call Coord).
Implicit Types (s : Tracker) (id : ObjectID) (objs L : list Obj).

(** [update] in two steps: the tracked identities are matched or missed,
    which gives [s1]; then the detections [L] that no identity has taken
    are registered.  The cleanup comes last. *)
Record update_parts objs s s1 L : Prop := {
  up_update : update objs s = cleanup_dissapeared (register_all L s1);
  up_WF : WF s1;
  up_shape : same_shape s s1;
  up_incl : forall o, In o L -> In o objs;
  up_length : length L <= length objs;
  up_old : forall id, In id (tracked s) ->
      missed_at id s s1 \/ exists o, In o objs /\ matched_at id o s s1;
  up_kept : forall o, In o objs ->
      In o L \/ exists id, In id (tracked s) /\ matched_at id o s s1
}.

Lemma register_all_bounded L s :
  WF s -> bounded s -> bounded (register_all L s).
Proof.
  intros W B id c Hc.
  destruct (register_all_config L s) as [(_ & Emax & _) _]. rewrite Emax.
  assert (Hin : In id (tracked (register_all L s))).
  { rewrite <- (wf_disappeared _ (register_all_WF L s W)).
    eapply OMapFacts.find_Some_keys, Hc. }
  rewrite register_all_tracked in Hin by exact W.
  apply in_app_or in Hin. destruct Hin as [Hin | Hin].
  - destruct (register_all_same_at L s id) as (_ & _ & E & _).
    { now apply tracked_below_next. }
    unfold disappeared_of in *. rewrite E in Hc. now apply (B id).
  - apply in_seq in Hin.
    destruct (nth_error L (id - m_next_id s)) as [o|] eqn:Eo;
      [|apply nth_error_None in Eo; lia].
    destruct (register_all_new L s _ o Eo) as (_ & _ & E3 & _).
    replace (m_next_id s + (id - m_next_id s)) with id in E3 by lia.
    unfold disappeared_of in *. rewrite E3 in Hc. injection Hc as <-. lia.
Qed.

Lemma update_in_parts s objs :
  WF s -> bounded s -> exists s1 L, update_parts objs s s1 L.
Proof.
  intros W B. destruct objs as [|o0 objs'].
  - destruct (miss_all_spec s W) as (s1 & Es & W1 & Hsh & Hm).
    exists s1, [].
    split; [|exact W1|exact Hsh|intros o []|simpl; lia
           |intros id Hin; left; now apply Hm|intros o []].
    unfold update. unfold bind at 1. simpl. unfold bind at 1, gets at 1.
    rewrite Es. reflexivity.
  - set (objs := o0 :: objs').
    destruct (tracked s) as [|id0 ids] eqn:Ht.
    + exists s, objs.
      split; [|exact W|apply same_shape_refl|auto|lia
             |intros id Hin; rewrite Ht in Hin; destruct Hin|auto].
      rewrite (update_on_empty s objs W Ht). symmetry.
      apply cleanup_returns; [now apply register_all_WF|].
      now apply register_all_bounded.
    + assert (Hn : objs <> []) by discriminate.
      assert (Hne : tracked s <> []) by (rewrite Ht; discriminate).
      assert (Hm : 0 < OMap.size (m_active_objects s)).
      { unfold tracked, OMap.keys in Ht. unfold OMap.size.
        destruct (m_active_objects s); [discriminate | simpl; lia]. }
      destruct (update_general_parts s objs W Hn Hne) as (s1 & Eu & W1 & Hsh & Hrows).
      set (m := OMap.size (m_active_objects s)) in *.
      set (D := dist_matrix_of s objs) in *.
      set (S := sorted_ids D m (length objs)) in *.
      set (rows := active_obj_ids D S m) in *.
      set (used := used_after D S (m_dist_tol s) rows (OMap.empty nat)) in *.
      pose proof (sorted_ids_perm D m (length objs) 0 Hm) as Hp. fold S in Hp.
      assert (Hcols : forall c, In c (nth 0 S []) -> c < length objs).
      { intros c Hc. apply (Permutation_in _ (Permutation_sym Hp)) in Hc.
        apply in_seq in Hc. lia. }
      eexists s1, _. split; [exact Eu|exact W1|exact Hsh| | | |].
      * intros o. now apply new_objects_incl.
      * unfold new_objects. rewrite length_map.
        etransitivity; [apply filter_length_le|].
        rewrite <- (Permutation_length Hp), length_seq. lia.
      * intros id Hin.
        apply (WF_id_tracked s id W) in Hin.
        apply In_nth_error in Hin. destruct Hin as [i Ei].
        destruct (Hrows i id Ei) as (u & [c|] & _ & Hp'); simpl in Hp'.
        { right. destruct Hp' as (o & Ho & Hma). exists o. split; auto.
          eapply nth_error_In, Ho. }
        { now left. }
      * intros o Ho. apply In_nth_error in Ho. destruct Ho as [c Ec].
        assert (Hc : c < length objs) by (apply nth_error_Some; congruence).
        destruct (OMap.count c used =? 0) eqn:Eused.
        { left. unfold new_objects. apply in_map_iff. exists c. split.
          - now apply nth_error_nth.
          - apply filter_In. split; [|exact Eused].
            apply (Permutation_in _ Hp), in_seq. lia. }
        right.
        assert (Hk : In c (OMap.keys used)).
        { destruct (in_dec Nat.eq_dec c (OMap.keys used)) as [H1 | H1]; auto.
          apply OMapFacts.count_zero in H1. congruence. }
        apply used_after_keys in Hk. destruct Hk as [[] | (i & u & Hin)].
        destruct (matching_taken_column D m (length objs) (m_dist_tol s) i u c Hin)
          as (Hi & _).
        destruct (nth_error (m_id_list s) i) as [id|] eqn:Ei;
          [|apply nth_error_None in Ei; rewrite (WF_length s W) in Ei;
            unfold m in Hi; lia].
        exists id. split.
        { apply (WF_id_tracked s id W). eapply nth_error_In, Ei. }
        destruct (Hrows i id Ei) as (u' & r' & Hin' & Hp').
        destruct (matching_row_once D S (m_dist_tol s) m i u' r' u (Some c) Hin' Hin)
          as [-> ->].
        simpl in Hp'. destruct Hp' as (o' & Ho' & Hma).
        assert (o' = o) by congruence. now subst o'.
Qed.

Lemma update_parts_returns objs s s1 L :
  update_parts objs s s1 L ->
  bounded (register_all L s1) ->
  update objs s = Some (tt, register_all L s1).
Proof.
  intros P B. rewrite (up_update _ _ _ _ P).
  apply cleanup_returns; [|exact B].
  apply register_all_WF, (up_WF _ _ _ _ P).
Qed.

Lemma filter_below_all (b : nat) (l : list nat) :
  Forall (fun k => k < b) l -> filter (fun k => k <? b) l = l.
Proof.
  induction 1 as [|k r Hk Hall IH]; simpl; auto.
  apply Nat.ltb_lt in Hk. now rewrite Hk, IH.
Qed.

(** Registration inserts new ids into the vector and moves no other. *)
Lemma register_all_old_ids L s b :
  b <= m_next_id s ->
  filter (fun k => k <? b) (m_id_list (register_all L s))
  = filter (fun k => k <? b) (m_id_list s).
Proof.
  revert s. induction L as [|o L IH]; simpl; intros s Hb; auto.
  rewrite IH by (simpl; lia). simpl. unfold vec_insert.
  rewrite filter_app. simpl.
  assert (E : (m_next_id s <? b) = false) by (apply Nat.ltb_ge; lia).
  rewrite E, <- filter_app. now rewrite firstn_skipn.
Qed.

Lemma WF_ids_below s : WF s -> Forall (fun k => k < m_next_id s) (m_id_list s).
Proof.
  intros W. apply Forall_forall. intros id Hin.
  apply (WF_id_tracked s id W) in Hin.
  now apply tracked_below_next.
Qed.

(** X11: [update] never moves an identity in the id vector: the ids that
    were in the vector are still there, in the same order, and the ids
    inserted among them are new ones from the counter. *)
Theorem update_moves_no_identity s objs :
  reachable s ->
  exists s2, update objs s = cleanup_dissapeared s2 /\
    (bounded s2 -> update objs s = Some (tt, s2)) /\
    filter (fun id => id <? m_next_id s) (m_id_list s2) = m_id_list s /\
    (forall id, In id (m_id_list s2) ->
       In id (m_id_list s) \/ m_next_id s <= id).
Proof.
  intros Hr. destruct (reachable_inv s Hr) as [W B].
  destruct (update_in_parts s objs W B) as (s1 & L & P).
  pose proof (up_shape _ _ _ _ P) as Hsh.
  exists (register_all L s1). split; [apply (up_update _ _ _ _ P)|].
  split; [now apply update_parts_returns|].
  assert (E : filter (fun id => id <? m_next_id s)
                (m_id_list (register_all L s1)) = m_id_list s).
  { rewrite register_all_old_ids by (rewrite (shape_next_id _ _ Hsh); lia).
    rewrite (shape_id_list _ _ Hsh). apply filter_below_all.
    now apply WF_ids_below. }
  split; [exact E|].
  intros id Hin. destruct (id <? m_next_id s) eqn:Hlt.
  - left. rewrite <- E. apply filter_In. auto.
  - right. now apply Nat.ltb_ge.
Qed.

Lemma objects_of_same s s1 :
  WF s -> m_id_list s1 = m_id_list s ->
  (forall id, In id (tracked s) -> obj_of s1 id = obj_of s id) ->
  objects_of s1 = objects_of s.
Proof.
  intros W Ei Ho. unfold objects_of. rewrite Ei.
  apply map_ext_in. intros id Hin. unfold object_at.
  rewrite Ho; auto. now apply (WF_id_tracked s id W).
Qed.

(** X12: when [operator>] is a strict weak order and the id vector is in
    descending rank order, it is still so after an [update] in which every
    tracked identity keeps its object (missed, or matched with an equal
    object), whatever is newly registered. *)
Theorem rank_order_kept_without_refresh s objs :
  strict_weak_order (A := Obj) Object_gt ->
  reachable s -> rank_sorted s ->
  exists s2, update objs s = cleanup_dissapeared s2 /\
    (bounded s2 -> update objs s = Some (tt, s2)) /\
    ((forall id, In id (tracked s) -> obj_of s2 id = obj_of s id) ->
     rank_sorted s2).
Proof.
  intros Hswo Hr Hs. destruct (reachable_inv s Hr) as [W B].
  destruct (update_in_parts s objs W B) as (s1 & L & P).
  pose proof (up_shape _ _ _ _ P) as Hsh.
  pose proof (up_WF _ _ _ _ P) as W1.
  exists (register_all L s1). split; [apply (up_update _ _ _ _ P)|].
  split; [now apply update_parts_returns|].
  intros Hsame. apply register_all_rank_sorted; auto.
  unfold rank_sorted. rewrite (objects_of_same s s1 W); auto.
  - apply (shape_id_list _ _ Hsh).
  - intros id Hin. rewrite <- (Hsame id Hin). symmetry.
    apply (register_all_same_at L s1 id).
    rewrite (shape_next_id _ _ Hsh). now apply tracked_below_next.
Qed.

Lemma eligible_missed s id :
  0 < m_min_framecount s -> framecount_of s id = Some 0 -> eligible s id = false.
Proof.
  intros Hmin Hfc. unfold eligible. rewrite Hfc.
  destruct (uprooted_of s id); auto.
  assert (E : (m_min_framecount s <=? 0) = false) by (apply Nat.leb_gt; lia).
  now rewrite E.
Qed.

(** X13: after [update], an identity that the frame missed (its frame
    count is then 0) is not eligible for [topValid] when [m_min_framecount]
    is positive; a newly registered identity is eligible exactly when
    [m_min_framecount] is at most 1; and after a frame without detections
    [topValid] returns none when [m_min_framecount] is positive. *)
Theorem eligibility_after_update s objs :
  reachable s ->
  exists s2, update objs s = cleanup_dissapeared s2 /\
    (bounded s2 -> update objs s = Some (tt, s2)) /\
    (forall id, In id (tracked s) -> missed_at id s s2 ->
       0 < m_min_framecount s -> eligible s2 id = false) /\
    (forall id, In id (tracked s2) -> ~ In id (tracked s) ->
       eligible s2 id = (m_min_framecount s <=? 1)) /\
    (objs = [] -> 0 < m_min_framecount s -> topValid s2 = Some (None, s2)).
Proof.
  intros Hr. destruct (reachable_inv s Hr) as [W _].
  destruct (update_spec s objs W) as (s2 & Eu & M).
  pose proof (mm_WF _ _ _ M) as W2.
  assert (Hmin : m_min_framecount s2 = m_min_framecount s)
    by apply (mm_config _ _ _ M).
  exists s2. split; [exact Eu|].
  split; [intros B; rewrite Eu; now apply cleanup_returns|].
  split; [|split].
  - intros id Hin (_ & _ & Hfc) Hpos. apply eligible_missed; auto.
    now rewrite Hmin.
  - intros id Hin Hn. apply (mm_tracked _ _ _ M) in Hin.
    destruct Hin as [Hin | Hnb]; [contradiction|].
    destruct (mm_new _ _ _ M id Hnb) as (_ & Eup & _ & Efc).
    unfold eligible. rewrite Efc, Eup, Hmin. apply andb_true_r.
  - intros -> Hpos. rewrite topValid_eq, (topValid_entry_WF s2 W2).
    destruct (first_eligible s2) as [[id o]|] eqn:Ef; [|reflexivity].
    exfalso. destruct (first_eligible_Some s2 id o Ef) as (Ho & He & _).
    assert (Hin2 : In id (tracked s2)) by (eapply obj_tracked, Ho).
    apply (mm_tracked _ _ _ M) in Hin2. destruct Hin2 as [Hin | Hnb].
    + destruct (mm_old _ _ _ M id Hin) as [_ [Hmi | (o' & [] & _)]].
      destruct Hmi as (_ & _ & Hfc).
      rewrite eligible_missed in He; [discriminate | now rewrite Hmin | exact Hfc].
    + destruct (mm_new _ _ _ M id Hnb) as ((o' & [] & _) & _).
Qed.

(** X14: from an empty registry, with [operator>] a strict weak order,
    [update] returns; the [k]-th detection gets the id [m_next_id + k];
    [active_objects] lists the detections in descending rank order, and
    [top] returns a detection that no other detection ranks above. *)
Theorem update_from_empty_in_rank_order s objs :
  strict_weak_order (A := Obj) Object_gt ->
  reachable s -> tracked s = [] ->
  exists s' l, update objs s = Some (tt, s') /\
    active_objects s' = Some (l, s') /\
    descending l /\
    (forall k o, nth_error objs k = Some o ->
       obj_of s' (m_next_id s + k) = Some o) /\
    (forall t, top s' = Some (Some t, s') ->
       In t objs /\ forall o, In o objs -> Object_gt o t = false).
Proof.
  intros Hswo Hr Ht. destruct (reachable_inv s Hr) as [W B].
  set (s' := register_all objs s).
  assert (W' : WF s') by now apply register_all_WF.
  assert (Ei : m_id_list s = []).
  { apply Permutation_nil. rewrite <- Ht. apply Permutation_sym, (wf_id_list _ W). }
  assert (Hs : rank_sorted s').
  { apply register_all_rank_sorted; auto.
    unfold rank_sorted, descending, objects_of. rewrite Ei. constructor. }
  pose proof (register_all_objects objs s W Ht) as Hp. fold s' in Hp.
  exists s', (objects_of s').
  split; [now apply update_on_empty|].
  split; [now apply active_objects_WF|]. split; [exact Hs|]. split.
  - intros k o Ek. now destruct (register_all_new objs s k o Ek) as (E & _).
  - intros t Et. rewrite (top_WF s' W') in Et.
    unfold rank_sorted, descending, objects_of in Hs, Hp.
    destruct (m_id_list s') as [|id r]; [discriminate|].
    injection Et as <-. simpl in Hs, Hp.
    split; [apply (Permutation_in _ Hp); now left|].
    intros o Ho. apply (Permutation_in _ (Permutation_sym Hp)) in Ho.
    destruct Ho as [<- | Ho].
    + destruct Hswo as (Hirr & _). apply Hirr.
    + inversion Hs as [|? ? _ Hall]; subst. rewrite Forall_forall in Hall.
      now apply Hall.
Qed.

End UpdateParts.

Section UpdateDetections.
Context {Coord Distance : Type}.
Context `{DO : DistanceOrder Coord Distance}.
Context {OR : ObjectRanking Coord}.
Context {SS : StdSort}.
Local Abbreviation Obj := (Object Coord).
Local Abbreviation Tracker := (@ObjectTracker Coord Distance).
Implicit Types (s : Tracker) (id : ObjectID) (objs L : list Obj).

(** X15: in the general case of [update] every identity has exactly one
    row in the matching, which says whether the identity was matched or
    missed; a detection taken by one row is taken by no other row, and it
    was free when it was taken. *)
Theorem no_detection_matched_twice s objs :
  reachable s -> objs <> [] -> tracked s <> [] ->
  let m := OMap.size (m_active_objects s) in
  let D := dist_matrix_of s objs in
  let S := sorted_ids D m (length objs) in
  let rows := active_obj_ids D S m in
  let M := matching D S (m_dist_tol s) rows (OMap.empty nat) in
  exists s2, update objs s = cleanup_dissapeared s2 /\
    (bounded s2 -> update objs s = Some (tt, s2)) /\
    (forall i id, nth_error (m_id_list s) i = Some id ->
       exists u r, In (i, u, r) M /\ row_post objs id r s s2 /\
         forall u' r', In (i, u', r') M -> u' = u /\ r' = r) /\
    (forall i j u u' c,
       In (i, u, Some c) M -> In (j, u', Some c) M -> i = j /\ u = u') /\
    (forall i u c, In (i, u, Some c) M ->
       i < m /\ c < length objs /\ ~ In c (OMap.keys u)).
Proof.
  intros Hr Hn Hm m D S rows M.
  destruct (reachable_inv s Hr) as [W B].
  destruct (update_general_spec s objs W Hn Hm) as (s2 & Eu & W2 & Hc & Hrows).
  fold m D S rows M in Hrows.
  exists s2. split; [exact Eu|].
  split; [intros B2; rewrite Eu; now apply cleanup_returns|].
  split; [|split].
  - intros i id Ei. destruct (Hrows i id Ei) as (u & r & Hin & Hp).
    exists u, r. split; [exact Hin|]. split; [exact Hp|].
    intros u' r' Hin'.
    destruct (matching_row_once D S (m_dist_tol s) m i u r u' r' Hin Hin');
      auto.
  - intros i j u u' c. apply matching_column_once.
  - intros i u c Hin.
    destruct (matching_taken_column D m (length objs) (m_dist_tol s) i u c Hin)
      as (Hi & Hc' & Hfree & _). auto.
Qed.


(** X17: in the general case of [update] an identity that is matched is
    matched with a nearest detection among those that no earlier row has
    taken: none of them is strictly closer to the identity. *)
Theorem match_takes_nearest_free_detection s objs :
  reachable s -> objs <> [] -> tracked s <> [] ->
  let m := OMap.size (m_active_objects s) in
  let D := dist_matrix_of s objs in
  let S := sorted_ids D m (length objs) in
  let rows := active_obj_ids D S m in
  let tol := m_dist_tol s in
  exists s2, update objs s = cleanup_dissapeared s2 /\
    (bounded s2 -> update objs s = Some (tt, s2)) /\
    forall i id used c,
      nth_error (m_id_list s) i = Some id ->
      In (i, used, Some c) (matching D S tol rows (OMap.empty nat)) ->
      exists o, nth_error objs c = Some o /\ matched_at id o s s2 /\
        forall c' o', nth_error objs c' = Some o' ->
          ~ In c' (OMap.keys used) ->
          dist_lt (euclidean_distance (object_at s id) o')
                  (euclidean_distance (object_at s id) o) = false.
Proof.
  intros Hr Hn Hm m D S rows tol.
  destruct (reachable_inv s Hr) as [W B].
  destruct (update_general_spec s objs W Hn Hm) as (s2 & Eu & W2 & Hc & Hrows).
  fold m D S rows tol in Hrows.
  exists s2. split; [exact Eu|].
  split; [intros B2; rewrite Eu; now apply cleanup_returns|].
  intros i id used c Ei Hin.
  destruct (Hrows i id Ei) as (u & r & Hin' & Hp).
  destruct (matching_row_once D S tol m i u r used (Some c) Hin' Hin) as [-> ->].
  simpl in Hp. destruct Hp as (o & Ho & Hma).
  exists o. split; [exact Ho|]. split; [exact Hma|].
  intros c' o' Ho' Hfree.
  assert (Hi : i < m).
  { unfold m. rewrite <- (WF_length s W). apply nth_error_Some. congruence. }
  assert (Hrow : row_object s i = object_at s id)
    by (unfold row_object; now rewrite Ei).
  rewrite <- Hrow.
  rewrite <- (mat_at_dist_matrix s objs i c' o' Hi Ho').
  rewrite <- (mat_at_dist_matrix s objs i c o Hi Ho).
  pose proof (matching_entry _ _ _ _ _ _ _ _ Hin) as Hf. symmetry in Hf.
  apply (find_update_nearest D m (length objs) tol used i c Hi Hf); auto.
  apply nth_error_Some. congruence.
Qed.





(** X21: when every disappeared counter is strictly below
    [m_max_dissapeared_frms], [update] returns, whatever the detections; no
    identity is removed and no counter ends above the limit. *)
Theorem update_returns_below_limit s objs :
  reachable s ->
  (forall id d, disappeared_of s id = Some d -> d < m_max_dissapeared_frms s) ->
  exists s', update objs s = Some (tt, s') /\
    (forall id, In id (tracked s) -> In id (tracked s')) /\
    (forall id d, disappeared_of s' id = Some d ->
       d <= m_max_dissapeared_frms s').
Proof.
  intros Hr Hlt. destruct (reachable_inv s Hr) as [W _].
  destruct (update_spec s objs W) as (s2 & Eu & M).
  pose proof (mm_WF _ _ _ M) as W2.
  assert (Emax : m_max_dissapeared_frms s2 = m_max_dissapeared_frms s)
    by apply (mm_config _ _ _ M).
  assert (B2 : bounded s2).
  { intros id c Hc. rewrite Emax.
    assert (Hin2 : In id (tracked s2)).
    { rewrite <- (wf_disappeared _ W2). eapply OMapFacts.find_Some_keys, Hc. }
    apply (mm_tracked _ _ _ M) in Hin2. destruct Hin2 as [Hin | Hnb].
    - destruct (tracked_disappeared s id W Hin) as [d Hd].
      specialize (Hlt id d Hd).
      destruct (mm_old _ _ _ M id Hin) as [_ [Hmi | (o & _ & Hma)]].
      + destruct Hmi as (_ & E & _). rewrite E, Hd in Hc. simpl in Hc.
        injection Hc as <-. lia.
      + destruct Hma as (_ & E & _). rewrite E, Hd in Hc.
        injection Hc as <-. lia.
    - destruct (mm_new _ _ _ M id Hnb) as (_ & _ & E & _).
      rewrite E in Hc. injection Hc as <-. lia. }
  exists s2. split; [rewrite Eu; now apply cleanup_returns|].
  split; [|exact B2].
  intros id Hin. apply (mm_tracked _ _ _ M). now left.
Qed.

(** X22: when the disappeared counter of an identity stands at
    [m_max_dissapeared_frms] and every detection of the frame (if any) lies
    at the tolerance or beyond from it, the frame takes the counter above
    the limit, the cleanup erases the identity under its own iterator, and
    [update] has no defined result. *)
Theorem update_has_no_result_on_expiry s objs id :
  reachable s ->
  disappeared_of s id = Some (m_max_dissapeared_frms s) ->
  (forall o, In o objs ->
     dist_lt (euclidean_distance (object_at s id) o) (m_dist_tol s) = false) ->
  update objs s = None.
Proof.
  intros Hr Hd Hfar. destruct (reachable_inv s Hr) as [W B].
  assert (Hin : In id (tracked s)).
  { rewrite <- (wf_disappeared _ W). eapply OMapFacts.find_Some_keys, Hd. }
  assert (G : exists s2, update objs s = cleanup_dissapeared s2 /\ WF s2 /\
                same_config s s2 /\ missed_at id s s2).
  { destruct objs as [|o0 objs'].
    - destruct (update_in_parts s [] W B) as (s1 & L & P).
      assert (EL : L = []).
      { destruct L as [|o L]; auto.
        destruct (up_incl _ _ _ _ P o (or_introl eq_refl)). }
      subst L. exists s1. split; [apply (up_update _ _ _ _ P)|].
      split; [apply (up_WF _ _ _ _ P)|].
      split; [apply (shape_config _ _ (up_shape _ _ _ _ P))|].
      destruct (up_old _ _ _ _ P id Hin) as [Hmi | (o & [] & _)]. exact Hmi.
    - set (objs := o0 :: objs') in *.
      assert (Hn : objs <> []) by discriminate.
      assert (Hne : tracked s <> []) by (intros E; rewrite E in Hin; destruct Hin).
      destruct (update_general_parts s objs W Hn Hne)
        as (s1 & Eu & W1 & Hsh & Hrows).
      set (m := OMap.size (m_active_objects s)) in *.
      set (D := dist_matrix_of s objs) in *.
      set (S := sorted_ids D m (length objs)) in *.
      set (rows := active_obj_ids D S m) in *.
      set (tol := m_dist_tol s) in *.
      eexists. split; [exact Eu|].
      split; [now apply register_all_WF|].
      split; [eapply same_config_trans;
                [apply (shape_config _ _ Hsh) | apply register_all_config]|].
      pose proof Hin as Hin'. apply (WF_id_tracked s id W) in Hin'.
      apply In_nth_error in Hin'. destruct Hin' as [i Ei].
      destruct (Hrows i id Ei) as (u & r & Hin2 & Hp).
      assert (Er : r = None).
      { destruct r as [c|]; [exfalso|reflexivity].
        destruct (matching_taken_column D m (length objs) tol i u c Hin2)
          as (Hi & Hc & _ & Hlt).
        destruct (nth_error objs c) as [o|] eqn:Eo;
          [|apply nth_error_None in Eo; lia].
        unfold D in Hlt. rewrite (mat_at_dist_matrix s objs i c o Hi Eo) in Hlt.
        unfold row_object in Hlt. rewrite Ei in Hlt.
        rewrite Hfar in Hlt; [discriminate | eapply nth_error_In, Eo]. }
      subst r. simpl in Hp.
      eapply missed_at_same; [exact Hp|].
      apply register_all_same_at. rewrite (shape_next_id _ _ Hsh).
      now apply tracked_below_next. }
  destruct G as (s2 & Eu & W2 & Hc & (_ & E & _)).
  rewrite Eu. apply cleanup_undefined; [exact W2|].
  intros B2. rewrite Hd in E. simpl in E. specialize (B2 id _ E).
  destruct Hc as (_ & Emax & _). rewrite Emax in B2. lia.
Qed.

End UpdateDetections.

(** * The distance, and [topValid] next to the other queries *)

Section DistanceAndQueries.
Context {Coord Distance : Type}.
Context `{DO : DistanceOrder Coord Distance}.
Context {OR : ObjectRanking Coord}.
Context {SS : StdSort}.
Local Abbreviation Obj := (Object Coord).
Local Abbreviation Tracker := (@ObjectTracker Coord Distance).
Implicit Types (s : Tracker) (id : ObjectID) (a b : Obj).

(** X23: [euclidean_distance] reads the three coordinates only, never
    [size]; and it is symmetric as soon as the square of a difference does
    not depend on the order of its operands. *)
Theorem euclidean_distance_symmetric a b :
  (forall p q : Distance,
     dist_mul (dist_sub p q) (dist_sub p q)
     = dist_mul (dist_sub q p) (dist_sub q p)) ->
  euclidean_distance a b = euclidean_distance b a /\
  forall sa sb,
    euclidean_distance (mkObject (x a) (y a) (z a) sa)
                       (mkObject (x b) (y b) (z b) sb)
    = euclidean_distance a b.
Proof.
  intros Hsq. split; [|reflexivity].
  unfold euclidean_distance.
  now rewrite (Hsq (to_Distance (x a))), (Hsq (to_Distance (y a))),
    (Hsq (to_Distance (z a))).
Qed.

(** X24: [topValid] changes nothing that the other queries read: after it,
    [active_objects], [object_count] and [top] return what they returned
    before, and the counters, the id vector and the next id are as they
    were. *)
Theorem topValid_keeps_other_queries s :
  reachable s ->
  exists r s' l n t,
    topValid s = Some (r, s') /\
    active_objects s = Some (l, s) /\ active_objects s' = Some (l, s') /\
    object_count s = Some (n, s) /\ object_count s' = Some (n, s') /\
    top s = Some (t, s) /\ top s' = Some (t, s') /\
    m_active_objects s' = m_active_objects s /\
    m_disappeared s' = m_disappeared s /\
    m_framecount s' = m_framecount s /\
    m_id_list s' = m_id_list s /\
    m_next_id s' = m_next_id s.
Proof.
  intros Hr. destruct (reachable_inv s Hr) as [W _].
  assert (G : exists r s', topValid s = Some (r, s') /\ WF s' /\
                m_active_objects s' = m_active_objects s /\
                m_disappeared s' = m_disappeared s /\
                m_framecount s' = m_framecount s /\
                m_id_list s' = m_id_list s /\
                m_next_id s' = m_next_id s).
  { rewrite topValid_eq, (topValid_entry_WF s W).
    destruct (first_eligible s) as [[id o]|] eqn:Ef.
    - destruct (first_eligible_Some s id o Ef) as (Ho & _ & _).
      eexists _, _. split; [reflexivity|].
      split; [apply claimed_WF; auto; eapply obj_tracked, Ho|].
      repeat split.
    - eexists _, _. split; [reflexivity|]. split; [exact W|]. repeat split. }
  destruct G as (r & s' & Et & W' & Ea & Ed & Ef & Ei & En).
  exists r, s', (objects_of s), (length (tracked s)),
    (match m_id_list s with [] => None | id :: _ => Some (object_at s id) end).
  split; [exact Et|].
  split; [now apply active_objects_WF|].
  split.
  { rewrite (active_objects_WF s' W'). unfold objects_of, object_at, obj_of.
    now rewrite Ei, Ea. }
  split; [apply object_count_eq|].
  split; [rewrite object_count_eq; unfold tracked; now rewrite Ea|].
  split; [now apply top_WF|].
  split.
  { rewrite (top_WF s' W'). unfold object_at, obj_of. now rewrite Ei, Ea. }
  auto.
Qed.

End DistanceAndQueries.

(** * The further theorems at work on the integer tracker *)

Module MoreScenarios.
Import IntTracker.

Local Abbreviation reach := (@reachable Z Z arith by_size Sorts.keeping).

Lemma by_size_swo : strict_weak_order (A := Object Z) Object_gt.
Proof.
  unfold Object_gt, by_size. repeat split.
  - intros a. apply Z.ltb_irrefl.
  - intros a b c Hab Hbc. apply Z.ltb_lt in Hab, Hbc. apply Z.ltb_lt. lia.
  - intros a b c Hab Hbc. apply Z.ltb_ge in Hab, Hbc. apply Z.ltb_ge. lia.
Qed.

Lemma ranked_pair_WF : WF ranked_pair.
Proof. apply (reachable_inv (SS := Sorts.keeping)), Scenarios.ranked_pair_reachable. Qed.

Lemma single_WF : WF single.
Proof. apply (reachable_inv (SS := Sorts.keeping)), Scenarios.single_reachable. Qed.

Lemma missed_twice_WF : WF missed_twice.
Proof. apply (reachable_inv (SS := Sorts.keeping)), Scenarios.missed_twice_reachable. Qed.

Lemma ranked_pair_rank_sorted : rank_sorted ranked_pair.
Proof. unfold rank_sorted, descending. vm_compute. repeat constructor. Qed.

(** A distance matrix of two identities and two detections. *)
Definition two_by_two : list (list Z) := [[3; 1]; [5; 7]]%Z.

Lemma register_object_keeps_rank_order_witness :
  strict_weak_order (A := Object Z) Object_gt /\
  WF ranked_pair /\ rank_sorted ranked_pair /\
  exists s' before after,
    register_object (obj 5 5 5 4) ranked_pair
    = Some (m_next_id ranked_pair, s') /\
    rank_sorted s' /\
    objects_of ranked_pair = before ++ after /\
    objects_of s' = before ++ obj 5 5 5 4 :: after /\
    Forall (fun o => Object_gt o (obj 5 5 5 4) = true) before /\
    Forall (fun o => Object_gt o (obj 5 5 5 4) = false) after.
Proof.
  split; [exact by_size_swo|]. split; [exact ranked_pair_WF|].
  split; [exact ranked_pair_rank_sorted|].
  exact (register_object_keeps_rank_order ranked_pair (obj 5 5 5 4)
           by_size_swo ranked_pair_WF ranked_pair_rank_sorted).
Defined.

Lemma register_object_fresh_identity_witness :
  WF single /\
  let id := m_next_id single in
  exists s', register_object (obj 7 7 7 7) single = Some (id, s') /\
    WF s' /\ same_config single s' /\
    ~ In id (tracked single) /\
    tracked s' = tracked single ++ [id] /\
    m_next_id s' = S id /\
    obj_of s' id = Some (obj 7 7 7 7) /\
    uprooted_of s' id = Some false /\
    disappeared_of s' id = Some 0 /\
    framecount_of s' id = Some 1 /\
    (forall id', In id' (tracked single) -> same_at id' single s').
Proof.
  split; [exact single_WF|].
  exact (register_object_fresh_identity single (obj 7 7 7 7) single_WF).
Defined.

Lemma deregister_object_removes_identity_witness :
  WF ranked_pair /\
  exists s', deregister_object 1 ranked_pair = Some (tt, s') /\
    WF s' /\ same_config ranked_pair s' /\
    m_next_id s' = m_next_id ranked_pair /\
    (forall id', In id' (tracked s') <-> In id' (tracked ranked_pair) /\ id' <> 1) /\
    (obj_of s' 1 = None /\ uprooted_of s' 1 = None /\
     disappeared_of s' 1 = None /\ framecount_of s' 1 = None) /\
    (forall id', id' <> 1 -> same_at id' ranked_pair s') /\
    m_id_list s' = filter (fun id' => negb (id' =? 1)) (m_id_list ranked_pair) /\
    (~ In 1 (tracked ranked_pair) -> s' = ranked_pair).
Proof.
  split; [exact ranked_pair_WF|].
  exact (deregister_object_removes_identity ranked_pair 1 ranked_pair_WF).
Defined.

Lemma register_then_deregister_witness :
  WF single /\
  bind (register_object (obj 7 7 7 7)) deregister_object single
  = Some (tt, set_next_id S single).
Proof.
  split; [exact single_WF|].
  exact (register_then_deregister single (obj 7 7 7 7) single_WF).
Defined.

Lemma top_is_first_active_object_witness :
  reach ranked_pair /\
  exists l, active_objects ranked_pair = Some (l, ranked_pair) /\
    object_count ranked_pair = Some (length l, ranked_pair) /\
    top ranked_pair = Some (hd_error l, ranked_pair) /\
    Permutation l (map snd (m_active_objects ranked_pair)).
Proof.
  split; [exact Scenarios.ranked_pair_reachable|].
  exact (top_is_first_active_object (SS := Sorts.keeping) ranked_pair
           Scenarios.ranked_pair_reachable).
Defined.

Lemma registry_invariant_witness :
  reach missed_once /\
  NoDup (m_id_list missed_once) /\
  (forall id, In id (m_id_list missed_once) <-> In id (tracked missed_once)) /\
  (forall id, In id (tracked missed_once) ->
     id < m_next_id missed_once /\
     exists o up d fc,
       obj_of missed_once id = Some o /\ uprooted_of missed_once id = Some up /\
       disappeared_of missed_once id = Some d /\
       framecount_of missed_once id = Some fc /\
       d <= m_max_dissapeared_frms missed_once) /\
  (forall id, ~ In id (tracked missed_once) ->
     obj_of missed_once id = None /\ uprooted_of missed_once id = None /\
     disappeared_of missed_once id = None /\ framecount_of missed_once id = None).
Proof.
  split; [exact Scenarios.missed_once_reachable|].
  exact (registry_invariant (SS := Sorts.keeping) missed_once
           Scenarios.missed_once_reachable).
Defined.

Lemma ids_never_reused_witness :
  reach start /\ run_k ranked_pair_calls start = Some ([], ranked_pair) /\
  same_config start ranked_pair /\
  m_next_id start <= m_next_id ranked_pair /\
  (forall id, In id (tracked ranked_pair) -> id < m_next_id ranked_pair) /\
  (forall id, In id (tracked ranked_pair) ->
     In id (tracked start) \/ m_next_id start <= id) /\
  (forall id, id < m_next_id start -> ~ In id (tracked start) ->
     ~ In id (tracked ranked_pair)).
Proof.
  split; [exact Scenarios.start_reachable|]. split; [vm_compute; reflexivity|].
  apply (ids_never_reused (SS := Sorts.keeping) start ranked_pair_calls []
           ranked_pair Scenarios.start_reachable).
  vm_compute. reflexivity.
Defined.

Lemma empty_registry_edge_witness :
  reach start /\ tracked start = [] /\
  object_count start = Some (0, start) /\
  active_objects start = Some ([], start) /\
  top start = Some (None, start) /\
  topValid start = Some (None, start) /\
  update (SS := Sorts.keeping) [] start = Some (tt, start).
Proof.
  split; [exact Scenarios.start_reachable|]. split; [reflexivity|].
  exact (empty_registry_edge (SS := Sorts.keeping) start
           Scenarios.start_reachable eq_refl).
Defined.

Lemma cleanup_returns_iff_no_expiry_witness :
  WF missed_twice /\
  (bounded missed_twice -> cleanup_dissapeared missed_twice = Some (tt, missed_twice)) /\
  (~ bounded missed_twice -> cleanup_dissapeared missed_twice = None) /\
  (forall r, cleanup_dissapeared missed_twice = Some r ->
     r = (tt, missed_twice) /\ bounded missed_twice).
Proof.
  split; [exact missed_twice_WF|].
  exact (cleanup_returns_iff_no_expiry missed_twice missed_twice_WF).
Defined.

Lemma rows_by_smallest_distance_witness :
  0 < 2 /\
  let D := two_by_two in
  let S := sorted_ids (SS := Sorts.keeping) D 2 2 in
  let best := fun a => mat_at D a (ids_at S a 0) in
  let rows := active_obj_ids (SS := Sorts.keeping) D S 2 in
  Permutation (seq 0 2) rows /\
  sorted_by (fun a b => dist_lt (best a) (best b)) rows /\
  (forall p q a b, p < q -> nth_error rows p = Some a ->
     nth_error rows q = Some b -> dist_lt (best b) (best a) = false) /\
  (forall a, a < 2 ->
     ids_at S a 0 < 2 /\
     forall c, c < 2 -> dist_lt (mat_at D a c) (best a) = false).
Proof.
  split; [lia|].
  exact (rows_by_smallest_distance (SS := Sorts.keeping) two_by_two 2 2
           Nat.lt_0_2).
Defined.

Lemma update_moves_no_identity_witness :
  reach ranked_pair /\
  let s := ranked_pair in
  let objs := [obj 2 0 0 3; obj 200 0 0 5] in
  exists s2, update (SS := Sorts.keeping) objs s = cleanup_dissapeared s2 /\
    (bounded s2 -> update (SS := Sorts.keeping) objs s = Some (tt, s2)) /\
    filter (fun id => id <? m_next_id s) (m_id_list s2) = m_id_list s /\
    (forall id, In id (m_id_list s2) ->
       In id (m_id_list s) \/ m_next_id s <= id).
Proof.
  split; [exact Scenarios.ranked_pair_reachable|].
  exact (update_moves_no_identity (SS := Sorts.keeping) ranked_pair
           [obj 2 0 0 3; obj 200 0 0 5] Scenarios.ranked_pair_reachable).
Defined.

Lemma rank_order_kept_without_refresh_witness :
  strict_weak_order (A := Object Z) Object_gt /\
  reach ranked_pair /\ rank_sorted ranked_pair /\
  let s := ranked_pair in
  let objs := [obj 300 0 0 4] in
  exists s2, update (SS := Sorts.keeping) objs s = cleanup_dissapeared s2 /\
    (bounded s2 -> update (SS := Sorts.keeping) objs s = Some (tt, s2)) /\
    ((forall id, In id (tracked s) -> obj_of s2 id = obj_of s id) ->
     rank_sorted s2).
Proof.
  split; [exact by_size_swo|]. split; [exact Scenarios.ranked_pair_reachable|].
  split; [exact ranked_pair_rank_sorted|].
  exact (rank_order_kept_without_refresh (SS := Sorts.keeping) ranked_pair
           [obj 300 0 0 4] by_size_swo Scenarios.ranked_pair_reachable
           ranked_pair_rank_sorted).
Defined.

Lemma eligibility_after_update_witness :
  reach ranked_pair /\
  let s := ranked_pair in
  let objs := [obj 2 0 0 3; obj 300 0 0 4] in
  exists s2, update (SS := Sorts.keeping) objs s = cleanup_dissapeared s2 /\
    (bounded s2 -> update (SS := Sorts.keeping) objs s = Some (tt, s2)) /\
    (forall id, In id (tracked s) -> missed_at id s s2 ->
       0 < m_min_framecount s -> eligible s2 id = false) /\
    (forall id, In id (tracked s2) -> ~ In id (tracked s) ->
       eligible s2 id = (m_min_framecount s <=? 1)) /\
    (objs = [] -> 0 < m_min_framecount s -> topValid s2 = Some (None, s2)).
Proof.
  split; [exact Scenarios.ranked_pair_reachable|].
  exact (eligibility_after_update (SS := Sorts.keeping) ranked_pair
           [obj 2 0 0 3; obj 300 0 0 4] Scenarios.ranked_pair_reachable).
Defined.

Lemma match_takes_nearest_free_detection_witness :
  reach ranked_pair /\
  let s := ranked_pair in
  let objs := [obj 2 0 0 3; obj 200 0 0 5] in
  objs <> [] /\ tracked s <> [] /\
  let D := dist_matrix_of s objs in
  let S := sorted_ids (SS := Sorts.keeping) D 2 2 in
  let rows := active_obj_ids (SS := Sorts.keeping) D S 2 in
  exists s2, update (SS := Sorts.keeping) objs s = cleanup_dissapeared s2 /\
    (bounded s2 -> update (SS := Sorts.keeping) objs s = Some (tt, s2)) /\
    forall i id used c,
      nth_error (m_id_list s) i = Some id ->
      In (i, used, Some c) (matching D S 10%Z rows (OMap.empty nat)) ->
      exists o, nth_error objs c = Some o /\ matched_at id o s s2 /\
        forall c' o', nth_error objs c' = Some o' ->
          ~ In c' (OMap.keys used) ->
          dist_lt (euclidean_distance (object_at s id) o')
                  (euclidean_distance (object_at s id) o) = false.
Proof.
  split; [exact Scenarios.ranked_pair_reachable|].
  split; [discriminate|]. split; [discriminate|].
  apply (match_takes_nearest_free_detection (SS := Sorts.keeping) ranked_pair
           [obj 2 0 0 3; obj 200 0 0 5] Scenarios.ranked_pair_reachable);
    discriminate.
Defined.



Lemma update_from_empty_in_rank_order_witness :
  strict_weak_order (A := Object Z) Object_gt /\
  reach start /\ tracked start = [] /\
  let objs := [obj 0 0 0 3; obj 100 0 0 5; obj 50 0 0 4] in
  exists s' l, update (SS := Sorts.keeping) objs start = Some (tt, s') /\
    active_objects s' = Some (l, s') /\
    descending l /\
    (forall k o, nth_error objs k = Some o ->
       obj_of s' (m_next_id start + k) = Some o) /\
    (forall t, top s' = Some (Some t, s') ->
       In t objs /\ forall o, In o objs -> Object_gt o t = false).
Proof.
  split; [exact by_size_swo|]. split; [exact Scenarios.start_reachable|].
  split; [reflexivity|].
  exact (update_from_empty_in_rank_order (SS := Sorts.keeping) start
           [obj 0 0 0 3; obj 100 0 0 5; obj 50 0 0 4] by_size_swo
           Scenarios.start_reachable eq_refl).
Defined.



Lemma single_below_limit id d :
  disappeared_of single id = Some d -> d < m_max_dissapeared_frms single.
Proof.
  unfold disappeared_of. simpl. destruct (id =? 1); [|discriminate].
  intros [= <-]. lia.
Qed.

Lemma update_returns_below_limit_witness :
  reach single /\
  (forall id d, disappeared_of single id = Some d ->
     d < m_max_dissapeared_frms single) /\
  exists s', update (SS := Sorts.keeping) [] single = Some (tt, s') /\
    (forall id, In id (tracked single) -> In id (tracked s')) /\
    (forall id d, disappeared_of s' id = Some d ->
       d <= m_max_dissapeared_frms s').
Proof.
  split; [exact Scenarios.single_reachable|].
  split; [exact single_below_limit|].
  exact (update_returns_below_limit (SS := Sorts.keeping) single []
           Scenarios.single_reachable single_below_limit).
Defined.

Lemma missed_twice_far_detection o :
  In o [obj 50 0 0 1] ->
  dist_lt (euclidean_distance (object_at missed_twice 1) o)
          (m_dist_tol missed_twice) = false.
Proof. intros [<- | []]. vm_compute. reflexivity. Qed.

Lemma update_has_no_result_on_expiry_witness :
  reach missed_twice /\
  disappeared_of missed_twice 1 = Some (m_max_dissapeared_frms missed_twice) /\
  (forall o, In o [obj 50 0 0 1] ->
     dist_lt (euclidean_distance (object_at missed_twice 1) o)
             (m_dist_tol missed_twice) = false) /\
  update (SS := Sorts.keeping) [obj 50 0 0 1] missed_twice = None.
Proof.
  split; [exact Scenarios.missed_twice_reachable|]. split; [reflexivity|].
  split; [exact missed_twice_far_detection|].
  exact (update_has_no_result_on_expiry (SS := Sorts.keeping) missed_twice
           [obj 50 0 0 1] 1 Scenarios.missed_twice_reachable eq_refl
           missed_twice_far_detection).
Defined.

Lemma no_detection_matched_twice_witness :
  reach ranked_pair /\
  let s := ranked_pair in
  let objs := [obj 2 0 0 3; obj 200 0 0 5] in
  objs <> [] /\ tracked s <> [] /\
  let D := dist_matrix_of s objs in
  let S := sorted_ids (SS := Sorts.keeping) D 2 2 in
  let rows := active_obj_ids (SS := Sorts.keeping) D S 2 in
  let M := matching D S 10%Z rows (OMap.empty nat) in
  exists s2, update (SS := Sorts.keeping) objs s = cleanup_dissapeared s2 /\
    (bounded s2 -> update (SS := Sorts.keeping) objs s = Some (tt, s2)) /\
    (forall i id, nth_error (m_id_list s) i = Some id ->
       exists u r, In (i, u, r) M /\ row_post objs id r s s2 /\
         forall u' r', In (i, u', r') M -> u' = u /\ r' = r) /\
    (forall i j u u' c,
       In (i, u, Some c) M -> In (j, u', Some c) M -> i = j /\ u = u') /\
    (forall i u c, In (i, u, Some c) M ->
       i < 2 /\ c < length objs /\ ~ In c (OMap.keys u)).
Proof.
  split; [exact Scenarios.ranked_pair_reachable|].
  split; [discriminate|]. split; [discriminate|].
  apply (no_detection_matched_twice (SS := Sorts.keeping) ranked_pair
           [obj 2 0 0 3; obj 200 0 0 5] Scenarios.ranked_pair_reachable);
    discriminate.
Defined.


Lemma int_square_of_difference (p q : Z) :
  dist_mul (dist_sub p q) (dist_sub p q) = dist_mul (dist_sub q p) (dist_sub q p).
Proof. simpl. lia. Qed.

Lemma euclidean_distance_symmetric_witness :
  (forall p q : Z,
     dist_mul (dist_sub p q) (dist_sub p q)
     = dist_mul (dist_sub q p) (dist_sub q p)) /\
  let a := obj 1 2 3 4 in
  let b := obj 7 5 3 1 in
  euclidean_distance a b = euclidean_distance b a /\
  forall sa sb,
    euclidean_distance (mkObject (x a) (y a) (z a) sa)
                       (mkObject (x b) (y b) (z b) sb)
    = euclidean_distance a b.
Proof.
  split; [exact int_square_of_difference|].
  exact (euclidean_distance_symmetric (obj 1 2 3 4) (obj 7 5 3 1)
           int_square_of_difference).
Defined.

Lemma topValid_keeps_other_queries_witness :
  reach ranked_pair /\
  exists r s' l n t,
    topValid ranked_pair = Some (r, s') /\
    active_objects ranked_pair = Some (l, ranked_pair) /\
    active_objects s' = Some (l, s') /\
    object_count ranked_pair = Some (n, ranked_pair) /\
    object_count s' = Some (n, s') /\
    top ranked_pair = Some (t, ranked_pair) /\ top s' = Some (t, s') /\
    m_active_objects s' = m_active_objects ranked_pair /\
    m_disappeared s' = m_disappeared ranked_pair /\
    m_framecount s' = m_framecount ranked_pair /\
    m_id_list s' = m_id_list ranked_pair /\
    m_next_id s' = m_next_id ranked_pair.
Proof.
  split; [exact Scenarios.ranked_pair_reachable|].
  exact (topValid_keeps_other_queries (SS := Sorts.keeping) ranked_pair
           Scenarios.ranked_pair_reachable).
Defined.

End MoreScenarios.
